(** * augment_ds: a batch image-augmentation pipeline

    Shallow embedding of [augment_ds.py] and the properties checked
    against it.  Python strings are [string]s, [pathlib] paths are records of
    an anchor and a list of parts, Pillow image objects live in a store
    indexed by references, and the calls the program makes to Pillow and to
    the operating system are recorded in a trace whose outcomes are chosen by
    an arbitrary environment. *)

From Stdlib Require Import Ascii String ZArith QArith Lia.
From stdpp Require Import base list strings gmap.

Local Open Scope string_scope.
Local Open Scope list_scope.

(** ** Python strings *)

Module Str.

(** [str.lower] on the ASCII range: [A]-[Z] are moved to [a]-[z]. *)
Definition lower_ascii (c : ascii) : ascii :=
  let n := nat_of_ascii c in
  if (65 <=? n)%nat && (n <=? 90)%nat then ascii_of_nat (n + 32) else c.

Fixpoint lower (s : string) : string :=
  match s with
  | EmptyString => EmptyString
  | String c s' => String (lower_ascii c) (lower s')
  end.

(** Index of the last occurrence of a character. *)
Fixpoint rindex (c : ascii) (s : string) : option nat :=
  match s with
  | EmptyString => None
  | String a s' =>
      match rindex c s' with
      | Some i => Some (S i)
      | None => if bool_decide (a = c) then Some 0%nat else None
      end
  end.

(** [s.rfind(c)]: the index of the last occurrence, or [-1]. *)
Definition rfind (s : string) (c : ascii) : Z :=
  match rindex c s with
  | Some i => Z.of_nat i
  | None => (-1)%Z
  end.

(** The slices [s[i:]] and [s[:i]] for [0 <= i]. *)
Fixpoint drop (i : nat) (s : string) : string :=
  match i, s with
  | O, _ => s
  | S i', EmptyString => EmptyString
  | S i', String _ s' => drop i' s'
  end.

Fixpoint take (i : nat) (s : string) : string :=
  match i, s with
  | O, _ => EmptyString
  | S i', EmptyString => EmptyString
  | S i', String a s' => String a (take i' s')
  end.

Definition len (s : string) : Z := Z.of_nat (String.length s).

Fixpoint mem (c : ascii) (s : string) : bool :=
  match s with
  | EmptyString => false
  | String a s' => bool_decide (a = c) || mem c s'
  end.

End Str.

(** ** pathlib paths

    A path is its anchor (drive and root, empty for a relative path) and the
    list of its parts below the anchor. *)

Record Path := mkPath { anchor : string; parts : list string }.

Global Instance Path_eq_dec : EqDecision Path.
Proof. solve_decision. Defined.

Definition Exn := string.

Inductive Result (A : Type) : Type :=
| Ok (a : A)
| Raise (e : Exn).
Arguments Ok {A} a.
Arguments Raise {A} e.

Module PurePath.

(** [p.name] *)
Definition name (p : Path) : string := List.last (parts p) "".

(** [p.parent]: a path without parts is its own parent. *)
Definition parent (p : Path) : Path :=
  mkPath (anchor p) (removelast (parts p)).

(** [p.suffix], as [pathlib] computes it from [name.rfind('.')]. *)
Definition name_suffix (n : string) : string :=
  let i := Str.rfind n "." in
  if ((0 <? i) && (i <? Str.len n - 1))%Z then Str.drop (Z.to_nat i) n
  else "".

Definition suffix (p : Path) : string := name_suffix (name p).

(** [p.stem] *)
Definition name_stem (n : string) : string :=
  let i := Str.rfind n "." in
  if ((0 <? i) && (i <? Str.len n - 1))%Z then Str.take (Z.to_nat i) n
  else n.

Definition stem (p : Path) : string := name_stem (name p).

(** [p / q]: an anchored right operand replaces the left one. *)
Definition join (p q : Path) : Path :=
  if bool_decide (anchor q = "") then mkPath (anchor p) (parts p ++ parts q)
  else q.

(** [p / s] for a file name [s] (one part, no separator); joining the
    empty string changes nothing. *)
Definition join_name (p : Path) (s : string) : Path :=
  if bool_decide (s = "") then p else mkPath (anchor p) (parts p ++ [s]).

Fixpoint strip_prefix (pre l : list string) : option (list string) :=
  match pre, l with
  | [], _ => Some l
  | a :: pre', b :: l' => if bool_decide (a = b) then strip_prefix pre' l' else None
  | _ :: _, [] => None
  end.

(** [p.relative_to(base)]: raises [ValueError] unless [base] is a prefix. *)
Definition relative_to (p base : Path) : Result Path :=
  if bool_decide (anchor p = anchor base) then
    match strip_prefix (parts base) (parts p) with
    | Some rest => Ok (mkPath "" rest)
    | None => Raise "ValueError"
    end
  else Raise "ValueError".

End PurePath.

Notation "p // q" := (PurePath.join p q) (at level 40, left associativity).
Notation "p /: s" := (PurePath.join_name p s) (at level 40, left associativity).

(** ** Format classifier *)

Definition recognize_formats : list string :=
  [".bmp"; ".jpeg"; ".jpg"; ".png"; ".tif"; ".tiff"; ".webp"].

(** The dictionary literal of [save_image]. *)
Definition fmt_table : gmap string string :=
  list_to_map
    [(".jpg", "JPEG"); (".jpeg", "JPEG"); (".png", "PNG"); (".bmp", "BMP");
     (".tif", "TIFF"); (".tiff", "TIFF"); (".webp", "WEBP")].

Definition save_format (ext : string) : string :=
  default "PNG" (fmt_table !! Str.lower ext).

Inductive OptVal := OInt (n : Z) | OBool (b : bool).

Definition save_options (fmt : string) : list (string * OptVal) :=
  if bool_decide (fmt = "JPEG") then [("quality", OInt 95); ("optimize", OBool true)]
  else [].


(** ** The imaging library

    Pillow is not part of the repository: the values of image objects and the
    operations on them are an interface.  The operations are functions of
    the values of their arguments and return new values; every one of them
    may raise. *)

Definition bytes := list Byte.byte.
Definition Color := (Z * Z * Z)%type.

(** The members of [ImageFilter] the program uses. *)
Inductive Filter := BLUR.

Class Pillow := {
  img : Type;
  (** [im.mode] and [im.size] *)
  pil_mode : img -> string;
  pil_size : img -> Z * Z;
  (** [Image.new(mode, size, color)] *)
  pil_new : string -> Z * Z -> Color -> Result img;
  (** [im.convert(mode)] and [im.getchannel(channel)] *)
  pil_convert : img -> string -> Result img;
  pil_getchannel : img -> string -> Result img;
  (** [base.paste(im, mask=mask)]: the new value of [base]. *)
  pil_paste : img -> img -> img -> Result img;
  (** [ImageOps.mirror(im)] swaps left and right, [ImageOps.flip(im)] top
      and bottom. *)
  pil_mirror : img -> Result img;
  pil_flip : img -> Result img;
  (** [im.rotate(angle, expand=expand)] turns counter-clockwise by [angle]
      degrees. *)
  pil_rotate : img -> Z -> bool -> Result img;
  (** [ImageEnhance.Brightness(im).enhance(factor)] and its siblings. *)
  pil_brightness : img -> Q -> Result img;
  pil_contrast : img -> Q -> Result img;
  pil_sharpness : img -> Q -> Result img;
  (** [im.filter(f)] *)
  pil_filter : img -> Filter -> Result img;
  (** [im.save(bio, format=fmt, **options)] followed by [bio.getvalue()]. *)
  pil_save : img -> string -> list (string * OptVal) -> Result bytes;
}.

(** What Pillow documents about the modes of the images it returns. *)
Record PillowSpec (P : Pillow) : Prop := {
  new_mode : forall m sz c d, pil_new m sz c = Ok d -> pil_mode d = m;
  convert_mode : forall d m d', pil_convert d m = Ok d' -> pil_mode d' = m;
  paste_mode : forall b d k b', pil_paste b d k = Ok b' -> pil_mode b' = pil_mode b;
}.

(** ** Program states and the monad of the embedding *)

Abbreviation ref := nat (only parsing).

Section Program.
Context {P : Pillow}.

(** Calls to the outside world, as the trace records them. *)
Inductive Call :=
  | Mkdir (p : Path) (parents exist_ok : bool)
  | Copy2 (src dst : Path)
  | ImageOpen (src : Path)
  | ImageLoad (im : ref)
  | ImageClose (im : ref)
  | ImageSave (d : img) (fmt : string) (options : list (string * OptVal))
  | WriteBytes (p : Path) (data : bytes).

(** A call with the exception it raised, if any. *)
Record Event := mkEvent { ev_call : Call; ev_exn : option Exn }.

(** The lines the program prints. *)
Inductive Msg :=
  | MsgNoImages (input_dir : Path) (extensions : list string)
  | MsgCopyFailed (src : Path) (e : Exn)
  | MsgSkipping (src : Path) (e : Exn)
  | MsgCompleted (output_dir : Path)
  | MsgData (originals augmented : nat).

Record State := mkState {
    heap : list img;
    trace : list Event;
    stdout : list Msg;
    num_originals : nat;
    num_augmented : nat;
  }.

Definition M (A : Type) : Type := State -> Result A * State.

Definition ret {A} (a : A) : M A := fun s => (Ok a, s).

Definition bind {A B} (m : M A) (k : A -> M B) : M B :=
  fun s => match m s with
           | (Ok a, s') => k a s'
           | (Raise e, s') => (Raise e, s')
           end.

Definition lift {A} (r : Result A) : M A := fun s => (r, s).

(** [try: m except Exception as e: h e] *)
Definition try_except {A} (m : M A) (h : Exn -> M A) : M A :=
  fun s => match m s with
           | (Ok a, s') => (Ok a, s')
           | (Raise e, s') => h e s'
           end.

(** State updates *)

Definition log (ev : Event) (s : State) : State :=
  mkState (heap s) (trace s ++ [ev]) (stdout s) (num_originals s) (num_augmented s).

Definition say (m : Msg) (s : State) : State :=
  mkState (heap s) (trace s) (stdout s ++ [m]) (num_originals s) (num_augmented s).

Definition set_heap (h : list img) (s : State) : State :=
  mkState h (trace s) (stdout s) (num_originals s) (num_augmented s).

Definition set_counters (n k : nat) (s : State) : State :=
  mkState (heap s) (trace s) (stdout s) n k.

Definition emit (ev : Event) : M unit := fun s => (Ok tt, log ev s).

Definition alloc (d : img) : M ref :=
  fun s => (Ok (length (heap s)), set_heap (heap s ++ [d]) s).

Definition deref (r : ref) : M img :=
  fun s => match heap s !! r with
           | Some d => (Ok d, s)
           | None => (Raise "ReferenceError", s)
           end.

Definition assign (r : ref) (d : img) : M unit :=
  fun s => (Ok tt, set_heap (<[r := d]> (heap s)) s).

(** [num_originals, num_augmented = 0, 0] and the two increments. *)
Definition init_counters : M unit := fun s => (Ok tt, set_counters 0 0 s).

Definition incr_originals : M unit :=
  fun s => (Ok tt, set_counters (num_originals s + 1) (num_augmented s) s).

Definition incr_augmented : M unit :=
  fun s => (Ok tt, set_counters (num_originals s) (num_augmented s + 1) s).

Definition get {A} (f : State -> A) : M A := fun s => (Ok (f s), s).

End Program.

Declare Scope prog_scope.
Delimit Scope prog_scope with prog.
Notation "'let*' x ':=' m 'in' k" := (bind m (fun x => k))
  (at level 10, x name, m at level 100, k at level 200) : prog_scope.
Notation "m >> k" := (bind m (fun _ => k))
  (at level 80, right associativity) : prog_scope.
Local Open Scope prog_scope.

Section Source.
Context {P : Pillow}.

(** [with enter as x: body x]: [leave x] runs on every way out, and the
    exception of the body, if any, goes on afterwards. *)
Definition with_as {A B} (enter : M A) (leave : A -> M unit) (body : A -> M B)
  : M B :=
  let* x := enter in
  let* b := try_except (body x) (fun e => leave x >> lift (Raise e)) in
  leave x >> ret b.

(** *** Methods of image objects *)

Definition Image_mode (im : ref) : M string :=
  let* d := deref im in ret (pil_mode d).

Definition Image_size (im : ref) : M (Z * Z) :=
  let* d := deref im in ret (pil_size d).

Definition Image_new (mode : string) (size : Z * Z) (color : Color) : M ref :=
  let* d := lift (pil_new mode size color) in alloc d.

Definition Image_convert (im : ref) (mode : string) : M ref :=
  let* d := deref im in
  let* d' := lift (pil_convert d mode) in
  alloc d'.

Definition Image_getchannel (im : ref) (channel : string) : M ref :=
  let* d := deref im in
  let* d' := lift (pil_getchannel d channel) in
  alloc d'.

(** [base.paste(im, mask=mask)] updates [base] in place. *)
Definition Image_paste (base im mask : ref) : M unit :=
  let* b := deref base in
  let* d := deref im in
  let* k := deref mask in
  let* b' := lift (pil_paste b d k) in
  assign base b'.

(** A method that returns a new image computed from [im] alone. *)
Definition Image_apply (f : img -> Result img) (im : ref) : M ref :=
  let* d := deref im in
  let* d' := lift (f d) in
  alloc d'.

Definition Image_save (im : ref) (fmt : string) (options : list (string * OptVal))
  : M bytes :=
  let* d := deref im in
  match pil_save d fmt options with
  | Ok data => emit (mkEvent (ImageSave d fmt options) None) >> ret data
  | Raise e => emit (mkEvent (ImageSave d fmt options) (Some e)) >> lift (Raise e)
  end.

(** Leaving the [with] block of an opened image closes its file. *)
Definition Image_exit (im : ref) : M unit :=
  emit (mkEvent (ImageClose im) None).

(** *** convert_rgb *)

Definition white : Color := (255, 255, 255)%Z.

Definition convert_rgb (img : ref) (background : Color) : M ref :=
  let* mode := Image_mode img in
  if bool_decide (mode = "RGB") then ret img
  else if bool_decide (mode ∈ ["RGBA"; "LA"]) then
    let* size := Image_size img in
    let* base := Image_new "RGB" size background in
    let* rgb := Image_convert img "RGB" in
    let* alpha := Image_getchannel img "A" in
    Image_paste base rgb alpha >>
    ret base
  else Image_convert img "RGB".

(** *** guarantee_rgb_for_jpeg *)

Definition guarantee_rgb_for_jpeg (img : ref) (ext : string) : M ref :=
  if bool_decide (ext ∈ [".jpg"; ".jpeg"]) then
    let* mode := Image_mode img in
    if negb (bool_decide (mode ∈ ["RGB"; "L"])) then Image_convert img "RGB"
    else ret img
  else ret img.

(** *** augmentations

    The generator is the list of its steps; a step computes one variant
    when the consumer asks for it. *)

Definition yield (name : string) (m : M ref) : M (string * ref) :=
  let* v := m in ret (name, v).

Definition augmentations (img : ref) : list (M (string * ref)) :=
  [ yield "flipHorizontal" (Image_apply pil_mirror img);
    yield "flipVertical" (Image_apply pil_flip img);
    yield "rotate90degrees" (Image_apply (fun d => pil_rotate d 90 true) img);
    yield "rotate270" (Image_apply (fun d => pil_rotate d 270 true) img);
    yield "bright125" (Image_apply (fun d => pil_brightness d (3 # 2)) img);
    yield "contrast125" (Image_apply (fun d => pil_contrast d (3 # 2)) img);
    yield "sharp150" (Image_apply (fun d => pil_sharpness d (3 # 2)) img);
    yield "blur" (Image_apply (fun d => pil_filter d BLUR) img) ].

(** *** save_image *)

Definition save_image (img : ref) (ext : string) : M bytes :=
  let fmt := save_format ext in
  let options := save_options fmt in
  Image_save img fmt options.

(** *** Loops *)

Fixpoint for_each {A} (l : list A) (body : A -> M unit) : M unit :=
  match l with
  | [] => ret tt
  | x :: l' => body x >> for_each l' body
  end.

(** A [for] loop over a generator: each step runs just before its body. *)
Fixpoint for_gen {A} (g : list (M A)) (body : A -> M unit) : M unit :=
  match g with
  | [] => ret tt
  | step :: g' => (let* x := step in body x) >> for_gen g' body
  end.

(** [list(g)] *)
Fixpoint collect {A} (g : list (M A)) : M (list A) :=
  match g with
  | [] => ret []
  | step :: g' => let* x := step in let* xs := collect g' in ret (x :: xs)
  end.

(** *** The environment

    What the file system, the decoder and the standard output answer,
    given the calls made and the lines printed so far. *)

Record Env := mkEnv {
    rglob : Path -> list Path;
    is_file : Path -> bool;
    os_mkdir : list Event -> Path -> option Exn;
    os_copy2 : list Event -> Path -> Path -> option Exn;
    os_write_bytes : list Event -> Path -> bytes -> option Exn;
    os_open_image : list Event -> Path -> Result img;
    os_load_image : list Event -> ref -> option Exn;
    os_print : list Event -> list Msg -> Msg -> option Exn;
  }.

Definition outcome (r : option Exn) : M unit :=
  match r with
  | None => ret tt
  | Some e => lift (Raise e)
  end.

Section Run.
Variable env : Env.

Definition Path_mkdir (p : Path) (parents exist_ok : bool) : M unit :=
  let* tr := get trace in
  let r := os_mkdir env tr p in
  emit (mkEvent (Mkdir p parents exist_ok) r) >> outcome r.

Definition shutil_copy2 (src dst : Path) : M unit :=
  let* tr := get trace in
  let r := os_copy2 env tr src dst in
  emit (mkEvent (Copy2 src dst) r) >> outcome r.

Definition Path_write_bytes (p : Path) (data : bytes) : M unit :=
  let* tr := get trace in
  let r := os_write_bytes env tr p data in
  emit (mkEvent (WriteBytes p data) r) >> outcome r.

Definition Image_open (src : Path) : M ref :=
  let* tr := get trace in
  match os_open_image env tr src with
  | Ok d => emit (mkEvent (ImageOpen src) None) >> alloc d
  | Raise e => emit (mkEvent (ImageOpen src) (Some e)) >> lift (Raise e)
  end.

Definition Image_load (im : ref) : M unit :=
  let* tr := get trace in
  let r := os_load_image env tr im in
  emit (mkEvent (ImageLoad im) r) >> outcome r.

(** [print(line)]: the line is written on the standard output, or the
    call raises (a file name that the encoding of the output cannot
    express, a closed pipe) and nothing is written. *)
Definition print (m : Msg) : M unit :=
  fun s => match os_print env (trace s) (stdout s) m with
           | None => (Ok tt, say m s)
           | Some e => (Raise e, s)
           end.

(** *** true_image *)

Definition true_image (p : Path) : bool :=
  is_file env p
  && bool_decide (Str.lower (PurePath.suffix p) ∈ recognize_formats).

(** *** process_dataset *)

Definition out_name (src : Path) (suffix ext : string) : string :=
  PurePath.stem src +:+ "__" +:+ suffix +:+ ext.

(** The body of the loop over the variants. *)
Definition write_variant (src dest_dir : Path) (ext : string)
    (v : string * ref) : M unit :=
  let* aug := guarantee_rgb_for_jpeg (snd v) ext in
  let* data := save_image aug ext in
  Path_write_bytes (dest_dir /: out_name src (fst v) ext) data >>
  incr_augmented.

(** The body of the second [try]. *)
Definition augment_file (src dest_dir : Path) : M unit :=
  with_as (Image_open src) Image_exit (fun im =>
    Image_load im >>
    let ext := Str.lower (PurePath.suffix src) in
    let* base := convert_rgb im white in
    for_gen (augmentations base) (write_variant src dest_dir ext)).

Definition copy_original (src dest_dir : Path) : M unit :=
  try_except
    (shutil_copy2 src (dest_dir /: PurePath.name src) >> incr_originals)
    (fun e => print (MsgCopyFailed src e)).

(** The body of the loop over the discovered files. *)
Definition process_file (input_dir output_dir : Path) (copy_originals : bool)
    (src : Path) : M unit :=
  let* rel := lift (PurePath.relative_to src input_dir) in
  let dest_dir := PurePath.parent (output_dir // rel) in
  Path_mkdir dest_dir true true >>
  (if copy_originals then copy_original src dest_dir else ret tt) >>
  try_except (augment_file src dest_dir) (fun e => print (MsgSkipping src e)).

Definition discover (input_dir : Path) : list Path :=
  List.filter true_image (rglob env input_dir).

Definition process_dataset (input_dir output_dir : Path) (copy_originals : bool)
  : M Z :=
  let images := discover input_dir in
  match images with
  | [] => print (MsgNoImages input_dir recognize_formats) >> ret 1%Z
  | _ :: _ =>
      init_counters >>
      for_each images (process_file input_dir output_dir copy_originals) >>
      print (MsgCompleted output_dir) >>
      let* n := get num_originals in
      let* k := get num_augmented in
      print (MsgData n k) >>
      ret 0%Z
  end.

End Run.

End Source.

(** ** Specifications

    Value-level readings of the colour normalizer and of the augmentation
    generator, as the specification words them; the code above is compared
    with them. *)

Section Spec.
Context {P : Pillow}.

Definition rbind {A B} (r : Result A) (k : A -> Result B) : Result B :=
  match r with
  | Ok a => k a
  | Raise e => Raise e
  end.

(** normalize_base: unchanged when already RGB; composited over opaque
    white through the alpha channel when the mode has alpha; converted
    directly otherwise. *)
Definition spec_normalize_base (d : img) : Result img :=
  if bool_decide (pil_mode d = "RGB") then Ok d
  else if bool_decide (pil_mode d = "RGBA" \/ pil_mode d = "LA") then
    rbind (pil_new "RGB" (pil_size d) (255, 255, 255)%Z) (fun background =>
    rbind (pil_convert d "RGB") (fun rgb =>
    rbind (pil_getchannel d "A") (fun alpha =>
    pil_paste background rgb alpha)))
  else pil_convert d "RGB".

(** enforce_jpeg_safety: force RGB when the extension is JPEG-family and
    the mode is neither RGB nor single-channel luminance. *)
Definition spec_enforce_jpeg_safety (d : img) (ext : string) : Result img :=
  if bool_decide ((ext = ".jpg" \/ ext = ".jpeg")
                  /\ pil_mode d <> "RGB" /\ pil_mode d <> "L")
  then pil_convert d "RGB"
  else Ok d.

(** The eight variants, in order, each a function of the base image. *)
Definition spec_variants : list (string * (img -> Result img)) :=
  [ ("flipHorizontal", pil_mirror);
    ("flipVertical", pil_flip);
    ("rotate90degrees", fun d => pil_rotate d 90 true);
    ("rotate270", fun d => pil_rotate d 270 true);
    ("bright125", fun d => pil_brightness d (3 # 2));
    ("contrast125", fun d => pil_contrast d (3 # 2));
    ("sharp150", fun d => pil_sharpness d (3 # 2));
    ("blur", fun d => pil_filter d BLUR) ].

Definition variant_tags : list string :=
  ["flipHorizontal"; "flipVertical"; "rotate90degrees"; "rotate270";
   "bright125"; "contrast125"; "sharp150"; "blur"].

  (** ** Program logic *)

(** [wp m post exc s]: run from [s], [m] either returns a value and a
    state in [post] or raises an exception in a state in [exc]. *)
Definition wp {A} (m : M A) (post : A -> State -> Prop)
    (exc : Exn -> State -> Prop) (s : State) : Prop :=
  match m s with
  | (Ok a, s') => post a s'
  | (Raise e, s') => exc e s'
  end.

(** [s'] differs from [s] by objects added to the store only. *)
Definition grows (s s' : State) : Prop :=
  exists h, s' = set_heap (heap s ++ h) s.

End Spec.

(** ** Reading traces *)

Section Traces.
Context {P : Pillow}.

Definition succeeded (ev : Event) : bool :=
  match ev_exn ev with None => true | Some _ => false end.

Definition is_write (ev : Event) : bool :=
  match ev_call ev with WriteBytes _ _ => true | _ => false end.

Definition is_copy (ev : Event) : bool :=
  match ev_call ev with Copy2 _ _ => true | _ => false end.

(** The number of variant files written, and of originals copied. *)
Definition writes_ok (tr : list Event) : nat :=
  length (List.filter (fun ev => is_write ev && succeeded ev) tr).

Definition copies_ok (tr : list Event) : nat :=
  length (List.filter (fun ev => is_copy ev && succeeded ev) tr).

(** The file a call creates or overwrites, if it does. *)
Definition target (c : Call) : option Path :=
  match c with
  | Copy2 _ dst => Some dst
  | WriteBytes p _ => Some p
  | _ => None
  end.

(** A property that adding objects to the store cannot break. *)
Definition Stable (Q : State -> Prop) : Prop :=
  forall s s', grows s s' -> Q s -> Q s'.

Variable env : Env.

(** The calls that processing [src] into [dest_dir] may make, after the
    directory is prepared. *)
Inductive file_event (src dest_dir : Path) : Event -> Prop :=
  | fe_copy r :
      file_event src dest_dir (mkEvent (Copy2 src (dest_dir /: PurePath.name src)) r)
  | fe_open r :
      file_event src dest_dir (mkEvent (ImageOpen src) r)
  | fe_load im r :
      file_event src dest_dir (mkEvent (ImageLoad im) r)
  | fe_close im r :
      file_event src dest_dir (mkEvent (ImageClose im) r)
  | fe_save tr d0 base name f v d r :
      os_open_image env tr src = Ok d0 ->
      spec_normalize_base d0 = Ok base ->
      (name, f) ∈ spec_variants ->
      f base = Ok v ->
      spec_enforce_jpeg_safety v (Str.lower (PurePath.suffix src)) = Ok d ->
      let fmt := save_format (Str.lower (PurePath.suffix src)) in
      file_event src dest_dir (mkEvent (ImageSave d fmt (save_options fmt)) r)
  | fe_write name data r :
      name ∈ variant_tags ->
      file_event src dest_dir
        (mkEvent (WriteBytes
                    (dest_dir /: out_name src name (Str.lower (PurePath.suffix src)))
                    data) r).

(** The diagnostics about [src]. *)
Definition file_msg (src : Path) (m : Msg) : Prop :=
  exists e, m = MsgCopyFailed src e \/ m = MsgSkipping src e.

(** What has happened between [s0] and [s] while [src] is processed. *)
Definition file_progress (src dest_dir : Path) (s0 s : State) : Prop :=
  exists new out,
    trace s = trace s0 ++ new
    /\ Forall (file_event src dest_dir) new
    /\ num_augmented s = (num_augmented s0 + writes_ok new)%nat
    /\ num_originals s = (num_originals s0 + copies_ok new)%nat
    /\ stdout s = stdout s0 ++ out
    /\ Forall (file_msg src) out.

(** The invariant of the loop over the variants: the base image keeps its
    value [b]. *)
Definition loop_inv (src dest_dir : Path) (s0 : State) (b : img) (base : ref)
    (s : State) : Prop :=
  heap s !! base = Some b /\ file_progress src dest_dir s0 s.

(** The state in which [process_file] leaves the loop over the files with
    exception [e] when started in [s]: the destination directory could
    not be prepared. *)
Definition prepare_failed (input_dir output_dir src : Path) (e : Exn)
    (s s' : State) : Prop :=
  (PurePath.relative_to src input_dir = Raise e /\ s' = s)
  \/ (exists rel,
        PurePath.relative_to src input_dir = Ok rel
        /\ os_mkdir env (trace s) (PurePath.parent (output_dir // rel)) = Some e
        /\ s' = log (mkEvent (Mkdir (PurePath.parent (output_dir // rel)) true true)
                             (Some e)) s).

(** The other way in which [process_file] leaves the loop with exception
    [e]: the directory was prepared, and a diagnostic about the file could
    not be printed in the state [s'] reached. *)
Definition report_failed (input_dir output_dir src : Path) (e : Exn)
    (s s' : State) : Prop :=
  exists rel m,
    PurePath.relative_to src input_dir = Ok rel
    /\ os_mkdir env (trace s) (PurePath.parent (output_dir // rel)) = None
    /\ file_progress src (PurePath.parent (output_dir // rel))
         (log (mkEvent (Mkdir (PurePath.parent (output_dir // rel)) true true) None) s)
         s'
    /\ file_msg src m
    /\ os_print env (trace s') (stdout s') m = Some e.

(** The state in which [process_file] returns when started in [s]. *)
Definition file_done (input_dir output_dir src : Path) (s s' : State) : Prop :=
  exists rel,
    PurePath.relative_to src input_dir = Ok rel
    /\ os_mkdir env (trace s) (PurePath.parent (output_dir // rel)) = None
    /\ file_progress src (PurePath.parent (output_dir // rel))
         (log (mkEvent (Mkdir (PurePath.parent (output_dir // rel)) true true) None) s)
         s'.

(** A run that went through all its files ends with exception [e] in
    [s']: one of the two closing lines could not be printed. *)
Definition summary_failed (output_dir : Path) (e : Exn) (s' : State) : Prop :=
  os_print env (trace s') (stdout s') (MsgCompleted output_dir) = Some e
  \/ exists sL,
       s' = say (MsgCompleted output_dir) sL
       /\ os_print env (trace sL) (stdout sL) (MsgCompleted output_dir) = None
       /\ os_print env (trace s') (stdout s')
            (MsgData (num_originals sL) (num_augmented sL)) = Some e.

(** What has happened between [s0] and [s] over a whole run: the counters
    count the successful writes and copies. *)
Definition run_progress (s0 s : State) : Prop :=
  exists new,
    trace s = trace s0 ++ new
    /\ num_augmented s = (num_augmented s0 + writes_ok new)%nat
    /\ num_originals s = (num_originals s0 + copies_ok new)%nat.

End Traces.

(** ** Two runs into two output roots *)

Global Instance Path_countable : Countable Path :=
  inj_countable' (fun p => (anchor p, parts p)) (fun x => mkPath x.1 x.2)
    (fun p => match p with mkPath a l => eq_refl end).

Section TwoRuns.
Context {P : Pillow}.

(** What a successful call leaves in a file. *)
Inductive Content :=
  | Written (data : bytes)
  | CopyOf (src : Path).

Definition effect (ev : Event) : option (Path * Content) :=
  if succeeded ev then
    match ev_call ev with
    | WriteBytes p data => Some (p, Written data)
    | Copy2 src dst => Some (dst, CopyOf src)
    | _ => None
    end
  else None.

Definition tree_step (t : gmap Path Content) (ev : Event) : gmap Path Content :=
  match effect ev with
  | Some (p, c) => <[p := c]> t
  | None => t
  end.

(** The files a run has produced, later calls overwriting earlier ones. *)
Definition output_tree (tr : list Event) : gmap Path Content :=
  foldl tree_step ∅ tr.

Variables output1 output2 : Path.

(** The same location below the two output roots. *)
Definition same_place (p1 p2 : Path) : Prop :=
  exists q, anchor q = "" /\ p1 = output1 // q /\ p2 = output2 // q.

Inductive call_rel : Call -> Call -> Prop :=
  | cr_mkdir p1 p2 parents exist_ok :
      same_place p1 p2 -> call_rel (Mkdir p1 parents exist_ok) (Mkdir p2 parents exist_ok)
  | cr_copy src p1 p2 :
      same_place p1 p2 -> call_rel (Copy2 src p1) (Copy2 src p2)
  | cr_open src : call_rel (ImageOpen src) (ImageOpen src)
  | cr_load im : call_rel (ImageLoad im) (ImageLoad im)
  | cr_close im : call_rel (ImageClose im) (ImageClose im)
  | cr_save d fmt options : call_rel (ImageSave d fmt options) (ImageSave d fmt options)
  | cr_write p1 p2 data :
      same_place p1 p2 -> call_rel (WriteBytes p1 data) (WriteBytes p2 data).

(** The same call at the same place with the same outcome. *)
Definition event_rel (e1 e2 : Event) : Prop :=
  call_rel (ev_call e1) (ev_call e2) /\ ev_exn e1 = ev_exn e2.

Inductive msg_rel : Msg -> Msg -> Prop :=
  | mr_completed : msg_rel (MsgCompleted output1) (MsgCompleted output2)
  | mr_same m : msg_rel m m.

Definition state_rel (s1 s2 : State) : Prop :=
  heap s1 = heap s2
  /\ Forall2 event_rel (trace s1) (trace s2)
  /\ Forall2 msg_rel (stdout s1) (stdout s2)
  /\ num_originals s1 = num_originals s2
  /\ num_augmented s1 = num_augmented s2.

(** Two environments that hold the same input tree and answer alike
    below the two output roots. *)
Definition env_rel (env1 env2 : Env) : Prop :=
  (forall p, rglob env1 p = rglob env2 p)
  /\ (forall p, is_file env1 p = is_file env2 p)
  /\ forall t1 t2, Forall2 event_rel t1 t2 ->
       (forall p1 p2, same_place p1 p2 -> os_mkdir env1 t1 p1 = os_mkdir env2 t2 p2)
       /\ (forall src p1 p2, same_place p1 p2 ->
                             os_copy2 env1 t1 src p1 = os_copy2 env2 t2 src p2)
       /\ (forall p1 p2 data, same_place p1 p2 ->
             os_write_bytes env1 t1 p1 data = os_write_bytes env2 t2 p2 data)
       /\ (forall src, os_open_image env1 t1 src = os_open_image env2 t2 src)
       /\ (forall im, os_load_image env1 t1 im = os_load_image env2 t2 im)
       /\ (forall o1 o2 m1 m2, Forall2 msg_rel o1 o2 -> msg_rel m1 m2 ->
             os_print env1 t1 o1 m1 = os_print env2 t2 o2 m2).

(** Two computations that step together. *)
Definition sim {A} (m1 m2 : M A) : Prop :=
  forall s1 s2, state_rel s1 s2 ->
    (m1 s1).1 = (m2 s2).1 /\ state_rel (m1 s1).2 (m2 s2).2.

End TwoRuns.

(** [rglob] yields paths strictly below its root. *)
Definition below (root p : Path) : Prop :=
  exists rel, anchor rel = "" /\ parts rel <> [] /\ p = root // rel.

(** ** A small imaging library and file system

    Images are their mode, their size and the list of operations that
    produced them; used to run the program on examples. *)

Module Toy.

Record image := mkImage { t_mode : string; t_size : Z * Z; t_hist : list string }.

Definition op (name : string) (d : image) : Result image :=
  Ok (mkImage (t_mode d) (t_size d) (name :: t_hist d)).

Definition transpose (name : string) (d : image) : Result image :=
  Ok (mkImage (t_mode d) ((t_size d).2, (t_size d).1) (name :: t_hist d)).

Definition has_alpha (d : image) : bool :=
  bool_decide (t_mode d = "RGBA") || bool_decide (t_mode d = "LA").

Definition encode (d : image) (fmt : string) : bytes :=
  String.list_byte_of_string
    (fmt +:+ ":" +:+ t_mode d +:+ ":" +:+ String.concat "," (t_hist d)).

Global Instance pillow : Pillow := {|
    img := image;
    pil_mode := t_mode;
    pil_size := t_size;
    pil_new m sz c := Ok (mkImage m sz ["new"]);
    pil_convert d m := Ok (mkImage m (t_size d) (("convert " +:+ m) :: t_hist d));
    pil_getchannel d ch :=
      if bool_decide (ch = "A") && has_alpha d
      then Ok (mkImage "L" (t_size d) ("alpha" :: t_hist d))
      else Raise "ValueError";
    pil_paste b d k :=
      Ok (mkImage (t_mode b) (t_size b)
                  ("paste" :: t_hist b ++ t_hist d ++ t_hist k));
    pil_mirror := op "mirror";
    pil_flip := op "flip";
    pil_rotate d angle expand :=
      if expand then transpose "rotate" d else op "rotate" d;
    pil_brightness d f := op "brightness" d;
    pil_contrast d f := op "contrast" d;
    pil_sharpness d f := op "sharpness" d;
    pil_filter d f := op "blur" d;
    pil_save d fmt options :=
      if bool_decide (fmt = "JPEG") && has_alpha d
      then Raise "OSError: cannot write mode as JPEG"
      else Ok (encode d fmt);
  |}.

(** An environment: the listing of the input root, the images the files
    decode to, and the calls that fail. *)
Definition env (listing : list Path) (decode : Path -> Result image)
      (deny : Call -> option Exn) : Env := {|
    rglob _ := listing;
    is_file _ := true;
    os_mkdir _ p := deny (Mkdir p true true);
    os_copy2 _ src dst := deny (Copy2 src dst);
    os_write_bytes _ p data := deny (WriteBytes p data);
    os_open_image _ src := decode src;
    os_load_image _ im := deny (ImageLoad im);
    os_print _ _ _ := None;
  |}.

(** The same environment with a standard output that refuses some
    lines. *)
Definition mute (refuse : Msg -> option Exn) (e : Env) : Env := {|
    rglob := rglob e;
    is_file := is_file e;
    os_mkdir := os_mkdir e;
    os_copy2 := os_copy2 e;
    os_write_bytes := os_write_bytes e;
    os_open_image := os_open_image e;
    os_load_image := os_load_image e;
    os_print _ _ m := refuse m;
  |}.

(** The diagnostics about [p] cannot be printed: its name is not in the
    encoding of the standard output. *)
Definition unprintable (p : Path) (m : Msg) : option Exn :=
  match m with
  | MsgCopyFailed src _ | MsgSkipping src _ =>
      if bool_decide (src = p) then Some "UnicodeEncodeError" else None
  | _ => None
  end.

Definition start : State := mkState [] [] [] 0 0.

Definition input : Path := mkPath "" ["in"].
Definition output : Path := mkPath "" ["out"].
Definition output' : Path := mkPath "" ["out2"].

Definition rgb : image := mkImage "RGB" (4, 3)%Z [].
Definition rgba : image := mkImage "RGBA" (4, 3)%Z [].

Definition opaque (_ : Path) : Result image := Ok rgb.
Definition transparent (_ : Path) : Result image := Ok rgba.

Definition car : Path := mkPath "" ["in"; "photos"; "car.png"].
Definition boat : Path := mkPath "" ["in"; "photos"; "boat.jpg"].

(** The boat photo cannot be decoded. *)
Definition corrupt (p : Path) : Result image :=
  if bool_decide (p = boat) then Raise "UnidentifiedImageError" else Ok rgb.
Definition allow (_ : Call) : option Exn := None.

(** The example tree of the specification. *)
Definition photos : list Path :=
  [ mkPath "" ["in"; "photos"; "car.png"];
    mkPath "" ["in"; "photos"; "boat.jpg"];
    mkPath "" ["in"; "photos"; "room.jpg"];
    mkPath "" ["in"; "notes.txt"] ].

(** A file with an upper-case extension. *)
Definition upper : Path := mkPath "" ["in"; "A.PNG"].

(** No directory can be created. *)
Definition no_mkdir (c : Call) : option Exn :=
  match c with Mkdir _ _ _ => Some "PermissionError" | _ => None end.

(** The fourth variant cannot be written. *)
Definition no_rotate270 (c : Call) : option Exn :=
  match c with
  | WriteBytes p _ =>
      if bool_decide (PurePath.name p = "car__rotate270.png")
      then Some "OSError" else None
  | _ => None
  end.

(** No original can be copied. *)
Definition no_copy (c : Call) : option Exn :=
  match c with Copy2 _ _ => Some "OSError" | _ => None end.

End Toy.
(** ** The command line

    [argparse] and the parsing of a string into a path are not part of the
    repository.  [main] below is [main] from the point where
    [parser.parse_args()] has returned the arguments (lines 125 to 137):
    what [parse_args] does before that, ending the process on a usage
    error or after [--help], is [argparse]'s.  The shell tells how a string
    reads as a path, what [expanduser] returns and which paths exist. *)

Record Args := mkArgs {
  arg_input : string;
  arg_output : option string;
  arg_no_copy_originals : bool;
}.

Record Shell := mkShell {
  Path_of : string -> Path;
  expanduser : Path -> Result Path;
  path_exists : Path -> bool;
}.

(** [input_dir.parent / (input_dir.name + "_out")] *)
Definition default_output (input_dir : Path) : Path :=
  PurePath.parent input_dir /: (PurePath.name input_dir +:+ "_out").

(** The output directory: [Path(args.output).expanduser()] if
    [args.output] is given and not empty, the default otherwise. *)
Definition output_dir_of (sh : Shell) (args : Args) (input_dir : Path)
  : Result Path :=
  match arg_output args with
  | Some o =>
      if bool_decide (o = "") then Ok (default_output input_dir)
      else expanduser sh (Path_of sh o)
  | None => Ok (default_output input_dir)
  end.

Section Main.
Context {P : Pillow}.
Variables (sh : Shell) (env : Env).

(** [main]: the value returned is the status of the [SystemExit] it
    raises, 2 being the status of [parser.error]; any other exception goes
    through. *)
Definition main (args : Args) : M Z :=
  let* input_dir := lift (expanduser sh (Path_of sh (arg_input args))) in
  if negb (path_exists sh input_dir) then ret 2%Z
  else
    let* output_dir := lift (output_dir_of sh args input_dir) in
    Path_mkdir env output_dir true true >>
    let* exit_code :=
      process_dataset env input_dir output_dir
        (negb (arg_no_copy_originals args)) in
    ret exit_code.

End Main.

(** ** What a run may do *)

Section MayEmit.
Context {P : Pillow}.

(** The path a call is given to create or to write: the argument of
    [mkdir] (the missing ancestors that [parents=True] makes it create are
    not calls of the program and are not recorded), the destination of
    [copy2], the path of [write_bytes]; and the path a call reads. *)
Definition path_given (c : Call) : option Path :=
  match c with
  | Mkdir p _ _ => Some p
  | Copy2 _ dst => Some dst
  | WriteBytes p _ => Some p
  | _ => None
  end.

Definition read_from (c : Call) : option Path :=
  match c with
  | Copy2 src _ => Some src
  | ImageOpen src => Some src
  | _ => None
  end.

Definition opens_or_closes (c : Call) : bool :=
  match c with
  | ImageOpen _ | ImageClose _ => true
  | _ => false
  end.

(** Whether the image files opened by the calls of [tr] are closed in
    turn: [open] tells whether one is open before [tr]; a file is opened
    only when none is open, closed only when one is, and none is left
    open. *)
Definition is_open_ok (ev : Event) : bool :=
  match ev_call ev, ev_exn ev with
  | ImageOpen _, None => true
  | _, _ => false
  end.

Definition is_close (ev : Event) : bool :=
  match ev_call ev with ImageClose _ => true | _ => false end.

Fixpoint bracketed (open : bool) (tr : list Event) : bool :=
  match tr with
  | [] => negb open
  | ev :: tr' =>
      if is_open_ok ev then negb open && bracketed true tr'
      else if is_close ev then open && bracketed false tr'
      else bracketed open tr'
  end.

(** The files written for [src] in [dest_dir]: the copy of the original
    and the variants. *)
Definition file_targets (src dest_dir : Path) (ext : string) : list Path :=
  (dest_dir /: PurePath.name src)
  :: map (fun tag => dest_dir /: out_name src tag ext) variant_tags.

(** [p] is [root / q] for a relative path [q]: the anchor and the parts of
    [root], followed by the parts of [q].  This is a comparison of pure
    paths, as [pathlib] makes it: no [..] is resolved and no link is
    followed. *)
Definition joined_to (root p : Path) : Prop :=
  exists q, anchor q = "" /\ p = root // q.

(** [m] keeps [I], whether it returns or raises. *)
Definition keeps {A} (I : State -> Prop) (m : M A) : Prop :=
  forall s, I s -> I (m s).2.

(** [I] looks at the trace and at the printed lines only. *)
Definition heap_blind (I : State -> Prop) : Prop :=
  forall s s', trace s = trace s' -> stdout s = stdout s' -> I s -> I s'.

Definition accepts (I : State -> Prop) (ev : Event) : Prop :=
  forall s, I s -> I (log ev s).

Definition accepts_msg (I : State -> Prop) (m : Msg) : Prop :=
  forall s, I s -> I (say m s).

(** [m] makes at most [n] calls that [c] counts, whether it returns or
    raises. *)
Definition atmost {A} (c : Event -> bool) (n : nat) (m : M A) : Prop :=
  forall s, exists new,
    trace (m s).2 = trace s ++ new /\ (length (List.filter c new) <= n)%nat.

(** Since [s0], the calls made satisfy [ok] and the lines printed [said]. *)
Definition emits (ok : Event -> Prop) (said : Msg -> Prop) (s0 s : State) : Prop :=
  exists new out,
    trace s = trace s0 ++ new /\ Forall ok new
    /\ stdout s = stdout s0 ++ out /\ Forall said out.

(** The calls [process_file] may make for [src], and the lines it may
    print. *)
Inductive may_emit (copy_originals : bool) (src dest_dir : Path) : Event -> Prop :=
  | me_mkdir o :
      may_emit copy_originals src dest_dir (mkEvent (Mkdir dest_dir true true) o)
  | me_copy o :
      copy_originals = true ->
      may_emit copy_originals src dest_dir
        (mkEvent (Copy2 src (dest_dir /: PurePath.name src)) o)
  | me_open o :
      may_emit copy_originals src dest_dir (mkEvent (ImageOpen src) o)
  | me_load im o :
      may_emit copy_originals src dest_dir (mkEvent (ImageLoad im) o)
  | me_close im :
      may_emit copy_originals src dest_dir (mkEvent (ImageClose im) None)
  | me_save d o :
      let fmt := save_format (Str.lower (PurePath.suffix src)) in
      may_emit copy_originals src dest_dir
        (mkEvent (ImageSave d fmt (save_options fmt)) o)
  | me_write tag data o :
      tag ∈ variant_tags ->
      may_emit copy_originals src dest_dir
        (mkEvent (WriteBytes
                    (dest_dir /: out_name src tag (Str.lower (PurePath.suffix src)))
                    data) o).

Inductive may_say (copy_originals : bool) (src : Path) : Msg -> Prop :=
  | ms_copy e :
      copy_originals = true -> may_say copy_originals src (MsgCopyFailed src e)
  | ms_skip e : may_say copy_originals src (MsgSkipping src e).

(** The same for a run over the files found below [input_dir]. *)
Definition run_may_emit (env : Env) (input_dir output_dir : Path)
    (copy_originals : bool) (ev : Event) : Prop :=
  exists src rel,
    src ∈ discover env input_dir
    /\ PurePath.relative_to src input_dir = Ok rel
    /\ may_emit copy_originals src (PurePath.parent (output_dir // rel)) ev.

Definition run_may_say (env : Env) (input_dir : Path) (copy_originals : bool)
    (m : Msg) : Prop :=
  exists src, src ∈ discover env input_dir /\ may_say copy_originals src m.

End MayEmit.

(** A shell and arguments for the examples. *)
Module ToyShell.

Definition shell : Shell := {|
  Path_of s := mkPath "" [s];
  expanduser p := Ok p;
  path_exists p := bool_decide (p = Toy.input);
|}.

Definition args (input : string) (no_copy : bool) : Args :=
  mkArgs input None no_copy.

End ToyShell.

(** * Properties *)

(** ** Strings and paths *)

Module StrFacts.
Import Str.

Lemma append_cons a s t : String a s +:+ t = String a (s +:+ t).
Proof. reflexivity. Qed.

Lemma append_nil s : "" +:+ s = s.
Proof. reflexivity. Qed.

Lemma append_assoc s t u : (s +:+ t) +:+ u = s +:+ (t +:+ u).
Proof.
  induction s as [|a s IH]; [reflexivity|].
  rewrite !append_cons. by rewrite IH.
Qed.

Lemma length_append s t :
  String.length (s +:+ t) = (String.length s + String.length t)%nat.
Proof.
  induction s as [|a s IH]; [reflexivity|].
  rewrite append_cons. simpl. by rewrite IH.
Qed.

Lemma rindex_absent c s : mem c s = false -> rindex c s = None.
Proof.
  induction s as [|a s IH]; simpl; [done|].
  intros [Ha Hs]%orb_false_iff. rewrite (IH Hs). by rewrite Ha.
Qed.

Lemma rindex_append c s e :
  mem c e = false -> rindex c (s +:+ String c e) = Some (String.length s).
Proof.
  intros He. induction s as [|a s IH].
  - rewrite append_nil. simpl. rewrite (rindex_absent _ _ He).
    by rewrite bool_decide_eq_true_2.
  - rewrite append_cons. simpl. by rewrite IH.
Qed.

Lemma drop_append s t : drop (String.length s) (s +:+ t) = t.
Proof. induction s as [|a s IH]; [by destruct t|]. by rewrite append_cons. Qed.

Lemma take_append s t : take (String.length s) (s +:+ t) = s.
Proof.
  induction s as [|a s IH]; [by destruct t|].
  rewrite append_cons. simpl. by rewrite IH.
Qed.

Lemma append_nonempty_r s t : t <> "" -> s +:+ t <> "".
Proof. destruct s; [done|]. by rewrite append_cons. Qed.

Lemma lower_ascii_idem c : lower_ascii (lower_ascii c) = lower_ascii c.
Proof. by destruct c as [[] [] [] [] [] [] [] []]. Qed.

Lemma lower_idem s : lower (lower s) = lower s.
Proof.
  induction s as [|c s IH]; [done|]. simpl. by rewrite lower_ascii_idem, IH.
Qed.

Lemma append_nonempty_l s t : s <> "" -> s +:+ t <> "".
Proof. destruct s; [done|]. by rewrite append_cons. Qed.

End StrFacts.

Module PathFacts.
Import PurePath StrFacts.

(** A name made of a non-empty stem, a dot and a dot-free non-empty
    extension splits at that dot. *)
Lemma dot_split s e :
  s <> "" -> e <> "" -> Str.mem "." e = false ->
  name_suffix (s +:+ String "." e) = String "." e
  /\ name_stem (s +:+ String "." e) = s.
Proof.
  intros Hs He Hdot. unfold name_suffix, name_stem, Str.rfind, Str.len.
  rewrite (rindex_append _ s e Hdot), length_append. simpl String.length.
  assert (String.length s <> 0%nat) by (by destruct s).
  assert (String.length e <> 0%nat) by (by destruct e).
  replace ((0 <? Z.of_nat (String.length s))
           && (Z.of_nat (String.length s)
               <? Z.of_nat (String.length s + S (String.length e)) - 1))%Z
    with true by (symmetry; apply andb_true_iff; split; apply Z.ltb_lt; lia).
  rewrite Nat2Z.id. by rewrite drop_append, take_append.
Qed.

Lemma name_join_name d n : n <> "" -> name (d /: n) = n.
Proof.
  intros Hn. unfold join_name, name. rewrite bool_decide_eq_false_2 by done.
  simpl. apply last_last.
Qed.

Lemma parent_join_name d n : n <> "" -> parent (d /: n) = d.
Proof.
  intros Hn. unfold join_name, parent. rewrite bool_decide_eq_false_2 by done.
  simpl. rewrite removelast_last. by destruct d.
Qed.

Lemma strip_prefix_app pre l : strip_prefix pre (pre ++ l) = Some l.
Proof.
  induction pre as [|a pre IH]; simpl; [by destruct l|].
  by rewrite bool_decide_eq_true_2.
Qed.

(** A path built below [base] is relative to it. *)
Lemma relative_to_join base rel :
  anchor rel = "" -> relative_to (base // rel) base = Ok rel.
Proof.
  intros Ha. unfold relative_to, join. rewrite Ha. simpl.
  rewrite bool_decide_eq_true_2 by done. rewrite strip_prefix_app.
  destruct rel; simpl in *; by subst.
Qed.

(** [(o / rel).parent] is [o / rel.parent] when [rel] names something. *)
Lemma parent_join o rel :
  anchor rel = "" -> parts rel <> [] -> parent (o // rel) = o // parent rel.
Proof.
  intros Ha Hp. unfold parent, join. rewrite Ha. simpl.
  by rewrite removelast_app.
Qed.

Lemma join_inj o q1 q2 :
  anchor q1 = "" -> anchor q2 = "" -> o // q1 = o // q2 -> q1 = q2.
Proof.
  destruct q1 as [a1 l1], q2 as [a2 l2]. unfold join. simpl.
  intros -> ->. simpl. by intros [= ->%app_inv_head].
Qed.

End PathFacts.

(** ** The monad and the store *)

Section MonadFacts.
Context {P : Pillow}.

Lemma bind_ok {A B} (m : M A) (k : A -> M B) s a s' :
  m s = (Ok a, s') -> bind m k s = k a s'.
Proof. unfold bind. by intros ->. Qed.

Lemma bind_raise {A B} (m : M A) (k : A -> M B) s e s' :
  m s = (Raise e, s') -> bind m k s = (Raise e, s').
Proof. unfold bind. by intros ->. Qed.

Lemma wp_ret {A} (a : A) (post : A -> State -> Prop) exc s :
  post a s -> wp (ret a) post exc s.
Proof. done. Qed.

Lemma wp_bind {A B} (m : M A) (k : A -> M B) post exc s :
  wp m (fun a s' => wp (k a) post exc s') exc s -> wp (bind m k) post exc s.
Proof. unfold wp, bind. by destruct (m s) as [[a|e] s']. Qed.

Lemma wp_mono {A} (m : M A) (post post' : A -> State -> Prop)
    (exc exc' : Exn -> State -> Prop) s :
  wp m post exc s ->
  (forall a s', post a s' -> post' a s') ->
  (forall e s', exc e s' -> exc' e s') ->
  wp m post' exc' s.
Proof. unfold wp. destruct (m s) as [[a|e] s']; eauto. Qed.

Lemma wp_try {A} (m : M A) h post exc s :
  wp m post (fun e s' => wp (h e) post exc s') s ->
  wp (try_except m h) post exc s.
Proof. unfold wp, try_except. by destruct (m s) as [[a|e] s']. Qed.

(** A [with] block whose exit cannot raise. *)
Lemma wp_with_as {A B} (enter : M A) leave (body : A -> M B) post exc s :
  wp enter
     (fun x s1 =>
        wp (body x)
           (fun b s2 => wp (leave x) (fun _ => post b) exc s2)
           (fun e s2 => wp (leave x) (fun _ => exc e) exc s2) s1)
     exc s ->
  wp (with_as enter leave body) post exc s.
Proof.
  intros H. unfold with_as. apply wp_bind. eapply wp_mono; [exact H| |done].
  intros x s1 Hbody. cbv beta. apply wp_bind, wp_try.
  eapply wp_mono; [exact Hbody| |]; cbv beta.
  - intros b s2 Hleave. apply wp_bind. eapply wp_mono; [exact Hleave| |done].
    by intros [] s3 Hpost.
  - intros e s2 Hleave. apply wp_bind. eapply wp_mono; [exact Hleave| |done].
    by intros [] s3 Hexc.
Qed.

(** A [with] block, run. *)
Lemma with_as_run {A B} (enter : M A) leave (body : A -> M B) s :
  with_as enter leave body s
  = match enter s with
    | (Ok x, s1) =>
        match leave x (body x s1).2 with
        | (Ok _, s3) => ((body x s1).1, s3)
        | (Raise e, s3) => (Raise e, s3)
        end
    | (Raise e, s1) => (Raise e, s1)
    end.
Proof.
  unfold with_as, bind, try_except, lift, ret.
  destruct (enter s) as [[x|e] s1]; [|done].
  destruct (body x s1) as [[b|e] s2]; simpl;
    by destruct (leave x s2) as [[[]|e'] s3].
Qed.

Lemma wp_lift {A} (r : Result A) (post : A -> State -> Prop) exc s :
  match r with Ok a => post a s | Raise e => exc e s end ->
  wp (lift r) post exc s.
Proof. done. Qed.

Lemma wp_get {A} (f : State -> A) (post : A -> State -> Prop) exc s :
  post (f s) s -> wp (get f) post exc s.
Proof. done. Qed.

Lemma wp_outcome r (post : unit -> State -> Prop) exc s :
  match r with None => post tt s | Some e => exc e s end ->
  wp (outcome r) post exc s.
Proof. by destruct r. Qed.

(** A loop keeps an invariant that each of its iterations keeps. *)
Lemma wp_for_each {A} (inv : State -> Prop) exc (l : list A) body s :
  inv s ->
  (forall x s', x ∈ l -> inv s' -> wp (body x) (fun _ => inv) exc s') ->
  wp (for_each l body) (fun _ => inv) exc s.
Proof.
  revert s. induction l as [|x l IH]; intros s Hs Hbody; [done|].
  simpl. apply wp_bind. eapply wp_mono; [apply Hbody; [set_solver|done]| |done].
  intros [] s' Hs'. apply IH; [done|]. intros y s'' Hy. apply Hbody. set_solver.
Qed.

Lemma wp_for_gen {A} (inv : State -> Prop) exc (g : list (M A)) body s :
  inv s ->
  (forall step s', step ∈ g -> inv s' ->
                   wp (bind step body) (fun _ => inv) exc s') ->
  wp (for_gen g body) (fun _ => inv) exc s.
Proof.
  revert s. induction g as [|x g IH]; intros s Hs Hbody; [done|].
  simpl. apply wp_bind. eapply wp_mono; [apply Hbody; [set_solver|done]| |done].
  intros [] s' Hs'. apply IH; [done|]. intros y s'' Hy. apply Hbody. set_solver.
Qed.

Lemma grows_refl s : grows s s.
Proof. exists []. destruct s. unfold set_heap. simpl. by rewrite app_nil_r. Qed.

Lemma grows_trans s1 s2 s3 : grows s1 s2 -> grows s2 s3 -> grows s1 s3.
Proof.
  intros [h1 ->] [h2 ->]. exists (h1 ++ h2). unfold set_heap. simpl.
  by rewrite app_assoc.
Qed.

Lemma grows_lookup s s' (r : ref) d :
  grows s s' -> heap s !! r = Some d -> heap s' !! r = Some d.
Proof. intros [h ->] Hr. simpl. by apply lookup_app_l_Some. Qed.

Lemma grows_fields s s' :
  grows s s' ->
  trace s' = trace s /\ stdout s' = stdout s
  /\ num_originals s' = num_originals s /\ num_augmented s' = num_augmented s.
Proof. by intros [h ->]. Qed.

(** A method computing a new image from [im] allocates its result and
    changes nothing else. *)
Lemma Image_apply_run f (im : ref) d s :
  heap s !! im = Some d ->
  Image_apply f im s =
    match f d with
    | Ok v => (Ok (length (heap s)), set_heap (heap s ++ [v]) s)
    | Raise e => (Raise e, s)
    end.
Proof.
  intros Hd. unfold Image_apply, bind, deref, lift, alloc. rewrite Hd.
  by destruct (f d).
Qed.

Lemma Image_convert_run (im : ref) mode d s :
  heap s !! im = Some d ->
  Image_convert im mode s =
    match pil_convert d mode with
    | Ok v => (Ok (length (heap s)), set_heap (heap s ++ [v]) s)
    | Raise e => (Raise e, s)
    end.
Proof. apply (Image_apply_run (fun d => pil_convert d mode)). Qed.

Lemma Image_mode_run (im : ref) d s :
  heap s !! im = Some d -> Image_mode im s = (Ok (pil_mode d), s).
Proof. intros Hd. unfold Image_mode, bind, deref, ret. by rewrite Hd. Qed.

Lemma Image_size_run (im : ref) d s :
  heap s !! im = Some d -> Image_size im s = (Ok (pil_size d), s).
Proof. intros Hd. unfold Image_size, bind, deref, ret. by rewrite Hd. Qed.

Lemma Image_new_run mode size color s :
  Image_new mode size color s =
    match pil_new mode size color with
    | Ok v => (Ok (length (heap s)), set_heap (heap s ++ [v]) s)
    | Raise e => (Raise e, s)
    end.
Proof. unfold Image_new, bind, lift, alloc. by destruct pil_new. Qed.

Lemma Image_paste_run (base im mask : ref) b d k s :
  heap s !! base = Some b -> heap s !! im = Some d -> heap s !! mask = Some k ->
  Image_paste base im mask s =
    match pil_paste b d k with
    | Ok b' => (Ok tt, set_heap (<[base := b']> (heap s)) s)
    | Raise e => (Raise e, s)
    end.
Proof.
  intros Hb Hd Hk. unfold Image_paste, bind, deref, lift, assign.
  rewrite Hb, Hd, Hk. by destruct pil_paste.
Qed.

Lemma Image_open_unfold env src s :
  Image_open env src s =
    match os_open_image env (trace s) src with
    | Ok d => emit (mkEvent (ImageOpen src) None) >> alloc d
    | Raise e => emit (mkEvent (ImageOpen src) (Some e)) >> lift (Raise e)
    end s.
Proof. reflexivity. Qed.

Lemma set_heap_id s : set_heap (heap s ++ []) s = s.
Proof. destruct s. unfold set_heap. simpl. by rewrite app_nil_r. Qed.

End MonadFacts.

(** ** convert_rgb *)

Section ConvertRgb.
Context {P : Pillow}.

Lemma alpha_mode_elem (m : string) : m ∈ ["RGBA"; "LA"] <-> m = "RGBA" \/ m = "LA".
Proof. rewrite !elem_of_cons, elem_of_nil. tauto. Qed.

(** [convert_rgb] computes [spec_normalize_base] of the value of its
    argument; whatever happens, the store only gains objects. *)
Lemma convert_rgb_run (im : ref) d s r s' :
  heap s !! im = Some d ->
  convert_rgb im white s = (r, s') ->
  exists h,
    s' = set_heap (heap s ++ h) s
    /\ match spec_normalize_base d with
       | Ok d' => exists out, r = Ok out
                              /\ (heap s ++ h) !! out = Some d'
                              /\ (pil_mode d = "RGB" -> out = im /\ h = [])
       | Raise e => r = Raise e
       end.
Proof.
  intros Hd. unfold convert_rgb, spec_normalize_base.
  rewrite (bind_ok _ _ _ _ _ (Image_mode_run im d s Hd)).
  destruct (decide (pil_mode d = "RGB")) as [Hrgb|Hrgb].
  { rewrite !bool_decide_eq_true_2 by done. intros [= <- <-]. exists [].
    rewrite set_heap_id, app_nil_r. split; [done|]. by exists im. }
  rewrite !(bool_decide_eq_false_2 (pil_mode d = "RGB")) by done.
  destruct (decide (pil_mode d = "RGBA" \/ pil_mode d = "LA")) as [Ha|Ha].
  2:{ rewrite (bool_decide_eq_false_2 (pil_mode d ∈ _)) by (by rewrite alpha_mode_elem).
      rewrite (bool_decide_eq_false_2 (_ \/ _)) by done.
      rewrite (Image_convert_run im "RGB" d s Hd).
      destruct (pil_convert d "RGB") as [v|e]; intros [= <- <-].
      - exists [v]. split; [done|]. exists (length (heap s)).
        split; [done|]. split; [by apply list_lookup_middle|done].
      - exists []. by rewrite set_heap_id. }
  rewrite (bool_decide_eq_true_2 (pil_mode d ∈ _)) by (by rewrite alpha_mode_elem).
  rewrite (bool_decide_eq_true_2 (_ \/ _)) by done.
  rewrite (bind_ok _ _ _ _ _ (Image_size_run im d s Hd)).
  unfold bind at 1. rewrite Image_new_run. unfold white.
  destruct (pil_new "RGB" (pil_size d) (255, 255, 255)%Z) as [b0|e]; cbv beta iota delta [rbind].
  2:{ intros [= <- <-]. exists []. by rewrite set_heap_id. }
  set (s1 := set_heap (heap s ++ [b0]) s).
  assert (Hd1 : heap s1 !! im = Some d) by (by apply lookup_app_l_Some).
  unfold bind at 1. rewrite (Image_convert_run im "RGB" d s1 Hd1).
  destruct (pil_convert d "RGB") as [rgb|e]; cbv beta iota delta [rbind].
  2:{ intros [= <- <-]. by exists [b0]. }
  set (s2 := set_heap (heap s1 ++ [rgb]) s1).
  assert (Hd2 : heap s2 !! im = Some d) by (by apply lookup_app_l_Some).
  unfold bind at 1.
  change (Image_getchannel im "A")
    with (Image_apply (fun d => pil_getchannel d "A") im).
  rewrite (Image_apply_run (fun d => pil_getchannel d "A") im d s2 Hd2).
  destruct (pil_getchannel d "A") as [alpha|e]; cbv beta iota delta [rbind].
  2:{ intros [= <- <-]. exists [b0; rgb]. split; [|done].
      unfold s2, s1, set_heap. simpl. by rewrite <- app_assoc. }
  set (s3 := set_heap (heap s2 ++ [alpha]) s2).
  assert (Hh3 : heap s3 = heap s ++ [b0; rgb; alpha]).
  { unfold s3, s2, s1. simpl. by rewrite <- !app_assoc. }
  assert (Hb : heap s3 !! length (heap s) = Some b0).
  { rewrite Hh3. by apply list_lookup_middle. }
  assert (Hr : heap s3 !! length (heap s1) = Some rgb).
  { rewrite Hh3. change (heap s ++ [b0; rgb; alpha])
      with (heap s ++ [b0] ++ rgb :: [alpha]).
    rewrite app_assoc. by apply list_lookup_middle. }
  assert (Hk : heap s3 !! length (heap s2) = Some alpha).
  { unfold s3. simpl. by apply list_lookup_middle. }
  unfold bind at 1. rewrite (Image_paste_run _ _ _ b0 rgb alpha s3 Hb Hr Hk).
  assert (Hs3 : s3 = set_heap (heap s ++ [b0; rgb; alpha]) s).
  { unfold s3, s2, s1, set_heap. simpl. by rewrite <- !app_assoc. }
  destruct (pil_paste b0 rgb alpha) as [b'|e]; cbv beta iota delta [rbind].
  2:{ intros [= <- <-]. by exists [b0; rgb; alpha]. }
  assert (Hins : <[length (heap s) := b']> (heap s3) = heap s ++ [b'; rgb; alpha]).
  { rewrite Hh3, insert_app_r_alt by lia. by rewrite Nat.sub_diag. }
  rewrite Hins. unfold bind, ret. intros [= <- <-]. exists [b'; rgb; alpha].
  split; [by rewrite Hs3|]. exists (length (heap s)).
  split; [done|]. split; [by apply list_lookup_middle|done].
Qed.

End ConvertRgb.

(** ** Store-only operations *)

Section StoreOps.
Context {P : Pillow}.

Lemma Stable_and (Q1 Q2 : State -> Prop) :
  Stable Q1 -> Stable Q2 -> Stable (fun s => Q1 s /\ Q2 s).
Proof. intros H1 H2 s s' Hg [? ?]. split; eauto. Qed.

Lemma Stable_lookup (r : ref) d : Stable (fun s => heap s !! r = Some d).
Proof. intros s s' Hg. by apply grows_lookup. Qed.

Lemma grows_alloc s v : grows s (set_heap (heap s ++ [v]) s).
Proof. by exists [v]. Qed.

Lemma wp_Image_apply (Q : State -> Prop) f (r : ref) d s :
  Stable Q -> heap s !! r = Some d -> Q s ->
  wp (Image_apply f r)
     (fun r' s' => exists v, f d = Ok v /\ heap s' !! r' = Some v /\ Q s')
     (fun e s' => f d = Raise e /\ Q s') s.
Proof.
  intros HQ Hd Hs. unfold wp. rewrite (Image_apply_run f r d s Hd).
  destruct (f d) as [v|e]; [|done]. exists v. split; [done|].
  split; [by apply list_lookup_middle|]. eapply HQ; [apply grows_alloc|done].
Qed.

Lemma jpeg_ext_elem (ext : string) :
  ext ∈ [".jpg"; ".jpeg"] <-> ext = ".jpg" \/ ext = ".jpeg".
Proof. rewrite !elem_of_cons, elem_of_nil. tauto. Qed.

Lemma jpeg_mode_elem (m : string) : m ∈ ["RGB"; "L"] <-> m = "RGB" \/ m = "L".
Proof. rewrite !elem_of_cons, elem_of_nil. tauto. Qed.

(** [guarantee_rgb_for_jpeg] converts exactly when the extension is one of
    the two JPEG ones and the mode is neither RGB nor L. *)
Lemma guarantee_rgb_for_jpeg_run (im : ref) d ext s :
  heap s !! im = Some d ->
  guarantee_rgb_for_jpeg im ext s =
    if bool_decide ((ext = ".jpg" \/ ext = ".jpeg")
                    /\ pil_mode d <> "RGB" /\ pil_mode d <> "L")
    then Image_convert im "RGB" s
    else (Ok im, s).
Proof.
  intros Hd. unfold guarantee_rgb_for_jpeg.
  destruct (decide (ext = ".jpg" \/ ext = ".jpeg")) as [He|He].
  - rewrite (bool_decide_eq_true_2 (ext ∈ _)) by (by rewrite jpeg_ext_elem).
    rewrite (bind_ok _ _ _ _ _ (Image_mode_run im d s Hd)).
    destruct (decide (pil_mode d = "RGB" \/ pil_mode d = "L")) as [Hm|Hm].
    + rewrite (bool_decide_eq_true_2 (pil_mode d ∈ _)) by (by rewrite jpeg_mode_elem).
      rewrite bool_decide_eq_false_2 by tauto. done.
    + rewrite (bool_decide_eq_false_2 (pil_mode d ∈ _)) by (by rewrite jpeg_mode_elem).
      rewrite bool_decide_eq_true_2 by tauto. done.
  - rewrite (bool_decide_eq_false_2 (ext ∈ _)) by (by rewrite jpeg_ext_elem).
    rewrite bool_decide_eq_false_2 by tauto. done.
Qed.

Lemma wp_guarantee (Q : State -> Prop) (r : ref) v ext s :
  Stable Q -> heap s !! r = Some v -> Q s ->
  wp (guarantee_rgb_for_jpeg r ext)
     (fun r' s' => exists d, spec_enforce_jpeg_safety v ext = Ok d
                             /\ heap s' !! r' = Some d /\ Q s')
     (fun e s' => spec_enforce_jpeg_safety v ext = Raise e /\ Q s') s.
Proof.
  intros HQ Hv Hs. unfold wp, spec_enforce_jpeg_safety.
  rewrite (guarantee_rgb_for_jpeg_run r v ext s Hv).
  destruct (bool_decide _); [|by exists v].
  rewrite (Image_convert_run r "RGB" v s Hv).
  destruct (pil_convert v "RGB") as [d|e]; [|done]. exists d. split; [done|].
  split; [by apply list_lookup_middle|]. eapply HQ; [apply grows_alloc|done].
Qed.

Lemma wp_convert_rgb (Q : State -> Prop) (im : ref) d s :
  Stable Q -> heap s !! im = Some d -> Q s ->
  wp (convert_rgb im white)
     (fun out s' => exists b, spec_normalize_base d = Ok b
                              /\ heap s' !! out = Some b /\ Q s')
     (fun e s' => spec_normalize_base d = Raise e /\ Q s') s.
Proof.
  intros HQ Hd Hs. unfold wp.
  destruct (convert_rgb im white s) as [r s'] eqn:Hrun.
  destruct (convert_rgb_run im d s r s' Hd Hrun) as (h & -> & Hspec).
  assert (Q (set_heap (heap s ++ h) s)) by (eapply HQ; [by exists h|done]).
  destruct (spec_normalize_base d) as [b|e].
  - destruct Hspec as (out & -> & Hout & _). by exists b.
  - by subst r.
Qed.

(** Every step of the generator is an entry of the specification's
    table, applied to the base image. *)
Lemma spec_variants_steps (base : ref) step :
  step ∈ augmentations base ->
  exists name f, (name, f) ∈ spec_variants
                 /\ step = yield name (Image_apply f base).
Proof.
  unfold augmentations, spec_variants. rewrite !elem_of_cons, elem_of_nil.
  intros H. repeat (destruct H as [->|H]; [eexists _, _; split; [|reflexivity];
    rewrite !elem_of_cons; tauto|]). done.
Qed.

End StoreOps.

(** ** Processing one file *)

Section FileRun.
Context {P : Pillow}.
Variable env : Env.

Lemma wp_emit ev (post : unit -> State -> Prop) exc s :
  post tt (log ev s) -> wp (emit ev) post exc s.
Proof. done. Qed.

Lemma wp_print m (post : unit -> State -> Prop) exc s :
  match os_print env (trace s) (stdout s) m with
  | None => post tt (say m s)
  | Some e => exc e s
  end ->
  wp (print env m) post exc s.
Proof. unfold wp, print. by destruct (os_print env (trace s) (stdout s) m). Qed.

Lemma print_run m s :
  print env m s
  = match os_print env (trace s) (stdout s) m with
    | None => (Ok tt, say m s)
    | Some e => (Raise e, s)
    end.
Proof. reflexivity. Qed.

Lemma wp_deref (r : ref) d (post : img -> State -> Prop) exc s :
  heap s !! r = Some d -> post d s -> wp (deref r) post exc s.
Proof. intros Hd Hp. unfold wp, deref. by rewrite Hd. Qed.

Lemma writes_ok_snoc (tr : list Event) ev :
  writes_ok (tr ++ [ev])
  = (writes_ok tr + if is_write ev && succeeded ev then 1 else 0)%nat.
Proof.
  unfold writes_ok. rewrite List.filter_app, length_app. simpl.
  by destruct (is_write ev && succeeded ev).
Qed.

Lemma copies_ok_snoc (tr : list Event) ev :
  copies_ok (tr ++ [ev])
  = (copies_ok tr + if is_copy ev && succeeded ev then 1 else 0)%nat.
Proof.
  unfold copies_ok. rewrite List.filter_app, length_app. simpl.
  by destruct (is_copy ev && succeeded ev).
Qed.

Lemma writes_ok_app (t1 t2 : list Event) :
  writes_ok (t1 ++ t2) = (writes_ok t1 + writes_ok t2)%nat.
Proof. unfold writes_ok. by rewrite List.filter_app, length_app. Qed.

Lemma copies_ok_app (t1 t2 : list Event) :
  copies_ok (t1 ++ t2) = (copies_ok t1 + copies_ok t2)%nat.
Proof. unfold copies_ok. by rewrite List.filter_app, length_app. Qed.

Section Progress.
Variables (src dest_dir : Path) (s0 : State).

Let progress := file_progress env src dest_dir s0.

Lemma progress_refl : progress s0.
Proof.
  exists [], []. rewrite !app_nil_r. unfold writes_ok, copies_ok. simpl.
  repeat split; auto with lia.
Qed.

Lemma progress_stable : Stable progress.
Proof.
  intros s s' (Ht & Ho & Hn & Hk)%grows_fields (new & out & H).
  exists new, out. by rewrite Ht, Ho, Hn, Hk.
Qed.

(** An event that counts for neither counter. *)
Lemma progress_log s ev :
  progress s -> file_event env src dest_dir ev ->
  is_write ev && succeeded ev = false ->
  is_copy ev && succeeded ev = false ->
  progress (log ev s).
Proof.
  intros (new & out & Ht & Hev & Hk & Hn & Ho & Hout) Hfe Hw Hc.
  exists (new ++ [ev]), out. simpl.
  rewrite Ht, writes_ok_snoc, copies_ok_snoc, Hw, Hc, <- app_assoc.
  repeat split; auto with lia. apply Forall_app. by split; [|constructor].
Qed.

Lemma progress_written s ev :
  progress s -> file_event env src dest_dir ev ->
  is_write ev = true -> succeeded ev = true ->
  progress (set_counters (num_originals s) (num_augmented s + 1) (log ev s)).
Proof.
  intros (new & out & Ht & Hev & Hk & Hn & Ho & Hout) Hfe Hw Hok.
  exists (new ++ [ev]), out. simpl.
  assert (is_copy ev = false) as Hc by (destruct ev as [[] ?]; done).
  rewrite Ht, writes_ok_snoc, copies_ok_snoc, Hw, Hok, Hc, <- app_assoc.
  simpl. repeat split; auto with lia. apply Forall_app. by split; [|constructor].
Qed.

Lemma progress_copied s ev :
  progress s -> file_event env src dest_dir ev ->
  is_copy ev = true -> succeeded ev = true ->
  progress (set_counters (num_originals s + 1) (num_augmented s) (log ev s)).
Proof.
  intros (new & out & Ht & Hev & Hk & Hn & Ho & Hout) Hfe Hw Hok.
  exists (new ++ [ev]), out. simpl.
  assert (is_write ev = false) as Hc by (destruct ev as [[] ?]; done).
  rewrite Ht, writes_ok_snoc, copies_ok_snoc, Hw, Hok, Hc, <- app_assoc.
  simpl. repeat split; auto with lia. apply Forall_app. by split; [|constructor].
Qed.

Lemma progress_say s m :
  progress s -> file_msg src m -> progress (say m s).
Proof.
  intros (new & out & Ht & Hev & Hk & Hn & Ho & Hout) Hm.
  exists new, (out ++ [m]). simpl. rewrite Ho, <- app_assoc.
  repeat split; auto. apply Forall_app. by split; [|constructor].
Qed.

End Progress.

(** *** The loop over the variants *)

Section Variants.
Variables (src dest_dir : Path) (s0 : State).
Variables (tr0 : list Event) (d0 b : img) (base : ref).
Hypothesis Hopen : os_open_image env tr0 src = Ok d0.
Hypothesis Hbase : spec_normalize_base d0 = Ok b.

Let ext := Str.lower (PurePath.suffix src).

Let loop_inv := loop_inv env src dest_dir s0 b base.

Lemma loop_inv_stable : Stable loop_inv.
Proof. apply Stable_and; [apply Stable_lookup|apply progress_stable]. Qed.

Lemma wp_save_image (r : ref) d s :
  heap s !! r = Some d ->
  (forall o, file_event env src dest_dir
               (mkEvent (ImageSave d (save_format ext)
                                   (save_options (save_format ext))) o)) ->
  loop_inv s ->
  wp (save_image r ext) (fun _ => loop_inv) (fun _ => loop_inv) s.
Proof.
  intros Hd Hev [Hb Hp]. unfold save_image, Image_save.
  apply wp_bind, (wp_deref r d); [done|].
  destruct (pil_save d _ _) as [data|e]; apply wp_bind, wp_emit.
  - apply wp_ret. split; [done|]. by apply progress_log.
  - apply wp_lift. split; [done|]. by apply progress_log.
Qed.

Lemma wp_write_variant_file name data s :
  name ∈ variant_tags ->
  loop_inv s ->
  wp (Path_write_bytes env (dest_dir /: out_name src name ext) data
      >> incr_augmented)
     (fun _ => loop_inv) (fun _ => loop_inv) s.
Proof.
  intros Hname [Hb Hp]. apply wp_bind. unfold Path_write_bytes.
  apply wp_bind, wp_get, wp_bind, wp_emit.
  destruct (os_write_bytes env (trace s) _ data) as [e|] eqn:Hw; apply wp_outcome.
  - split; [done|]. apply progress_log; [done|by constructor|done|done].
  - split; [done|]. by apply (progress_written src dest_dir s0 s
                                 (mkEvent (WriteBytes _ data) None));
      [|constructor| |].
Qed.

(** One step of the generator followed by the loop body. *)
Lemma wp_variant name f s :
  (name, f) ∈ spec_variants ->
  loop_inv s ->
  wp (bind (yield name (Image_apply f base)) (write_variant env src dest_dir ext))
     (fun _ => loop_inv) (fun _ => loop_inv) s.
Proof.
  intros Hin Hinv. apply wp_bind. unfold yield. apply wp_bind.
  eapply wp_mono;
    [apply (wp_Image_apply loop_inv f base b s loop_inv_stable (proj1 Hinv) Hinv)
    | |by intros e s' [_ ?]].
  intros r s1 (v & Hf & Hr & Hinv1). apply wp_ret.
  unfold write_variant. simpl fst. simpl snd. apply wp_bind.
  eapply wp_mono;
    [apply (wp_guarantee loop_inv r v ext s1 loop_inv_stable Hr Hinv1)
    | |by intros e s' [_ ?]].
  intros r' s2 (d & Hg & Hr' & Hinv2). apply wp_bind.
  eapply wp_mono; [apply (wp_save_image r' d s2 Hr')| |done]; [|done|].
  { intros o. by apply (fe_save env src dest_dir tr0 d0 b name f v d o). }
  intros data s3 Hinv3. apply wp_write_variant_file; [|done].
  assert (Hmap : name ∈ map fst spec_variants).
  { apply list_elem_of_fmap. by exists (name, f). }
  exact Hmap.
Qed.

Lemma wp_variants s :
  loop_inv s ->
  wp (for_gen (augmentations base) (write_variant env src dest_dir ext))
     (fun _ => loop_inv) (fun _ => loop_inv) s.
Proof.
  intros Hinv. apply wp_for_gen; [done|].
  intros step s' (name & f & Hin & ->)%spec_variants_steps Hinv'.
  by apply wp_variant.
Qed.

End Variants.

(** *** The two guarded blocks and the loop body *)

Section Blocks.
Variables (src dest_dir : Path) (s0 : State).

Let progress := file_progress env src dest_dir s0.

(** The body of the second [try], whether it returns or raises. *)
Lemma wp_augment_body s :
  progress s ->
  wp (augment_file env src dest_dir) (fun _ => progress) (fun _ => progress) s.
Proof.
  intros Hp. unfold augment_file. apply wp_with_as.
  unfold wp at 1. rewrite Image_open_unfold.
  destruct (os_open_image env (trace s) src) as [d0|e] eqn:Hopen;
    cbv beta iota delta [bind emit lift alloc].
  2:{ apply progress_log; [done|constructor|done|done]. }
  assert (Hp1 : progress (log (mkEvent (ImageOpen src) None) s))
    by (apply progress_log; [done|constructor|done|done]).
  set (s1 := set_heap (heap s ++ [d0]) (log (mkEvent (ImageOpen src) None) s)).
  change (set_heap _ _) with s1.
  change (length (heap (log (mkEvent (ImageOpen src) None) s)))
    with (length (heap s)).
  assert (Him : heap s1 !! length (heap s) = Some d0)
    by (by apply list_lookup_middle).
  assert (Hp2 : progress s1).
  { eapply progress_stable; [|exact Hp1].
    apply (grows_alloc (log (mkEvent (ImageOpen src) None) s) d0). }
  assert (Hexit : forall s2, progress s2 ->
            wp (Image_exit (length (heap s))) (fun _ => progress)
               (fun _ => progress) s2).
  { intros s2 Hs2. apply wp_emit, progress_log; [done|constructor|done|done]. }
  eapply wp_mono with (post := fun _ => progress) (exc := fun _ => progress);
    [|by intros; apply Hexit|by intros; apply Hexit].
  apply wp_bind. unfold Image_load. apply wp_bind, wp_get, wp_bind, wp_emit.
  assert (Hp3 : forall o, progress (log (mkEvent (ImageLoad (length (heap s))) o) s1))
    by (intros o; apply progress_log; [done|constructor|done|done]).
  destruct (os_load_image env (trace s1) _) as [e|]; apply wp_outcome; [done|].
  apply wp_bind.
  eapply wp_mono;
    [apply (wp_convert_rgb progress (length (heap s)) d0
              (log (mkEvent (ImageLoad (length (heap s))) None) s1)
              (progress_stable src dest_dir s0) Him (Hp3 None))
    | |by intros e s' [_ ?]].
  intros base s2 (b & Hb & Hbase & Hp4).
  eapply wp_mono;
    [apply (wp_variants src dest_dir s0 (trace s) d0 b base Hopen Hb s2)
    |by intros _ s' [_ ?]|by intros _ s' [_ ?]].
  by split.
Qed.

(** A diagnostic about the file could not be printed in [s']. *)
Let unreported (e : Exn) (s' : State) : Prop :=
  progress s'
  /\ exists m, file_msg src m /\ os_print env (trace s') (stdout s') m = Some e.

(** A diagnostic is printed, or its [print] raises. *)
Lemma wp_report m s :
  progress s -> file_msg src m ->
  wp (print env m) (fun _ => progress) unreported s.
Proof.
  intros Hp Hm. apply wp_print.
  destruct (os_print env (trace s) (stdout s) m) as [e|] eqn:Hpr.
  - split; [done|]. by exists m.
  - by apply progress_say.
Qed.

(** The second [try]: whatever happens inside, it ends normally if the
    diagnostic can be printed. *)
Lemma wp_augment_file s :
  progress s ->
  wp (try_except (augment_file env src dest_dir)
                 (fun e => print env (MsgSkipping src e)))
     (fun _ => progress) unreported s.
Proof.
  intros Hp. apply wp_try.
  eapply wp_mono; [by apply wp_augment_body|done|].
  intros e s' Hs'. apply wp_report; [done|]. exists e. by right.
Qed.

(** The first [try]: a failed copy is reported and nothing else. *)
Lemma wp_copy_original s :
  progress s ->
  wp (copy_original env src dest_dir) (fun _ => progress) unreported s.
Proof.
  intros Hp. unfold copy_original. apply wp_try, wp_bind.
  unfold shutil_copy2. apply wp_bind, wp_get, wp_bind, wp_emit.
  destruct (os_copy2 env (trace s) src _) as [e|] eqn:Hc; apply wp_outcome.
  - apply wp_report; [|exists e; by left].
    apply progress_log; [done|constructor|done|done].
  - by apply (progress_copied src dest_dir s0 s (mkEvent (Copy2 src _) None));
      [|constructor| |].
Qed.

End Blocks.

(** The body of the loop over the files: it ends normally unless the
    destination directory cannot be prepared or a diagnostic cannot be
    printed. *)
Lemma wp_process_file input_dir output_dir copy_originals src s :
  wp (process_file env input_dir output_dir copy_originals src)
     (fun _ s' => file_done env input_dir output_dir src s s')
     (fun e s' => prepare_failed env input_dir output_dir src e s s'
                  \/ report_failed env input_dir output_dir src e s s') s.
Proof.
  unfold process_file. apply wp_bind, wp_lift.
  destruct (PurePath.relative_to src input_dir) as [rel|e] eqn:Hrel;
    [|left; by left].
  set (dest_dir := PurePath.parent (output_dir // rel)).
  apply wp_bind. unfold Path_mkdir. apply wp_bind, wp_get, wp_bind, wp_emit.
  destruct (os_mkdir env (trace s) dest_dir) as [e|] eqn:Hmk; apply wp_outcome.
  { left. right. by exists rel. }
  set (s1 := log _ s).
  assert (Hpost : forall s', file_progress env src dest_dir s1 s' ->
            file_done env input_dir output_dir src s s') by (intros; by exists rel).
  assert (Hexc : forall e s',
            file_progress env src dest_dir s1 s'
            /\ (exists m, file_msg src m
                          /\ os_print env (trace s') (stdout s') m = Some e) ->
            prepare_failed env input_dir output_dir src e s s'
            \/ report_failed env input_dir output_dir src e s s').
  { intros e s' (Hp & m & Hm & Hpr). right. by exists rel, m. }
  apply wp_bind.
  eapply wp_mono with (post := fun _ => file_progress env src dest_dir s1);
    [| |exact Hexc].
  - destruct copy_originals; [apply wp_copy_original|apply wp_ret];
      apply progress_refl.
  - intros _ s2 Hp2. cbv beta.
    eapply wp_mono; [by apply wp_augment_file| |exact Hexc].
    intros [] s3. apply Hpost.
Qed.

End FileRun.

(** ** The augmentation generator *)

Section Augmentations.
Context {P : Pillow}.

Lemma yield_run name (m : M ref) s :
  yield name m s =
    match m s with
    | (Ok v, s') => (Ok (name, v), s')
    | (Raise e, s') => (Raise e, s')
    end.
Proof. unfold yield, bind, ret. by destruct (m s) as [[v|e] s']. Qed.

(** The generator is the specification's table, every entry applied to
    the one base image. *)
Lemma augmentations_table (base : ref) :
  augmentations base
  = map (fun nf => yield nf.1 (Image_apply nf.2 base)) spec_variants.
Proof. reflexivity. Qed.

Lemma step_run name f (base : ref) d s :
  heap s !! base = Some d ->
  yield name (Image_apply f base) s =
    match f d with
    | Ok v => (Ok (name, length (heap s)), set_heap (heap s ++ [v]) s)
    | Raise e => (Raise e, s)
    end.
Proof.
  intros Hd. rewrite yield_run, (Image_apply_run f base d s Hd).
  by destruct (f d).
Qed.

Lemma collect_table (tbl : list (string * (img -> Result img))) (base : ref) d vs :
  Forall2 (fun nf v => nf.2 d = Ok v) tbl vs ->
  forall s, heap s !! base = Some d ->
  collect (map (fun nf => yield nf.1 (Image_apply nf.2 base)) tbl) s
  = (Ok (zip (map fst tbl) (seq (length (heap s)) (length tbl))),
     set_heap (heap s ++ vs) s).
Proof.
  induction 1 as [|[name f] v tbl vs Hf Hrest IH]; intros s Hd.
  - simpl. unfold ret. by rewrite set_heap_id.
  - simpl in *. unfold bind at 1. rewrite (step_run name f base d s Hd), Hf.
    unfold bind at 1. rewrite IH by (by apply lookup_app_l_Some).
    unfold ret. simpl. rewrite length_app, Nat.add_1_r, <- app_assoc. done.
Qed.

End Augmentations.

(** ** The whole run *)

Section Run.
Context {P : Pillow}.
Variable env : Env.

Lemma for_each_ok {A} (body : A -> M unit) x l s s' :
  body x s = (Ok tt, s') -> for_each (x :: l) body s = for_each l body s'.
Proof. intros H. simpl. by rewrite (bind_ok _ _ _ _ _ H). Qed.

Lemma for_each_raise {A} (body : A -> M unit) x l s e s' :
  body x s = (Raise e, s') -> for_each (x :: l) body s = (Raise e, s').
Proof. intros H. simpl. by rewrite (bind_raise _ _ _ _ _ H). Qed.

Lemma for_each_app {A} (body : A -> M unit) l1 l2 s s' :
  for_each l1 body s = (Ok tt, s') ->
  for_each (l1 ++ l2) body s = for_each l2 body s'.
Proof.
  revert s. induction l1 as [|x l1 IH]; intros s; simpl.
  - unfold ret. by intros [= ->].
  - destruct (body x s) as [[[]|e] s1] eqn:Hx.
    + rewrite !(bind_ok _ _ _ _ _ Hx). apply IH.
    + by rewrite !(bind_raise _ _ _ _ _ Hx).
Qed.

(** After a step that raises, no later step of the generator runs. *)
Lemma for_gen_stop {A} (body : A -> M unit) g1 step g2 s s1 e s2 :
  for_gen g1 body s = (Ok tt, s1) ->
  bind step body s1 = (Raise e, s2) ->
  for_gen (g1 ++ step :: g2) body s = (Raise e, s2).
Proof.
  revert s. induction g1 as [|x g1 IH]; intros s; simpl.
  - unfold ret. intros [= ->] H. by rewrite (bind_raise _ _ _ _ _ H).
  - destruct (bind x body s) as [[[]|e'] s'] eqn:Hx.
    + rewrite !(bind_ok _ _ _ _ _ Hx). apply IH.
    + by rewrite !(bind_raise _ _ _ _ _ Hx).
Qed.

(** *** The calls to the operating system, run *)

Lemma Path_mkdir_run p a b s :
  Path_mkdir env p a b s
  = (match os_mkdir env (trace s) p with None => Ok tt | Some e => Raise e end,
     log (mkEvent (Mkdir p a b) (os_mkdir env (trace s) p)) s).
Proof.
  unfold Path_mkdir, bind, get, emit. by destruct (os_mkdir env (trace s) p).
Qed.

Lemma Image_load_run (im : ref) s :
  Image_load env im s
  = (match os_load_image env (trace s) im with None => Ok tt | Some e => Raise e end,
     log (mkEvent (ImageLoad im) (os_load_image env (trace s) im)) s).
Proof.
  unfold Image_load, bind, get, emit. by destruct (os_load_image env (trace s) im).
Qed.

Lemma shutil_copy2_run src dst s :
  shutil_copy2 env src dst s
  = (match os_copy2 env (trace s) src dst with None => Ok tt | Some e => Raise e end,
     log (mkEvent (Copy2 src dst) (os_copy2 env (trace s) src dst)) s).
Proof.
  unfold shutil_copy2, bind, get, emit. by destruct (os_copy2 env (trace s) src dst).
Qed.

Lemma copy_original_failed src dest_dir s e :
  os_copy2 env (trace s) src (dest_dir /: PurePath.name src) = Some e ->
  copy_original env src dest_dir s
  = print env (MsgCopyFailed src e)
      (log (mkEvent (Copy2 src (dest_dir /: PurePath.name src)) (Some e)) s).
Proof.
  intros Hc. unfold copy_original, try_except.
  assert (Hm : (shutil_copy2 env src (dest_dir /: PurePath.name src)
                >> incr_originals) s
               = (Raise e, log (mkEvent (Copy2 src (dest_dir /: PurePath.name src))
                                        (Some e)) s)).
  { apply bind_raise. by rewrite shutil_copy2_run, Hc. }
  by rewrite Hm.
Qed.

(** The body of the loop over the files, once the directory is there. *)
Lemma process_file_prepared input_dir output_dir copy_originals src rel s :
  PurePath.relative_to src input_dir = Ok rel ->
  os_mkdir env (trace s) (PurePath.parent (output_dir // rel)) = None ->
  let dest_dir := PurePath.parent (output_dir // rel) in
  process_file env input_dir output_dir copy_originals src s
  = ((if copy_originals then copy_original env src dest_dir else ret tt)
     >> try_except (augment_file env src dest_dir)
                   (fun e => print env (MsgSkipping src e)))
      (log (mkEvent (Mkdir dest_dir true true) None) s).
Proof.
  intros Hrel Hmk dest_dir. unfold process_file. rewrite Hrel.
  change (bind (lift (Ok rel)) ?k) with (k rel). cbv beta. fold dest_dir.
  rewrite (bind_ok _ _ s tt (log (mkEvent (Mkdir dest_dir true true) None) s));
    [done|].
  rewrite Path_mkdir_run. unfold dest_dir. by rewrite Hmk.
Qed.

Lemma process_file_unprepared input_dir output_dir copy_originals src rel s e :
  PurePath.relative_to src input_dir = Ok rel ->
  os_mkdir env (trace s) (PurePath.parent (output_dir // rel)) = Some e ->
  process_file env input_dir output_dir copy_originals src s
  = (Raise e,
     log (mkEvent (Mkdir (PurePath.parent (output_dir // rel)) true true) (Some e)) s).
Proof.
  intros Hrel Hmk. unfold process_file. rewrite Hrel.
  change (bind (lift (Ok rel)) ?k) with (k rel). cbv beta.
  apply bind_raise. by rewrite Path_mkdir_run, Hmk.
Qed.

Lemma process_file_shape input_dir output_dir copy_originals src s r s' :
  process_file env input_dir output_dir copy_originals src s = (r, s') ->
  (r = Ok tt /\ file_done env input_dir output_dir src s s')
  \/ (exists e, r = Raise e
                /\ (prepare_failed env input_dir output_dir src e s s'
                    \/ report_failed env input_dir output_dir src e s s')).
Proof.
  intros H. pose proof (wp_process_file env input_dir output_dir copy_originals src s) as Hwp.
  unfold wp in Hwp. rewrite H in Hwp. destruct r as [[]|e]; [by left|right; by exists e].
Qed.

Lemma run_progress_refl s : run_progress s s.
Proof. exists []. rewrite app_nil_r. unfold writes_ok, copies_ok. simpl. auto with lia. Qed.

Lemma run_progress_log s0 s ev :
  run_progress s0 s -> succeeded ev = false \/ target (ev_call ev) = None ->
  run_progress s0 (log ev s).
Proof.
  intros (new & Ht & Hk & Hn) Hev. exists (new ++ [ev]). simpl.
  rewrite Ht, writes_ok_snoc, copies_ok_snoc, <- app_assoc.
  assert (is_write ev && succeeded ev = false) as ->.
  { destruct Hev as [->|Hev]; [apply andb_false_r|]. by destruct ev as [[] ?]. }
  assert (is_copy ev && succeeded ev = false) as ->.
  { destruct Hev as [->|Hev]; [apply andb_false_r|]. by destruct ev as [[] ?]. }
  auto with lia.
Qed.

Lemma run_progress_file s0 s s1 s' src dest_dir :
  run_progress s0 s ->
  trace s1 = trace s ++ [mkEvent (Mkdir dest_dir true true) None] ->
  num_augmented s1 = num_augmented s -> num_originals s1 = num_originals s ->
  file_progress env src dest_dir s1 s' ->
  run_progress s0 s'.
Proof.
  intros (new & Ht & Hk & Hn) Ht1 Hk1 Hn1 (newf & out & Htf & _ & Hkf & Hnf & _).
  exists (new ++ mkEvent (Mkdir dest_dir true true) None :: newf).
  rewrite Htf, Ht1, Ht, Hkf, Hnf, Hk1, Hn1, Hk, Hn, <- !app_assoc.
  rewrite writes_ok_app, copies_ok_app.
  change (writes_ok (_ :: newf)) with (writes_ok newf).
  change (copies_ok (_ :: newf)) with (copies_ok newf).
  simpl. auto with lia.
Qed.

Lemma run_progress_say s0 s m : run_progress s0 s -> run_progress s0 (say m s).
Proof. by intros (new & Ht & Hk & Hn); exists new. Qed.

(** The loop over the files keeps the counters in step with the trace; it
    is left early only when a destination directory cannot be prepared or
    a diagnostic cannot be printed. *)
Lemma wp_files input_dir output_dir copy_originals images s0 s :
  run_progress s0 s ->
  wp (for_each images (process_file env input_dir output_dir copy_originals))
     (fun _ => run_progress s0)
     (fun e s' => run_progress s0 s'
                  /\ exists src s1, src ∈ images
                       /\ (prepare_failed env input_dir output_dir src e s1 s'
                           \/ report_failed env input_dir output_dir src e s1 s')) s.
Proof.
  intros Hs. apply wp_for_each; [done|]. intros src s1 Hin Hs1.
  eapply wp_mono; [apply wp_process_file| |]; cbv beta.
  - intros [] s2 (rel & Hrel & Hmk & Hfp).
    by eapply run_progress_file; [done| | | |exact Hfp].
  - intros e s2 Hfail. split; [|by exists src, s1].
    destruct Hfail as [[[_ ->]|(rel & _ & _ & ->)]|(rel & m & _ & _ & Hfp & _)];
      [done| |].
    + apply run_progress_log; [done|by left].
    + by eapply run_progress_file; [done| | | |exact Hfp].
Qed.

Lemma wp_process_dataset input_dir output_dir copy_originals s :
  wp (process_dataset env input_dir output_dir copy_originals)
     (fun v s' =>
        (discover env input_dir = [] /\ v = 1%Z
         /\ os_print env (trace s) (stdout s)
              (MsgNoImages input_dir recognize_formats) = None
         /\ s' = say (MsgNoImages input_dir recognize_formats) s)
        \/ (discover env input_dir <> [] /\ v = 0%Z
            /\ exists sL, run_progress (set_counters 0 0 s) sL
                 /\ s' = say (MsgData (num_originals sL) (num_augmented sL))
                             (say (MsgCompleted output_dir) sL)))
     (fun e s' =>
        (discover env input_dir = []
         /\ os_print env (trace s) (stdout s)
              (MsgNoImages input_dir recognize_formats) = Some e
         /\ s' = s)
        \/ (discover env input_dir <> []
            /\ run_progress (set_counters 0 0 s) s'
            /\ ((exists src s1, src ∈ discover env input_dir
                   /\ (prepare_failed env input_dir output_dir src e s1 s'
                       \/ report_failed env input_dir output_dir src e s1 s'))
                \/ summary_failed env output_dir e s'))) s.
Proof.
  unfold process_dataset. destruct (discover env input_dir) as [|x l] eqn:Himg.
  { apply wp_bind, wp_print.
    destruct (os_print env _ _ _) as [e|] eqn:Hpr; [by left|].
    apply wp_ret. by left. }
  apply wp_bind. unfold wp at 1, init_counters. apply wp_bind.
  eapply wp_mono; [apply (wp_files _ _ _ _ (set_counters 0 0 s)), run_progress_refl| |].
  - intros [] sL HL. cbv beta. apply wp_bind, wp_print.
    destruct (os_print env (trace sL) (stdout sL) (MsgCompleted output_dir))
      as [e|] eqn:Hc.
    { right. split; [done|]. split; [done|]. right. by left. }
    apply wp_bind, wp_get, wp_bind, wp_get. apply wp_bind, wp_print.
    destruct (os_print env _ _ (MsgData _ _)) as [e|] eqn:Hd.
    { right. split; [done|]. split; [by apply run_progress_say|]. right. right.
      by exists sL. }
    apply wp_ret. right. split; [done|]. split; [done|]. by exists sL.
  - intros e s' [Hp Hfail]. right. split; [done|]. split; [done|]. by left.
Qed.

End Run.

(** ** Two runs side by side *)

Section Sim.
Context {P : Pillow}.
Variables output1 output2 : Path.
Variables env1 env2 : Env.
Hypothesis Henv : env_rel output1 output2 env1 env2.

Let sim {A} := @sim P output1 output2 A.
Let state_rel := @state_rel P output1 output2.
Let event_rel := @event_rel P output1 output2.
Let same_place := same_place output1 output2.

Lemma sim_ret {A} (a : A) : sim (ret a) (ret a).
Proof. by intros s1 s2 H. Qed.

Lemma sim_lift {A} (r : Result A) : sim (lift r) (lift r).
Proof. by intros s1 s2 H. Qed.

Lemma sim_bind {A B} (m1 m2 : M A) (k1 k2 : A -> M B) :
  sim m1 m2 -> (forall a, sim (k1 a) (k2 a)) -> sim (bind m1 k1) (bind m2 k2).
Proof.
  intros Hm Hk s1 s2 Hs. destruct (Hm s1 s2 Hs) as [Hr Hs']. unfold bind.
  destruct (m1 s1) as [[a1|e1] s1'], (m2 s2) as [[a2|e2] s2'];
    cbn [fst snd] in *; try done.
  - injection Hr as ->. by apply Hk.
  - injection Hr as ->. split; [done|exact Hs'].
Qed.

Lemma sim_bind_ok {A B} (a : A) (k1 k2 : A -> M B) :
  sim (k1 a) (k2 a) -> sim (bind (lift (Ok a)) k1) (bind (lift (Ok a)) k2).
Proof. done. Qed.

Lemma sim_try {A} (m1 m2 : M A) h1 h2 :
  sim m1 m2 -> (forall e, sim (h1 e) (h2 e)) ->
  sim (try_except m1 h1) (try_except m2 h2).
Proof.
  intros Hm Hh s1 s2 Hs. destruct (Hm s1 s2 Hs) as [Hr Hs']. unfold try_except.
  destruct (m1 s1) as [[a1|e1] s1'], (m2 s2) as [[a2|e2] s2'];
    cbn [fst snd] in *; try done.
  injection Hr as ->. by apply Hh.
Qed.

Lemma sim_with_as {A B} (e1 e2 : M A) l1 l2 (b1 b2 : A -> M B) :
  sim e1 e2 -> (forall x, sim (l1 x) (l2 x)) -> (forall x, sim (b1 x) (b2 x)) ->
  sim (with_as e1 l1 b1) (with_as e2 l2 b2).
Proof.
  intros He Hl Hb. apply sim_bind; [done|]. intros x. apply sim_bind.
  - apply sim_try; [done|]. intros e. apply sim_bind; [done|].
    intros _. apply sim_lift.
  - intros b. apply sim_bind; [done|]. intros _. apply sim_ret.
Qed.

Lemma sim_alloc d : sim (alloc d) (alloc d).
Proof.
  intros s1 s2 (Hh & Ht & Ho & Hn & Hk). unfold alloc. simpl. rewrite Hh.
  by repeat split.
Qed.

Lemma sim_deref (r : ref) : sim (deref r) (deref r).
Proof.
  intros s1 s2 Hs. pose proof Hs as (Hh & _). unfold deref. rewrite Hh.
  by destruct (heap s2 !! r).
Qed.

Lemma sim_assign (r : ref) d : sim (assign r d) (assign r d).
Proof.
  intros s1 s2 (Hh & Ht & Ho & Hn & Hk). unfold assign. simpl. rewrite Hh.
  by repeat split.
Qed.

Lemma sim_emit e1 e2 : event_rel e1 e2 -> sim (emit e1) (emit e2).
Proof.
  intros He s1 s2 (Hh & Ht & Ho & Hn & Hk). unfold emit. simpl.
  repeat split; try done. apply Forall2_app; [done|by constructor].
Qed.

Lemma sim_print m1 m2 :
  msg_rel output1 output2 m1 m2 -> sim (print env1 m1) (print env2 m2).
Proof.
  intros Hm s1 s2 Hs. pose proof Hs as (Hh & Ht & Ho & Hn & Hk).
  destruct Henv as (_ & _ & Hos). destruct (Hos _ _ Ht) as (_ & _ & _ & _ & _ & Hpr).
  unfold print. rewrite (Hpr _ _ m1 m2 Ho Hm).
  destruct (os_print env2 (trace s2) (stdout s2) m2); simpl; [done|].
  repeat split; try done. apply Forall2_app; [done|by constructor].
Qed.

Lemma sim_init_counters : sim init_counters init_counters.
Proof. intros s1 s2 (Hh & Ht & Ho & Hn & Hk). by repeat split. Qed.

Lemma sim_incr_originals : sim incr_originals incr_originals.
Proof.
  intros s1 s2 (Hh & Ht & Ho & Hn & Hk). unfold incr_originals. simpl.
  rewrite Hn, Hk. by repeat split.
Qed.

Lemma sim_incr_augmented : sim incr_augmented incr_augmented.
Proof.
  intros s1 s2 (Hh & Ht & Ho & Hn & Hk). unfold incr_augmented. simpl.
  rewrite Hn, Hk. by repeat split.
Qed.

Lemma sim_outcome r : sim (outcome r) (outcome r).
Proof. destruct r; [apply sim_lift|apply sim_ret]. Qed.

Lemma sim_Image_apply f (im : ref) : sim (Image_apply f im) (Image_apply f im).
Proof.
  apply sim_bind; [apply sim_deref|]. intros d.
  apply sim_bind; [apply sim_lift|]. intros d'. apply sim_alloc.
Qed.

Lemma sim_Image_mode (im : ref) : sim (Image_mode im) (Image_mode im).
Proof. apply sim_bind; [apply sim_deref|]. intros d. apply sim_ret. Qed.

Lemma sim_convert_rgb (im : ref) bg : sim (convert_rgb im bg) (convert_rgb im bg).
Proof.
  apply sim_bind; [apply sim_Image_mode|]. intros mode.
  destruct (bool_decide (mode = "RGB")); [apply sim_ret|].
  destruct (bool_decide (mode ∈ ["RGBA"; "LA"]));
    [|apply (sim_Image_apply (fun d => pil_convert d "RGB"))].
  apply sim_bind.
  { apply sim_bind; [apply sim_deref|]. intros d. apply sim_ret. }
  intros size. apply sim_bind.
  { apply sim_bind; [apply sim_lift|]. intros d. apply sim_alloc. }
  intros base. apply sim_bind.
  { apply (sim_Image_apply (fun d => pil_convert d "RGB")). }
  intros rgb. apply sim_bind.
  { apply (sim_Image_apply (fun d => pil_getchannel d "A")). }
  intros alpha. apply sim_bind; [|intros _; apply sim_ret].
  apply sim_bind; [apply sim_deref|]. intros b.
  apply sim_bind; [apply sim_deref|]. intros d.
  apply sim_bind; [apply sim_deref|]. intros k.
  apply sim_bind; [apply sim_lift|]. intros b'. apply sim_assign.
Qed.

Lemma sim_guarantee (im : ref) ext :
  sim (guarantee_rgb_for_jpeg im ext) (guarantee_rgb_for_jpeg im ext).
Proof.
  unfold guarantee_rgb_for_jpeg. destruct (bool_decide (ext ∈ _)); [|apply sim_ret].
  apply sim_bind; [apply sim_Image_mode|]. intros mode.
  destruct (negb _); [apply (sim_Image_apply (fun d => pil_convert d "RGB"))
                     |apply sim_ret].
Qed.

Lemma sim_exit (im : ref) : sim (Image_exit im) (Image_exit im).
Proof. apply sim_emit. split; [constructor|done]. Qed.

Lemma sim_save_image (im : ref) ext : sim (save_image im ext) (save_image im ext).
Proof.
  apply sim_bind; [apply sim_deref|]. intros d.
  destruct (pil_save d _ _) as [data|e].
  - apply sim_bind; [apply sim_emit; by split; [constructor|]|].
    intros _. apply sim_ret.
  - apply sim_bind; [apply sim_emit; by split; [constructor|]|].
    intros _. apply sim_lift.
Qed.

(** *** Calls to the operating system *)

Lemma sim_mkdir p1 p2 a b :
  same_place p1 p2 -> sim (Path_mkdir env1 p1 a b) (Path_mkdir env2 p2 a b).
Proof.
  intros Hp s1 s2 Hs. pose proof Hs as (_ & Ht & _).
  destruct Henv as (_ & _ & Hos). destruct (Hos _ _ Ht) as (Hmk & _).
  unfold Path_mkdir, bind, get, emit. simpl. rewrite (Hmk p1 p2 Hp).
  apply (sim_bind (emit _) (emit _) (fun _ => outcome _) (fun _ => outcome _));
    [|intros _; apply sim_outcome|done].
  apply sim_emit. split; [by constructor|done].
Qed.

Lemma sim_copy2 src p1 p2 :
  same_place p1 p2 -> sim (shutil_copy2 env1 src p1) (shutil_copy2 env2 src p2).
Proof.
  intros Hp s1 s2 Hs. pose proof Hs as (_ & Ht & _).
  destruct Henv as (_ & _ & Hos). destruct (Hos _ _ Ht) as (_ & Hcp & _).
  unfold shutil_copy2, bind, get, emit. simpl. rewrite (Hcp src p1 p2 Hp).
  apply (sim_bind (emit _) (emit _) (fun _ => outcome _) (fun _ => outcome _));
    [|intros _; apply sim_outcome|done].
  apply sim_emit. split; [by constructor|done].
Qed.

Lemma sim_write_bytes p1 p2 data :
  same_place p1 p2 ->
  sim (Path_write_bytes env1 p1 data) (Path_write_bytes env2 p2 data).
Proof.
  intros Hp s1 s2 Hs. pose proof Hs as (_ & Ht & _).
  destruct Henv as (_ & _ & Hos). destruct (Hos _ _ Ht) as (_ & _ & Hw & _).
  unfold Path_write_bytes, bind, get, emit. simpl. rewrite (Hw p1 p2 data Hp).
  apply (sim_bind (emit _) (emit _) (fun _ => outcome _) (fun _ => outcome _));
    [|intros _; apply sim_outcome|done].
  apply sim_emit. split; [by constructor|done].
Qed.

Lemma sim_open src : sim (Image_open env1 src) (Image_open env2 src).
Proof.
  intros s1 s2 Hs. pose proof Hs as (_ & Ht & _).
  destruct Henv as (_ & _ & Hos). destruct (Hos _ _ Ht) as (_ & _ & _ & Hop & _).
  rewrite !Image_open_unfold, (Hop src).
  destruct (os_open_image env2 (trace s2) src) as [d|e].
  - apply (sim_bind (emit _) (emit _) (fun _ => alloc d) (fun _ => alloc d));
      [|intros _; apply sim_alloc|done].
    apply sim_emit. split; [constructor|done].
  - apply (sim_bind (emit _) (emit _) (fun _ => lift _) (fun _ => lift _));
      [|intros _; apply sim_lift|done].
    apply sim_emit. split; [constructor|done].
Qed.

Lemma sim_load (im : ref) : sim (Image_load env1 im) (Image_load env2 im).
Proof.
  intros s1 s2 Hs. pose proof Hs as (_ & Ht & _).
  destruct Henv as (_ & _ & Hos). destruct (Hos _ _ Ht) as (_ & _ & _ & _ & Hld & _).
  unfold Image_load, bind, get, emit. simpl. rewrite (Hld im).
  apply (sim_bind (emit _) (emit _) (fun _ => outcome _) (fun _ => outcome _));
    [|intros _; apply sim_outcome|done].
  apply sim_emit. split; [constructor|done].
Qed.

(** *** Places below the two roots *)

Lemma join_join_name o q n :
  anchor q = "" -> (o // q) /: n = o // (q /: n) /\ anchor (q /: n) = "".
Proof.
  intros Hq. unfold PurePath.join_name, PurePath.join.
  destruct (bool_decide (n = "")); simpl; rewrite Hq; simpl; [done|].
  by rewrite app_assoc.
Qed.

Lemma same_place_name p1 p2 n : same_place p1 p2 -> same_place (p1 /: n) (p2 /: n).
Proof.
  intros (q & Hq & -> & ->). exists (q /: n).
  destruct (join_join_name output1 q n Hq) as [-> ?].
  by destruct (join_join_name output2 q n Hq) as [-> ?].
Qed.

Lemma same_place_dest rel :
  anchor rel = "" -> parts rel <> [] ->
  same_place (PurePath.parent (output1 // rel)) (PurePath.parent (output2 // rel)).
Proof.
  intros Ha Hp. exists (PurePath.parent rel).
  rewrite !PathFacts.parent_join by done. done.
Qed.

(** *** The program, side by side *)

Lemma sim_for_gen {A} (g : list (M A)) (b1 b2 : A -> M unit) :
  (forall step, step ∈ g -> sim step step) ->
  (forall a, sim (b1 a) (b2 a)) ->
  sim (for_gen g b1) (for_gen g b2).
Proof.
  intros Hg Hb. induction g as [|step g IH]; [apply sim_ret|].
  simpl. apply sim_bind.
  - apply sim_bind; [apply Hg; set_solver|done].
  - intros _. apply IH. intros st Hst. apply Hg. set_solver.
Qed.

Lemma sim_for_each {A} (l : list A) (b1 b2 : A -> M unit) :
  (forall x, x ∈ l -> sim (b1 x) (b2 x)) ->
  sim (for_each l b1) (for_each l b2).
Proof.
  intros Hb. induction l as [|x l IH]; [apply sim_ret|].
  simpl. apply sim_bind; [apply Hb; set_solver|].
  intros _. apply IH. intros y Hy. apply Hb. set_solver.
Qed.

Lemma sim_write_variant src d1 d2 ext v :
  same_place d1 d2 ->
  sim (write_variant env1 src d1 ext v) (write_variant env2 src d2 ext v).
Proof.
  intros Hd. apply sim_bind; [apply sim_guarantee|]. intros aug.
  apply sim_bind; [apply sim_save_image|]. intros data.
  apply sim_bind; [by apply sim_write_bytes, same_place_name|].
  intros _. apply sim_incr_augmented.
Qed.

Lemma sim_augment_file src d1 d2 :
  same_place d1 d2 ->
  sim (augment_file env1 src d1) (augment_file env2 src d2).
Proof.
  intros Hd. apply sim_with_as; [apply sim_open|apply sim_exit|]. intros im.
  apply sim_bind; [apply sim_load|]. intros _.
  apply sim_bind; [apply sim_convert_rgb|]. intros base.
  apply sim_for_gen; [|intros v; by apply sim_write_variant].
  intros step (name & f & _ & ->)%spec_variants_steps.
  apply sim_bind; [apply sim_Image_apply|]. intros v. apply sim_ret.
Qed.

Lemma sim_copy_original src d1 d2 :
  same_place d1 d2 ->
  sim (copy_original env1 src d1) (copy_original env2 src d2).
Proof.
  intros Hd. apply sim_try.
  - apply sim_bind; [by apply sim_copy2, same_place_name|].
    intros _. apply sim_incr_originals.
  - intros e. apply sim_print. constructor.
Qed.

Lemma sim_process_file input_dir copy_originals src :
  below input_dir src ->
  sim (process_file env1 input_dir output1 copy_originals src)
      (process_file env2 input_dir output2 copy_originals src).
Proof.
  intros (rel & Ha & Hp & ->). unfold process_file.
  rewrite (PathFacts.relative_to_join input_dir rel Ha).
  apply sim_bind_ok.
  pose proof (same_place_dest rel Ha Hp) as Hd.
  apply sim_bind; [by apply sim_mkdir|]. intros _.
  apply sim_bind.
  - destruct copy_originals; [by apply sim_copy_original|apply sim_ret].
  - intros _. apply sim_try; [by apply sim_augment_file|].
    intros e. apply sim_print. constructor.
Qed.

Lemma sim_get_originals : sim (get num_originals) (get num_originals).
Proof. intros s1 s2 Hs. pose proof Hs as (_ & _ & _ & Hn & _). unfold get. simpl. by rewrite Hn. Qed.

Lemma sim_get_augmented : sim (get num_augmented) (get num_augmented).
Proof. intros s1 s2 Hs. pose proof Hs as (_ & _ & _ & _ & Hk). unfold get. simpl. by rewrite Hk. Qed.

Lemma discover_same input_dir : discover env1 input_dir = discover env2 input_dir.
Proof.
  destruct Henv as (Hg & Hf & _). unfold discover. rewrite Hg.
  apply List.filter_ext. intros p. unfold true_image. by rewrite Hf.
Qed.

Lemma discover_listed env input_dir src :
  src ∈ discover env input_dir -> src ∈ rglob env input_dir.
Proof.
  unfold discover. rewrite !list_elem_of_In. by intros [? _]%List.filter_In.
Qed.

Lemma sim_process_dataset input_dir copy_originals :
  (forall src, src ∈ rglob env1 input_dir -> below input_dir src) ->
  sim (process_dataset env1 input_dir output1 copy_originals)
      (process_dataset env2 input_dir output2 copy_originals).
Proof.
  intros Hbelow. unfold process_dataset. rewrite <- discover_same.
  destruct (discover env1 input_dir) as [|x l] eqn:Himg.
  { apply sim_bind; [apply sim_print; constructor|]. intros _. apply sim_ret. }
  apply sim_bind; [apply sim_init_counters|]. intros _.
  apply sim_bind.
  { apply sim_for_each. intros src Hsrc. apply sim_process_file, Hbelow.
    apply discover_listed. by rewrite Himg. }
  intros _. apply sim_bind; [apply sim_print; constructor|]. intros _.
  apply sim_bind; [apply sim_get_originals|]. intros n.
  apply sim_bind; [apply sim_get_augmented|]. intros k.
  apply sim_bind; [apply sim_print; constructor|]. intros _. apply sim_ret.
Qed.

(** *** The trees the two runs leave *)

Lemma effect_rel e1 e2 :
  event_rel e1 e2 ->
  match effect e1, effect e2 with
  | Some (p1, c1), Some (p2, c2) => same_place p1 p2 /\ c1 = c2
  | None, None => True
  | _, _ => False
  end.
Proof.
  destruct e1 as [c1 o1], e2 as [c2 o2]. intros [Hc Ho]. simpl in *. subst o2.
  unfold effect, succeeded. simpl. destruct o1; [done|].
  by destruct Hc.
Qed.

Lemma output_tree_rel t1 t2 :
  Forall2 event_rel t1 t2 ->
  forall q, anchor q = "" ->
    output_tree t1 !! (output1 // q) = output_tree t2 !! (output2 // q).
Proof.
  unfold output_tree. intros Ht.
  assert (Hgen : forall m1 m2 : gmap Path Content,
    (forall q, anchor q = "" -> m1 !! (output1 // q) = m2 !! (output2 // q)) ->
    forall q, anchor q = "" ->
      foldl tree_step m1 t1 !! (output1 // q)
      = foldl tree_step m2 t2 !! (output2 // q)).
  { induction Ht as [|e1 e2 t1 t2 He Ht IH]; intros m1 m2 Hm; [done|].
    simpl. apply IH. intros q Hq. unfold tree_step.
    pose proof (effect_rel e1 e2 He) as Heff.
    destruct (effect e1) as [[p1 c1]|], (effect e2) as [[p2 c2]|];
      try done; [|by apply Hm].
    destruct Heff as [(q0 & Hq0 & -> & ->) ->].
    destruct (decide (q = q0)) as [->|Hne].
    - by rewrite !lookup_insert_eq.
    - rewrite !lookup_insert_ne; [by apply Hm| |];
        intros Heq; apply Hne; symmetry; by eapply PathFacts.join_inj.
  }
  apply Hgen. intros q _. by rewrite !lookup_empty.
Qed.

End Sim.

(** ** What one file contributes to the trace *)

Section FileTrace.
Context {P : Pillow}.
Variable env : Env.

Lemma process_file_trace input_dir output_dir copy_originals src rel s r s' :
  PurePath.relative_to src input_dir = Ok rel ->
  process_file env input_dir output_dir copy_originals src s = (r, s') ->
  let dest_dir := PurePath.parent (output_dir // rel) in
  let mk := mkEvent (Mkdir dest_dir true true) (os_mkdir env (trace s) dest_dir) in
  exists new,
    trace s' = trace s ++ mk :: new
    /\ match os_mkdir env (trace s) dest_dir with
       | Some e => r = Raise e /\ new = [] /\ s' = log mk s
       | None => (r = Ok tt
                  \/ exists e m,
                       r = Raise e /\ file_msg src m
                       /\ os_print env (trace s') (stdout s') m = Some e)
                 /\ file_progress env src dest_dir (log mk s) s'
                 /\ Forall (file_event env src dest_dir) new
                 /\ num_augmented s' = (num_augmented s + writes_ok new)%nat
                 /\ num_originals s' = (num_originals s + copies_ok new)%nat
       end.
Proof.
  intros Hrel Hrun dest_dir mk.
  assert (Hdone : forall res,
            os_mkdir env (trace s) dest_dir = None ->
            file_progress env src dest_dir
              (log (mkEvent (Mkdir dest_dir true true) None) s) s' ->
            res ->
            exists new,
              trace s' = trace s ++ mkEvent (Mkdir dest_dir true true) None :: new
              /\ res
              /\ file_progress env src dest_dir
                   (log (mkEvent (Mkdir dest_dir true true) None) s) s'
              /\ Forall (file_event env src dest_dir) new
              /\ num_augmented s' = (num_augmented s + writes_ok new)%nat
              /\ num_originals s' = (num_originals s + copies_ok new)%nat).
  { intros res Hmk Hfp Hres. pose proof Hfp as (new & out & Ht & Hev & Hk & Hn & _).
    exists new. simpl in Ht. rewrite <- app_assoc in Ht. by repeat split. }
  destruct (process_file_shape env _ _ _ _ _ _ _ Hrun)
    as [[-> (rel' & Hrel' & Hmk & Hfp)]|(e & -> & Hfail)].
  - rewrite Hrel in Hrel'. injection Hrel' as <-.
    unfold mk. fold dest_dir in Hmk, Hfp. rewrite Hmk.
    apply Hdone; [done|done|by left].
  - destruct Hfail as [[[Hrel' _]|(rel' & Hrel' & Hmk & ->)]
                      |(rel' & m & Hrel' & Hmk & Hfp & Hm & Hpr)]; [congruence| |].
    + rewrite Hrel in Hrel'. injection Hrel' as <-.
      exists []. unfold mk, dest_dir. by rewrite Hmk.
    + rewrite Hrel in Hrel'. injection Hrel' as <-.
      unfold mk. fold dest_dir in Hmk, Hfp. rewrite Hmk.
      apply Hdone; [done|done|]. right. by exists e, m.
Qed.

(** The extension of a variant file is the lower-cased extension of its
    source. *)
Lemma recognized_ext ext :
  ext ∈ recognize_formats ->
  exists e, ext = String "." e /\ e <> "" /\ Str.mem "." e = false.
Proof.
  unfold recognize_formats. rewrite !elem_of_cons, elem_of_nil.
  intros H. repeat (destruct H as [->|H]; [by eexists|]). done.
Qed.

Lemma suffix_out_name src dest_dir tag ext :
  ext ∈ recognize_formats ->
  PurePath.suffix (dest_dir /: out_name src tag ext) = ext.
Proof.
  intros (e & -> & He & Hdot)%recognized_ext. unfold PurePath.suffix, out_name.
  rewrite <- !StrFacts.append_assoc.
  assert (Hpre : (PurePath.stem src +:+ "__") +:+ tag <> "")
    by (by apply StrFacts.append_nonempty_l, StrFacts.append_nonempty_r).
  rewrite PathFacts.name_join_name by (by apply StrFacts.append_nonempty_l).
  by apply PathFacts.dot_split.
Qed.

End FileTrace.

(** ** Modes of the images the pipeline encodes *)

Section Modes.
Context {P : Pillow}.
Hypothesis HP : PillowSpec P.

Lemma spec_normalize_base_mode d b :
  spec_normalize_base d = Ok b -> pil_mode b = "RGB".
Proof.
  unfold spec_normalize_base. case_bool_decide as Hrgb; [by intros [= <-]|].
  case_bool_decide as Ha; [|apply (convert_mode P HP)].
  destruct (pil_new _ _ _) as [bg|] eqn:Hnew; [|done]. simpl.
  destruct (pil_convert d "RGB") as [rgb|]; [|done]. simpl.
  destruct (pil_getchannel d "A") as [alpha|]; [|done]. simpl.
  intros Hpaste. rewrite (paste_mode P HP _ _ _ _ Hpaste).
  apply (new_mode P HP _ _ _ _ Hnew).
Qed.

Lemma spec_normalize_base_alpha d b :
  pil_mode d = "RGBA" \/ pil_mode d = "LA" ->
  spec_normalize_base d = Ok b ->
  exists background rgb alpha,
    pil_new "RGB" (pil_size d) (255, 255, 255)%Z = Ok background
    /\ pil_convert d "RGB" = Ok rgb
    /\ pil_getchannel d "A" = Ok alpha
    /\ pil_paste background rgb alpha = Ok b.
Proof.
  intros Ha. unfold spec_normalize_base.
  rewrite bool_decide_eq_false_2 by (intros Hm; rewrite Hm in Ha; by destruct Ha).
  rewrite bool_decide_eq_true_2 by done.
  destruct (pil_new _ _ _) as [bg|]; [|done]. simpl.
  destruct (pil_convert d "RGB") as [rgb|]; [|done]. simpl.
  destruct (pil_getchannel d "A") as [alpha|]; [|done]. simpl.
  intros Hpaste. by exists bg, rgb, alpha.
Qed.

Lemma spec_enforce_jpeg_safety_mode v ext d :
  ext = ".jpg" \/ ext = ".jpeg" ->
  spec_enforce_jpeg_safety v ext = Ok d ->
  pil_mode d = "RGB" \/ pil_mode d = "L".
Proof.
  intros Hext. unfold spec_enforce_jpeg_safety. case_bool_decide as Hc.
  - intros Hconv. left. apply (convert_mode P HP _ _ _ Hconv).
  - intros [= <-]. destruct (decide (pil_mode v = "RGB")); [by left|].
    destruct (decide (pil_mode v = "L")); [by right|]. by destruct Hc.
Qed.

End Modes.

(** * The claims *)

(** C1. For every base image the augmentation generator has exactly eight
    steps, named flipHorizontal, flipVertical, rotate90degrees, rotate270,
    bright125, contrast125, sharp150 and blur in this order.  Run in any
    state in which the base image has value [d], the step of index [k]
    yields the [k]-th tag with a new image whose value is the [k]-th
    transform of the specification applied to [d] itself (mirror, flip,
    rotation by 90 and by 270 with the canvas expanded, brightness, contrast
    and sharpness by the factor 3/2, which is not 5/4, and the BLUR filter),
    and changes nothing else, so no variant depends on a variant yielded
    before it; if the Pillow call raises, the step raises the same and
    changes nothing.  Consumed to the end with every call succeeding, the
    generator yields the eight pairs. *)
Theorem augmentations_eight_from_base {P : Pillow} (base : ref) (d : img) (s : State) :
  heap s !! base = Some d ->
  length (augmentations base) = 8%nat
  /\ map fst spec_variants = variant_tags
  /\ (forall k name f s',
        spec_variants !! k = Some (name, f) ->
        heap s' !! base = Some d ->
        exists step,
          augmentations base !! k = Some step
          /\ step s' = match f d with
                       | Ok v => (Ok (name, length (heap s')),
                                  set_heap (heap s' ++ [v]) s')
                       | Raise e => (Raise e, s')
                       end)
  /\ (forall vs,
        Forall2 (fun nf v => nf.2 d = Ok v) spec_variants vs ->
        collect (augmentations base) s
        = (Ok (zip variant_tags (seq (length (heap s)) 8)),
           set_heap (heap s ++ vs) s))
  /\ spec_variants !! 4%nat = Some ("bright125", fun d => pil_brightness d (3 # 2))
  /\ spec_variants !! 5%nat = Some ("contrast125", fun d => pil_contrast d (3 # 2))
  /\ spec_variants !! 6%nat = Some ("sharp150", fun d => pil_sharpness d (3 # 2))
  /\ ~ (3 # 2 == 5 # 4)%Q.
Proof.
  intros Hd. split; [reflexivity|]. split; [reflexivity|]. split; [|split].
  - intros k name f s' Hk Hd'. rewrite augmentations_table, list_lookup_fmap, Hk.
    eexists. split; [reflexivity|]. by apply step_run.
  - intros vs Hvs. rewrite augmentations_table.
    by rewrite (collect_table spec_variants base d vs Hvs s Hd).
  - repeat split; try reflexivity. by intros H.
Qed.

(** C4. [convert_rgb] (normalize_base) returns an image of mode RGB and
    never changes the value of its argument nor of any other object that
    existed before the call; an RGB image is returned as it is, the same
    object in an unchanged state; an RGBA or LA image is pasted, with its
    alpha channel as the mask, on a new RGB image of the same size filled
    with (255, 255, 255); an image of any other mode is converted to RGB.
    It raises only what one of these Pillow operations raises. *)
Theorem convert_rgb_normalizes {P : Pillow} (HP : PillowSpec P)
    (im : ref) (d : img) (s : State) :
  heap s !! im = Some d ->
  exists r s',
    convert_rgb im white s = (r, s')
    /\ grows s s'
    /\ (forall (obj : ref) x, heap s !! obj = Some x -> heap s' !! obj = Some x)
    /\ match r with
       | Ok out => exists d', heap s' !! out = Some d'
                              /\ spec_normalize_base d = Ok d'
                              /\ pil_mode d' = "RGB"
       | Raise e => spec_normalize_base d = Raise e
       end
    /\ (pil_mode d = "RGB" -> r = Ok im /\ s' = s)
    /\ (pil_mode d = "RGBA" \/ pil_mode d = "LA" ->
        spec_normalize_base d
        = rbind (pil_new "RGB" (pil_size d) (255, 255, 255)%Z) (fun background =>
          rbind (pil_convert d "RGB") (fun rgb =>
          rbind (pil_getchannel d "A") (fun alpha =>
          pil_paste background rgb alpha))))
    /\ (pil_mode d <> "RGB" -> pil_mode d <> "RGBA" -> pil_mode d <> "LA" ->
        spec_normalize_base d = pil_convert d "RGB").
Proof.
  intros Hd. destruct (convert_rgb im white s) as [r s'] eqn:Hrun.
  exists r, s'. split; [done|].
  destruct (convert_rgb_run im d s r s' Hd Hrun) as (h & -> & Hspec).
  split; [by exists h|]. split; [intros obj x Hx; by apply lookup_app_l_Some|].
  split; [|split; [|split]].
  - destruct (spec_normalize_base d) as [d'|e] eqn:Hn; [|by subst r].
    destruct Hspec as (out & -> & Hout & _). exists d'. split; [done|].
    split; [done|]. by apply (spec_normalize_base_mode HP d).
  - intros Hrgb. unfold spec_normalize_base in Hspec.
    rewrite bool_decide_eq_true_2 in Hspec by done.
    destruct Hspec as (out & -> & _ & Hsame). destruct (Hsame Hrgb) as [-> ->].
    by rewrite set_heap_id.
  - intros Ha. unfold spec_normalize_base.
    rewrite bool_decide_eq_false_2 by (intros Hm; rewrite Hm in Ha; by destruct Ha).
    by rewrite bool_decide_eq_true_2.
  - intros H1 H2 H3. unfold spec_normalize_base.
    rewrite bool_decide_eq_false_2 by done.
    by rewrite bool_decide_eq_false_2 by tauto.
Qed.

(** C5. [guarantee_rgb_for_jpeg] (enforce_jpeg_safety) converts the image
    to RGB exactly when the extension is ".jpg" or ".jpeg" and the mode is
    neither RGB nor L, and returns the same object otherwise.  Consequently,
    of the images that processing a source file hands to the encoder, each
    is a variant of the normalized base of the opened image after this
    step: under a JPEG extension its mode is RGB or L, so it has no alpha
    channel, and when the opened image is RGBA or LA the base it derives
    from is the paste of that image, masked by its alpha channel, on an
    image filled with (255, 255, 255), whatever the extension. *)
Theorem guarantee_rgb_for_jpeg_safe {P : Pillow} (HP : PillowSpec P) (env : Env)
    (im : ref) (d : img) (ext : string) (s0 : State)
    (input_dir output_dir : Path) (copy_originals : bool) (src : Path)
    (s : State) (r : Result unit) (s' : State) :
  heap s0 !! im = Some d ->
  process_file env input_dir output_dir copy_originals src s = (r, s') ->
  guarantee_rgb_for_jpeg im ext s0
  = (if bool_decide ((ext = ".jpg" \/ ext = ".jpeg")
                     /\ pil_mode d <> "RGB" /\ pil_mode d <> "L")
     then Image_convert im "RGB" s0
     else (Ok im, s0))
  /\ exists new,
       trace s' = trace s ++ new
       /\ forall saved fmt options o,
            mkEvent (ImageSave saved fmt options) o ∈ new ->
            let ext := Str.lower (PurePath.suffix src) in
            (ext = ".jpg" \/ ext = ".jpeg" ->
             pil_mode saved = "RGB" \/ pil_mode saved = "L")
            /\ exists tr opened base name f v,
                 os_open_image env tr src = Ok opened
                 /\ spec_normalize_base opened = Ok base
                 /\ pil_mode base = "RGB"
                 /\ (name, f) ∈ spec_variants
                 /\ f base = Ok v
                 /\ spec_enforce_jpeg_safety v ext = Ok saved
                 /\ (pil_mode opened = "RGBA" \/ pil_mode opened = "LA" ->
                     exists background rgb alpha,
                       pil_new "RGB" (pil_size opened) (255, 255, 255)%Z
                       = Ok background
                       /\ pil_convert opened "RGB" = Ok rgb
                       /\ pil_getchannel opened "A" = Ok alpha
                       /\ pil_paste background rgb alpha = Ok base).
Proof.
  intros Hd Hrun. split; [by apply guarantee_rgb_for_jpeg_run|].
  destruct (PurePath.relative_to src input_dir) as [rel|e] eqn:Hrel.
  2:{ assert (Hs : (r, s') = (Raise e, s))
        by (rewrite <- Hrun; unfold process_file; by rewrite Hrel).
      injection Hs as -> ->.
      exists []. rewrite app_nil_r. split; [done|]. by intros * ?%elem_of_nil. }
  destruct (process_file_trace env _ _ _ _ _ _ _ _ Hrel Hrun) as (new & Ht & Hnew).
  eexists. split; [exact Ht|]. intros saved fmt options o Hin ext'.
  apply elem_of_cons in Hin as [Hin|Hin]; [done|].
  destruct (os_mkdir env (trace s) _) as [e|];
    [destruct Hnew as (_ & -> & _); by apply elem_of_nil in Hin|].
  destruct Hnew as (_ & _ & Hev & _).
  rewrite Forall_forall in Hev. specialize (Hev _ Hin).
  inversion Hev as [| | | |tr d0 base name f v d' o' Hopen Hbase Hname Hf Hsafe fmt' Heq|];
    subst.
  split; [intros Hjpeg; by apply (spec_enforce_jpeg_safety_mode HP v ext' saved)|].
  exists tr, d0, base, name, f, v. repeat split; try done.
  - by apply (spec_normalize_base_mode HP d0).
  - intros Ha. by apply spec_normalize_base_alpha.
Qed.

(** C7. For an accepted source file at the relative path [R] below the
    input root, the first call [process_file] makes is
    [mkdir(parents=True, exist_ok=True)] on [output_dir / R.parent], and
    every file it then creates or overwrites (the copy of the original and
    the variants) lies directly in that directory and is written only
    after that call has succeeded. *)
Theorem outputs_mirror_tree {P : Pillow} (env : Env)
    (input_dir output_dir : Path) (copy_originals : bool) (R : Path)
    (s : State) (r : Result unit) (s' : State) :
  anchor R = "" -> parts R <> [] ->
  true_image env (input_dir // R) = true ->
  process_file env input_dir output_dir copy_originals (input_dir // R) s = (r, s') ->
  let dest_dir := output_dir // PurePath.parent R in
  exists new,
    trace s'
    = trace s ++ mkEvent (Mkdir dest_dir true true) (os_mkdir env (trace s) dest_dir)
                 :: new
    /\ forall ev p, ev ∈ new -> target (ev_call ev) = Some p ->
         PurePath.parent p = dest_dir
         /\ os_mkdir env (trace s) dest_dir = None.
Proof.
  intros Ha Hp Hacc Hrun dest_dir.
  pose proof (PathFacts.relative_to_join input_dir R Ha) as Hrel.
  destruct (process_file_trace env _ _ _ _ _ _ _ _ Hrel Hrun) as (new & Ht & Hnew).
  rewrite (PathFacts.parent_join output_dir R Ha Hp) in Ht, Hnew.
  exists new. split; [exact Ht|]. intros ev p Hin Htarget.
  fold dest_dir in Hnew.
  destruct (os_mkdir env (trace s) dest_dir) as [e|];
    [destruct Hnew as (_ & -> & _); by apply elem_of_nil in Hin|].
  split; [|done]. destruct Hnew as (_ & _ & Hev & _).
  rewrite Forall_forall in Hev. specialize (Hev _ Hin).
  assert (Hname : PurePath.name (input_dir // R) <> "").
  { apply andb_true_iff in Hacc as [_ Hsuf%bool_decide_eq_true].
    unfold PurePath.suffix in Hsuf. intros Hn. rewrite Hn in Hsuf.
    by apply recognized_ext in Hsuf as (e & Heq & _). }
  inversion Hev; subst; simpl in Htarget; try done; injection Htarget as <-.
  - by apply PathFacts.parent_join_name.
  - apply PathFacts.parent_join_name. unfold out_name.
    by apply StrFacts.append_nonempty_r, StrFacts.append_nonempty_l.
Qed.

(** C2, as the code has it.  For an accepted source file, every variant
    file has the extension of the source in lower case, which is the
    source's extension up to the case of its letters, and the encoder format
    is the one of the source's extension. *)
Theorem variant_extension_lowercase {P : Pillow} (env : Env)
    (input_dir output_dir : Path) (copy_originals : bool) (src : Path)
    (s : State) (r : Result unit) (s' : State) :
  true_image env src = true ->
  process_file env input_dir output_dir copy_originals src s = (r, s') ->
  exists new,
    trace s' = trace s ++ new
    /\ forall ev, ev ∈ new ->
         (forall p data, ev_call ev = WriteBytes p data ->
            PurePath.suffix p = Str.lower (PurePath.suffix src)
            /\ Str.lower (PurePath.suffix p) = Str.lower (PurePath.suffix src))
         /\ (forall d fmt options, ev_call ev = ImageSave d fmt options ->
               fmt = save_format (PurePath.suffix src)).
Proof.
  intros Hacc Hrun.
  apply andb_true_iff in Hacc as [_ Hext%bool_decide_eq_true].
  destruct (PurePath.relative_to src input_dir) as [rel|e] eqn:Hrel.
  2:{ assert (Hs : (r, s') = (Raise e, s))
        by (rewrite <- Hrun; unfold process_file; by rewrite Hrel).
      injection Hs as -> ->.
      exists []. rewrite app_nil_r. split; [done|]. by intros ev ?%elem_of_nil. }
  destruct (process_file_trace env _ _ _ _ _ _ _ _ Hrel Hrun) as (new & Ht & Hnew).
  eexists. split; [exact Ht|]. intros ev Hin.
  apply elem_of_cons in Hin as [->|Hin]; [by split|].
  destruct (os_mkdir env (trace s) _) as [e|];
    [destruct Hnew as (_ & -> & _); by apply elem_of_nil in Hin|].
  destruct Hnew as (_ & _ & Hev & _).
  rewrite Forall_forall in Hev. specialize (Hev _ Hin).
  inversion Hev; subst; simpl; (split; [intros p' data' [= <- <-]|intros d' fmt' o' [= <- <- <-]]);
    try done.
  - unfold fmt, save_format. by rewrite StrFacts.lower_idem.
  - rewrite suffix_out_name by done. by rewrite StrFacts.lower_idem.
Qed.

(** C3, as the code has it.  Once the destination directory of a
    discovered file is prepared, for either value of [copy_originals]:
    (1) when copying the original fails, the failure is printed and the
    augmentation of the same file starts from there; (2) an exception that
    opening, decoding, normalizing, transforming, encoding or writing raises
    is printed, and [process_file] then returns normally in the state
    reached; (3) the step of the generator at which the exception was
    raised is the last one to run for this file, and the image is closed;
    (4) when [process_file] returns, the loop goes on with the next file.
    All of this holds as long as the diagnostic can be printed: the [print]
    of a handler is guarded by nothing, so an exception it raises leaves
    [process_file] and the loop.  When no [print] raises, [process_file]
    returns normally whatever the other calls do. *)
Theorem per_file_failure_isolation {P : Pillow} (env : Env)
    (input_dir output_dir : Path) (copy_originals : bool)
    (src rel : Path) (rest : list Path) (s : State) :
  PurePath.relative_to src input_dir = Ok rel ->
  os_mkdir env (trace s) (PurePath.parent (output_dir // rel)) = None ->
  let dest_dir := PurePath.parent (output_dir // rel) in
  let s1 := log (mkEvent (Mkdir dest_dir true true) None) s in
  let copy_step := if copy_originals then copy_original env src dest_dir else ret tt in
  let file := process_file env input_dir output_dir copy_originals src in
  let ext := Str.lower (PurePath.suffix src) in
  (forall e,
     copy_originals = true ->
     os_copy2 env (trace s1) src (dest_dir /: PurePath.name src) = Some e ->
     let s2 := log (mkEvent (Copy2 src (dest_dir /: PurePath.name src)) (Some e)) s1 in
     match os_print env (trace s2) (stdout s2) (MsgCopyFailed src e) with
     | None => copy_step s1 = (Ok tt, say (MsgCopyFailed src e) s2)
     | Some e' => file s = (Raise e', s2)
     end)
  /\ (forall s2,
        copy_step s1 = (Ok tt, s2) ->
        match augment_file env src dest_dir s2 with
        | (Ok _, s3) => file s = (Ok tt, s3)
        | (Raise e, s3) =>
            match os_print env (trace s3) (stdout s3) (MsgSkipping src e) with
            | None => file s = (Ok tt, say (MsgSkipping src e) s3)
            | Some e' => file s = (Raise e', s3)
            end
        end)
  /\ (forall s2 d base s3 g1 step g2 s4 e s5,
        os_open_image env (trace s2) src = Ok d ->
        let im := length (heap s2) in
        let opened := set_heap (heap s2 ++ [d])
                               (log (mkEvent (ImageOpen src) None) s2) in
        os_load_image env (trace opened) im = None ->
        convert_rgb im white (log (mkEvent (ImageLoad im) None) opened)
        = (Ok base, s3) ->
        augmentations base = g1 ++ step :: g2 ->
        for_gen g1 (write_variant env src dest_dir ext) s3 = (Ok tt, s4) ->
        bind step (write_variant env src dest_dir ext) s4 = (Raise e, s5) ->
        augment_file env src dest_dir s2
        = (Raise e, log (mkEvent (ImageClose im) None) s5))
  /\ (forall s', file s = (Ok tt, s') ->
        for_each (src :: rest)
          (process_file env input_dir output_dir copy_originals) s
        = for_each rest (process_file env input_dir output_dir copy_originals) s')
  /\ (forall e s', file s = (Raise e, s') ->
        for_each (src :: rest)
          (process_file env input_dir output_dir copy_originals) s
        = (Raise e, s'))
  /\ ((forall tr out m, os_print env tr out m = None) ->
      exists s', file s = (Ok tt, s')).
Proof.
  intros Hrel Hmk dest_dir s1 copy_step file ext.
  assert (Hfile : file s
                  = (copy_step >> try_except (augment_file env src dest_dir)
                                    (fun e => print env (MsgSkipping src e))) s1).
  { unfold file, copy_step. by rewrite (process_file_prepared env _ _ _ _ _ _ Hrel Hmk). }
  split; [|split; [|split; [|split; [|split]]]].
  - intros e -> Hc s2. unfold copy_step in *.
    pose proof (copy_original_failed env src dest_dir s1 e Hc) as Hcopy.
    fold s2 in Hcopy. rewrite print_run in Hcopy.
    destruct (os_print env (trace s2) (stdout s2) (MsgCopyFailed src e)) as [e'|];
      [|done].
    rewrite Hfile. by apply bind_raise.
  - intros s2 Hcopy. rewrite Hfile, (bind_ok _ _ _ _ _ Hcopy). unfold try_except.
    destruct (augment_file env src dest_dir s2) as [[[]|e] s3]; [done|].
    rewrite print_run. by destruct (os_print env _ _ _).
  - intros s2 d base s3 g1 step g2 s4 e s5 Hopen im opened Hload Hbase Hg Hg1 Hstep.
    unfold augment_file. rewrite with_as_run, Image_open_unfold, Hopen.
    unfold bind at 1, emit at 1, alloc at 1. cbv beta iota.
    change (length (heap (log (mkEvent (ImageOpen src) None) s2))) with im.
    change (set_heap _ _) with opened.
    assert (Hbody : (Image_load env im >>
                     let* base := convert_rgb im white in
                     for_gen (augmentations base)
                       (write_variant env src dest_dir ext)) opened
                    = (Raise e, s5)).
    { rewrite (bind_ok _ _ opened tt (log (mkEvent (ImageLoad im) None) opened))
        by (by rewrite Image_load_run, Hload).
      rewrite (bind_ok _ _ _ _ _ Hbase), Hg. by eapply for_gen_stop. }
    fold ext. by rewrite Hbody.
  - intros s' Hrun. by apply for_each_ok.
  - intros e s' Hrun. by apply for_each_raise.
  - intros Hprint. destruct (file s) as [r s'] eqn:Hrun. unfold file in Hrun.
    destruct (process_file_trace env _ _ _ _ _ _ _ _ Hrel Hrun) as (new & _ & Hnew).
    cbv zeta in Hnew. rewrite Hmk in Hnew.
    destruct Hnew as ([->|(e & m & _ & _ & Hpr)] & _); [by exists s'|].
    by rewrite Hprint in Hpr.
Qed.

(** C9. The loop over the files is left with the exception, and the run
    with it, as soon as the path of a discovered file is not relative to the
    input root or its destination directory cannot be created: nothing is
    processed or printed after that.  Whenever the relative path exists the
    first call made for the file is the [mkdir] of its destination
    directory, whether originals are copied or not and whatever happens to
    the augmentation afterwards. *)
Theorem prepare_failure_propagates {P : Pillow} (env : Env)
    (input_dir output_dir : Path) (copy_originals : bool)
    (done_ : list Path) (src : Path) (rest : list Path) (s s1 : State) (e : Exn) :
  discover env input_dir = done_ ++ src :: rest ->
  for_each done_ (process_file env input_dir output_dir copy_originals)
    (set_counters 0 0 s) = (Ok tt, s1) ->
  (PurePath.relative_to src input_dir = Raise e ->
   process_dataset env input_dir output_dir copy_originals s = (Raise e, s1))
  /\ (forall rel,
        PurePath.relative_to src input_dir = Ok rel ->
        let dest_dir := PurePath.parent (output_dir // rel) in
        (os_mkdir env (trace s1) dest_dir = Some e ->
         process_dataset env input_dir output_dir copy_originals s
         = (Raise e, log (mkEvent (Mkdir dest_dir true true) (Some e)) s1))
        /\ forall copy r s2,
             process_file env input_dir output_dir copy src s1 = (r, s2) ->
             exists new,
               trace s2
               = trace s1 ++ mkEvent (Mkdir dest_dir true true)
                                     (os_mkdir env (trace s1) dest_dir) :: new).
Proof.
  intros Himg Hdone.
  assert (Hprop : forall s2,
    process_file env input_dir output_dir copy_originals src s1 = (Raise e, s2) ->
    process_dataset env input_dir output_dir copy_originals s = (Raise e, s2)).
  { intros s2 Hfile. unfold process_dataset. rewrite Himg.
    destruct (done_ ++ src :: rest) as [|x l] eqn:Hl; [by destruct done_|].
    rewrite <- Hl. unfold bind at 1. unfold init_counters at 1.
    unfold bind at 1. rewrite (for_each_app _ _ _ _ _ Hdone).
    by rewrite (for_each_raise _ _ _ _ _ _ Hfile). }
  split.
  - intros Hrel. apply Hprop. unfold process_file. by rewrite Hrel.
  - intros rel Hrel dest_dir. split.
    + intros Hmk. apply Hprop. by apply process_file_unprepared.
    + intros copy r s2 Hrun.
      destruct (process_file_trace env _ _ _ _ _ _ _ _ Hrel Hrun) as (new & Ht & _).
      by exists new.
Qed.


(** C10. Over a run that found images, the augmented counter ends equal to
    the number of successful [write_bytes] calls in the trace and the
    originals counter to the number of successful copies, and these are the
    two numbers the last line reports when the run returns.  Within one
    file, whether its augmentation ends normally or raises after some
    variants, the trace only grows and the counter has grown by the number
    of variants written: nothing is undone, and the handler, whether its
    [print] returns or raises, changes neither. *)
Theorem augmented_counts_writes {P : Pillow} (env : Env)
    (input_dir output_dir : Path) (copy_originals : bool) (s : State) :
  discover env input_dir <> [] ->
  let res := process_dataset env input_dir output_dir copy_originals s in
  (exists new,
     trace res.2 = trace s ++ new
     /\ num_augmented res.2 = writes_ok new
     /\ num_originals res.2 = copies_ok new
     /\ (forall v, res.1 = Ok v ->
           exists out, stdout res.2
                       = out ++ [MsgData (copies_ok new) (writes_ok new)]))
  /\ (forall src dest_dir s2,
        let file := augment_file env src dest_dir s2 in
        exists written,
          trace file.2 = trace s2 ++ written
          /\ num_augmented file.2 = (num_augmented s2 + writes_ok written)%nat
          /\ (try_except (augment_file env src dest_dir)
                         (fun e => print env (MsgSkipping src e)) s2).1
             = match file.1 with
               | Ok _ => Ok tt
               | Raise e =>
                   match os_print env (trace file.2) (stdout file.2)
                           (MsgSkipping src e) with
                   | None => Ok tt
                   | Some e' => Raise e'
                   end
               end
          /\ trace (try_except (augment_file env src dest_dir)
                               (fun e => print env (MsgSkipping src e)) s2).2
             = trace file.2
          /\ num_augmented (try_except (augment_file env src dest_dir)
                                       (fun e => print env (MsgSkipping src e)) s2).2
             = num_augmented file.2).
Proof.
  intros Hsome res. unfold res. clear res. split.
  - pose proof (wp_process_dataset env input_dir output_dir copy_originals s) as Hwp.
    unfold wp in Hwp.
    destruct (process_dataset env input_dir output_dir copy_originals s)
      as [[v|e] s'] eqn:Hres; cbn [fst snd].
    + destruct Hwp as [(Hnone & _)|(_ & -> & sL & (new & Ht & Hk & Hn) & ->)];
        [done|].
      exists new. simpl in *. rewrite Hk, Hn. repeat split; try done.
      intros v _. by eexists.
    + destruct Hwp as [(Hnone & _)|(_ & (new & Ht & Hk & Hn) & _)]; [done|].
      exists new. simpl in *. by repeat split.
  - intros src dest_dir s2. cbv zeta.
    pose proof (wp_augment_body env src dest_dir s2 s2
                  (progress_refl env src dest_dir s2)) as Hwp.
    unfold wp in Hwp. unfold try_except.
    destruct (augment_file env src dest_dir s2) as [[[]|e] s3];
      destruct Hwp as (written & out & Ht & _ & Hk & _);
      exists written; cbn [fst snd]; [by repeat split|].
    rewrite print_run.
    by destruct (os_print env (trace s3) (stdout s3) (MsgSkipping src e)).
Qed.

(** C8. Two runs of [process_dataset] on the same input tree, into two
    output roots below which the environment answers alike, make the same
    calls with the same bytes and the same outcomes at the same places
    relative to their roots, return the same value and count the same
    files; so at every relative location the two output trees hold the same
    content.  Pillow's transforms and encoder are functions. *)
Theorem two_runs_agree {P : Pillow} (env1 env2 : Env)
    (input_dir output1 output2 : Path) (copy_originals : bool) (s1 s2 : State) :
  env_rel output1 output2 env1 env2 ->
  (forall src, src ∈ rglob env1 input_dir -> below input_dir src) ->
  state_rel output1 output2 s1 s2 ->
  let res1 := process_dataset env1 input_dir output1 copy_originals s1 in
  let res2 := process_dataset env2 input_dir output2 copy_originals s2 in
  res1.1 = res2.1
  /\ Forall2 (event_rel output1 output2) (trace res1.2) (trace res2.2)
  /\ num_originals res1.2 = num_originals res2.2
  /\ num_augmented res1.2 = num_augmented res2.2
  /\ forall q, anchor q = "" ->
       output_tree (trace res1.2) !! (output1 // q)
       = output_tree (trace res2.2) !! (output2 // q).
Proof.
  intros Henv Hbelow Hs res1 res2.
  destruct (sim_process_dataset output1 output2 env1 env2 Henv input_dir
              copy_originals Hbelow s1 s2 Hs) as (Hr & _ & Ht & _ & Hn & Hk).
  repeat split; try done. by apply output_tree_rel.
Qed.

(** * The program run on examples *)

Module Examples.
Import Toy.

Lemma toy_spec : PillowSpec Toy.pillow.
Proof.
  split.
  - by intros m sz c d [= <-].
  - by intros d m d' [= <-].
  - by intros b d k b' [= <-].
Qed.

(** The scenario of the specification: three photos and a text file. *)
Example photos_run :
  let res := process_dataset (env photos opaque allow) input output true start in
  res.1 = Ok 0%Z
  /\ stdout res.2 = [MsgCompleted output; MsgData 3 24]
  /\ length (trace res.2) = 63%nat.
Proof. vm_compute. by repeat split. Qed.

Example photos_run_without_originals :
  let res := process_dataset (env photos opaque allow) input output false start in
  res.1 = Ok 0%Z /\ stdout res.2 = [MsgCompleted output; MsgData 0 24].
Proof. vm_compute. by repeat split. Qed.

Example lower_PNG : Str.lower ".PNG" = ".png".
Proof. reflexivity. Qed.

Example suffix_car : PurePath.suffix car = ".png" /\ PurePath.stem car = "car".
Proof. split; reflexivity. Qed.

Example save_format_examples :
  save_format ".JPG" = "JPEG" /\ save_format ".gif" = "PNG".
Proof. split; vm_compute; reflexivity. Qed.

End Examples.

Lemma augmentations_eight_witness :
  let s := mkState (P := Toy.pillow) [Toy.rgb] [] [] 0 0 in
  heap s !! 0%nat = Some Toy.rgb
  /\ (collect (augmentations 0%nat) s).1
     = Ok (zip variant_tags (seq 1 8)).
Proof.
  intros s. split; [reflexivity|].
  destruct (augmentations_eight_from_base (P := Toy.pillow) 0%nat Toy.rgb s eq_refl)
    as (_ & _ & _ & Hc & _).
  erewrite Hc; [reflexivity|]. repeat constructor.
Defined.

Lemma convert_rgb_normalizes_witness :
  let s := mkState (P := Toy.pillow) [Toy.rgba] [] [] 0 0 in
  heap s !! 0%nat = Some Toy.rgba
  /\ exists r s',
       convert_rgb 0%nat white s = (r, s')
       /\ heap s' !! 0%nat = Some Toy.rgba
       /\ match r with
          | Ok out => exists d', heap s' !! out = Some d' /\ pil_mode d' = "RGB"
          | Raise _ => False
          end.
Proof.
  intros s. split; [reflexivity|].
  destruct (convert_rgb_normalizes Examples.toy_spec 0%nat Toy.rgba s eq_refl)
    as (r & s' & Hrun & _ & Hsame & Hres & _).
  exists r, s'. split; [exact Hrun|]. split; [by apply Hsame|].
  destruct r as [out|e].
  - destruct Hres as (d' & Hd' & _ & Hmode). by exists d'.
  - discriminate Hres.
Defined.

Lemma guarantee_rgb_for_jpeg_safe_witness :
  let env := Toy.env [Toy.boat] Toy.transparent Toy.allow in
  let s0 := mkState (P := Toy.pillow) [Toy.rgba] [] [] 0 0 in
  let run := process_file env Toy.input Toy.output true Toy.boat Toy.start in
  heap s0 !! 0%nat = Some Toy.rgba
  /\ (guarantee_rgb_for_jpeg 0%nat ".jpg" s0).1 = Ok 1%nat
  /\ exists new,
       trace run.2 = new
       /\ forall saved fmt options o,
            mkEvent (ImageSave saved fmt options) o ∈ new ->
            pil_mode saved = "RGB" \/ pil_mode saved = "L".
Proof.
  intros env s0 run. split; [reflexivity|].
  destruct (guarantee_rgb_for_jpeg_safe Examples.toy_spec env 0%nat Toy.rgba ".jpg" s0
              Toy.input Toy.output true Toy.boat Toy.start run.1 run.2 eq_refl
              (surjective_pairing _)) as (Hg & new & Ht & Hsaved).
  split; [by rewrite Hg|]. exists new. split; [exact Ht|].
  intros saved fmt options o Hin.
  destruct (Hsaved saved fmt options o Hin) as [Hmode _]. apply Hmode. by left.
Defined.

Lemma outputs_mirror_tree_witness :
  let env := Toy.env Toy.photos Toy.opaque Toy.allow in
  let R := mkPath "" ["photos"; "car.png"] in
  let run := process_file env Toy.input Toy.output true (Toy.input // R) Toy.start in
  anchor R = "" /\ parts R <> [] /\ true_image env (Toy.input // R) = true
  /\ exists new,
       trace run.2
       = mkEvent (Mkdir (mkPath "" ["out"; "photos"]) true true) None :: new
       /\ forall ev p, ev ∈ new -> target (ev_call ev) = Some p ->
            PurePath.parent p = mkPath "" ["out"; "photos"].
Proof.
  intros env R run. split; [reflexivity|]. split; [discriminate|].
  split; [reflexivity|].
  destruct (outputs_mirror_tree env Toy.input Toy.output true R Toy.start
              run.1 run.2 eq_refl ltac:(discriminate) eq_refl
              (surjective_pairing _)) as (new & Ht & Hnew).
  exists new. split; [exact Ht|]. intros ev p Hin Htarget.
  by destruct (Hnew ev p Hin Htarget).
Defined.

(** C2 as stated fails: the variants of [A.PNG] are written as [.png]. *)
Lemma variant_extension_counterexample :
  let env := Toy.env [Toy.upper] Toy.opaque Toy.allow in
  let res := process_dataset env Toy.input Toy.output false Toy.start in
  true_image env Toy.upper = true
  /\ PurePath.suffix Toy.upper = ".PNG"
  /\ exists p data,
       trace res.2 !! 4%nat = Some (mkEvent (WriteBytes p data) None)
       /\ p = mkPath "" ["out"; "A__flipHorizontal.png"]
       /\ PurePath.suffix p = ".png"
       /\ PurePath.suffix p <> PurePath.suffix Toy.upper.
Proof.
  intros env res. split; [reflexivity|]. split; [reflexivity|].
  eexists _, _. split; [vm_compute; reflexivity|]. by repeat split.
Qed.

Lemma variant_extension_lowercase_witness :
  let env := Toy.env [Toy.upper] Toy.opaque Toy.allow in
  let run := process_file env Toy.input Toy.output false Toy.upper Toy.start in
  true_image env Toy.upper = true
  /\ exists new,
       trace run.2 = new
       /\ forall ev p data, ev ∈ new -> ev_call ev = WriteBytes p data ->
            PurePath.suffix p = ".png".
Proof.
  intros env run. split; [reflexivity|].
  destruct (variant_extension_lowercase env Toy.input Toy.output false Toy.upper
              Toy.start run.1 run.2 eq_refl (surjective_pairing _))
    as (new & Ht & Hnew).
  exists new. split; [exact Ht|]. intros ev p data Hin Hcall.
  destruct (Hnew ev Hin) as [Hw _]. by destruct (Hw p data Hcall) as [-> _].
Defined.

(** C3 as stated fails: the diagnostic about a file that cannot be
    decoded cannot be printed, the exception of [print] ends the run, and
    the next file is never looked at. *)
Lemma per_file_failure_counterexample :
  let env := Toy.mute (Toy.unprintable Toy.boat)
                      (Toy.env Toy.photos Toy.corrupt Toy.allow) in
  let room := mkPath "" ["in"; "photos"; "room.jpg"] in
  let res := process_dataset env Toy.input Toy.output true Toy.start in
  let opens ev := match ev_call ev with ImageOpen _ => true | _ => false end in
  discover env Toy.input = [Toy.car; Toy.boat; room]
  /\ res.1 = Raise "UnicodeEncodeError"
  /\ List.filter opens (trace res.2)
     = [mkEvent (ImageOpen Toy.car) None;
        mkEvent (ImageOpen Toy.boat) (Some "UnidentifiedImageError")]
  /\ stdout res.2 = [].
Proof. intros env room res opens. vm_compute. by repeat split. Qed.

Lemma per_file_failure_isolation_witness :
  let env := Toy.env Toy.photos Toy.corrupt Toy.no_copy in
  let rel := mkPath "" ["photos"; "boat.jpg"] in
  let run := process_file env Toy.input Toy.output true Toy.boat Toy.start in
  PurePath.relative_to Toy.boat Toy.input = Ok rel
  /\ os_mkdir env (trace Toy.start) (PurePath.parent (Toy.output // rel)) = None
  /\ (forall tr out m, os_print env tr out m = None)
  /\ run.1 = Ok tt
  /\ stdout run.2 = [MsgCopyFailed Toy.boat "OSError";
                     MsgSkipping Toy.boat "UnidentifiedImageError"]
  /\ for_each [Toy.boat; Toy.car] (process_file env Toy.input Toy.output true) Toy.start
     = for_each [Toy.car] (process_file env Toy.input Toy.output true) run.2.
Proof.
  intros env rel run. split; [reflexivity|]. split; [reflexivity|].
  assert (Hprint : forall tr out m, os_print env tr out m = None) by reflexivity.
  split; [exact Hprint|].
  destruct (per_file_failure_isolation env Toy.input Toy.output true Toy.boat rel
              [Toy.car] Toy.start eq_refl eq_refl) as (_ & _ & _ & Hnext & _ & Hret).
  destruct (Hret Hprint) as (s' & Hrun).
  assert (Hs' : run.2 = s') by (unfold run; by rewrite Hrun).
  split; [unfold run; by rewrite Hrun|]. split; [vm_compute; reflexivity|].
  rewrite Hs'. by apply Hnext.
Defined.

Lemma prepare_failure_propagates_witness :
  let env := Toy.env Toy.photos Toy.opaque Toy.no_mkdir in
  discover env Toy.input = [] ++ Toy.car :: [Toy.boat; mkPath "" ["in"; "photos"; "room.jpg"]]
  /\ for_each [] (process_file env Toy.input Toy.output false)
       (set_counters 0 0 Toy.start) = (Ok tt, Toy.start)
  /\ process_dataset env Toy.input Toy.output false Toy.start
     = (Raise "PermissionError",
        log (mkEvent (Mkdir (mkPath "" ["out"; "photos"]) true true)
                     (Some "PermissionError")) Toy.start).
Proof.
  intros env. split; [reflexivity|]. split; [reflexivity|].
  destruct (prepare_failure_propagates env Toy.input Toy.output false [] Toy.car
              [Toy.boat; mkPath "" ["in"; "photos"; "room.jpg"]]
              Toy.start Toy.start "PermissionError" eq_refl eq_refl) as [_ Hmk].
  destruct (Hmk (mkPath "" ["photos"; "car.png"]) eq_refl) as [Hraise _].
  by apply Hraise.
Defined.



Lemma augmented_counts_writes_witness :
  let env := Toy.env Toy.photos Toy.opaque Toy.no_rotate270 in
  let res := process_dataset env Toy.input Toy.output true Toy.start in
  discover env Toy.input <> []
  /\ num_augmented res.2 = 19%nat
  /\ writes_ok (trace res.2) = 19%nat
  /\ stdout res.2 = [MsgSkipping Toy.car "OSError"; MsgCompleted Toy.output;
                     MsgData 3 19].
Proof.
  intros env res.
  assert (Hsome : discover env Toy.input <> []) by done.
  split; [exact Hsome|].
  destruct (augmented_counts_writes env Toy.input Toy.output true Toy.start Hsome)
    as [(new & Ht & Hk & _) _].
  fold res in Ht, Hk. simpl in Ht. subst new.
  split; [rewrite Hk|split]; vm_compute; reflexivity.
Defined.

Lemma two_runs_agree_witness :
  let env := Toy.env Toy.photos Toy.corrupt Toy.allow in
  let res1 := process_dataset env Toy.input Toy.output true Toy.start in
  let res2 := process_dataset env Toy.input Toy.output' true Toy.start in
  let q := mkPath "" ["photos"; "car__blur.png"] in
  env_rel Toy.output Toy.output' env env
  /\ (forall src, src ∈ rglob env Toy.input -> below Toy.input src)
  /\ state_rel Toy.output Toy.output' Toy.start Toy.start
  /\ res1.1 = res2.1
  /\ num_augmented res1.2 = num_augmented res2.2
  /\ output_tree (trace res1.2) !! (Toy.output // q)
     = output_tree (trace res2.2) !! (Toy.output' // q)
  /\ is_Some (output_tree (trace res1.2) !! (Toy.output // q)).
Proof.
  intros env res1 res2 q.
  assert (Henv : env_rel Toy.output Toy.output' env env) by (by repeat split).
  assert (Hbelow : forall src, src ∈ rglob env Toy.input -> below Toy.input src).
  { intros src Hsrc. change (rglob env Toy.input) with Toy.photos in Hsrc.
    unfold Toy.photos in Hsrc. rewrite !elem_of_cons, elem_of_nil in Hsrc.
    destruct Hsrc as [->|[->|[->|[->|[]]]]];
      [exists (mkPath "" ["photos"; "car.png"])
      |exists (mkPath "" ["photos"; "boat.jpg"])
      |exists (mkPath "" ["photos"; "room.jpg"])
      |exists (mkPath "" ["notes.txt"])]; by repeat split. }
  assert (Hstart : state_rel Toy.output Toy.output' Toy.start Toy.start)
    by (repeat split; constructor).
  split; [exact Henv|]. split; [exact Hbelow|]. split; [exact Hstart|].
  destruct (two_runs_agree env env Toy.input Toy.output Toy.output' true
              Toy.start Toy.start Henv Hbelow Hstart) as (Hr & _ & _ & Hk & Htree).
  split; [exact Hr|]. split; [exact Hk|]. split; [by apply Htree|].
  vm_compute. by eexists.
Defined.

(** * Further properties of the code *)

(** ** Invariants of the trace and of the printed lines *)

Section Keeps.
Context {P : Pillow}.
Variable Inv : State -> Prop.

Lemma keeps_ret {A} (a : A) : keeps Inv (ret a).
Proof. by intros s Hs. Qed.

Lemma keeps_lift {A} (r : Result A) : keeps Inv (lift r).
Proof. by intros s Hs. Qed.

Lemma keeps_bind {A B} (m : M A) (k : A -> M B) :
  keeps Inv m -> (forall a, keeps Inv (k a)) -> keeps Inv (bind m k).
Proof.
  intros Hm Hk s Hs. specialize (Hm s Hs). unfold bind.
  destruct (m s) as [[a|e] s1]; [by apply Hk|done].
Qed.

Lemma keeps_try {A} (m : M A) h :
  keeps Inv m -> (forall e, keeps Inv (h e)) -> keeps Inv (try_except m h).
Proof.
  intros Hm Hh s Hs. specialize (Hm s Hs). unfold try_except.
  destruct (m s) as [[a|e] s1]; [done|by apply Hh].
Qed.

Lemma keeps_with_as {A B} (enter : M A) leave (body : A -> M B) :
  keeps Inv enter -> (forall x, keeps Inv (leave x)) -> (forall x, keeps Inv (body x)) ->
  keeps Inv (with_as enter leave body).
Proof.
  intros He Hl Hb. apply keeps_bind; [done|]. intros x. apply keeps_bind.
  - apply keeps_try; [done|]. intros e. apply keeps_bind; [done|].
    intros _. apply keeps_lift.
  - intros b. apply keeps_bind; [done|]. intros _. apply keeps_ret.
Qed.

Lemma keeps_for_each {A} (l : list A) (body : A -> M unit) :
  (forall x, x ∈ l -> keeps Inv (body x)) -> keeps Inv (for_each l body).
Proof.
  induction l as [|x l IH]; intros Hb; [apply keeps_ret|].
  simpl. apply keeps_bind; [apply Hb; set_solver|].
  intros _. apply IH. intros y Hy. apply Hb. set_solver.
Qed.

Lemma keeps_for_gen {A} (g : list (M A)) (body : A -> M unit) :
  (forall step, step ∈ g -> keeps Inv (bind step body)) -> keeps Inv (for_gen g body).
Proof.
  induction g as [|x g IH]; intros Hb; [apply keeps_ret|].
  simpl. apply keeps_bind; [apply Hb; set_solver|].
  intros _. apply IH. intros y Hy. apply Hb. set_solver.
Qed.

(** A step of a generator followed by the body of the loop: the tag the
    body receives is the one the step yields. *)
Lemma keeps_yield name (m : M ref) (body : string * ref -> M unit) :
  keeps Inv m -> (forall v, keeps Inv (body (name, v))) ->
  keeps Inv (bind (yield name m) body).
Proof.
  intros Hm Hk s Hs. specialize (Hm s Hs). unfold yield, bind, ret.
  destruct (m s) as [[v|e] s1]; [by apply Hk|done].
Qed.

Lemma keeps_emit ev : accepts Inv ev -> keeps Inv (emit ev).
Proof. intros H s Hs. by apply H. Qed.

Lemma keeps_outcome r : keeps Inv (outcome r).
Proof. destruct r; [apply keeps_lift|apply keeps_ret]. Qed.

Hypothesis Hblind : heap_blind Inv.

Lemma keeps_blind {A} (m : M A) :
  (forall s, trace (m s).2 = trace s /\ stdout (m s).2 = stdout s) -> keeps Inv m.
Proof. intros Hm s Hs. destruct (Hm s) as [Ht Ho]. by eapply Hblind. Qed.

Lemma keeps_alloc d : keeps Inv (alloc d).
Proof. by apply keeps_blind. Qed.

Lemma keeps_deref (r : ref) : keeps Inv (deref r).
Proof. apply keeps_blind. intros s. unfold deref. by destruct (heap s !! r). Qed.

Lemma keeps_assign (r : ref) d : keeps Inv (assign r d).
Proof. by apply keeps_blind. Qed.

Lemma keeps_init_counters : keeps Inv init_counters.
Proof. by apply keeps_blind. Qed.

Lemma keeps_incr_originals : keeps Inv incr_originals.
Proof. by apply keeps_blind. Qed.

Lemma keeps_incr_augmented : keeps Inv incr_augmented.
Proof. by apply keeps_blind. Qed.

Lemma keeps_get {A} (f : State -> A) : keeps Inv (get f).
Proof. by apply keeps_blind. Qed.

Lemma keeps_Image_apply f (im : ref) : keeps Inv (Image_apply f im).
Proof.
  apply keeps_bind; [apply keeps_deref|]. intros d.
  apply keeps_bind; [apply keeps_lift|]. intros d'. apply keeps_alloc.
Qed.

Lemma keeps_Image_mode (im : ref) : keeps Inv (Image_mode im).
Proof. apply keeps_bind; [apply keeps_deref|]. intros d. apply keeps_ret. Qed.

Lemma keeps_convert_rgb (im : ref) bg : keeps Inv (convert_rgb im bg).
Proof.
  apply keeps_bind; [apply keeps_Image_mode|]. intros mode.
  destruct (bool_decide (mode = "RGB")); [apply keeps_ret|].
  destruct (bool_decide (mode ∈ ["RGBA"; "LA"]));
    [|apply (keeps_Image_apply (fun d => pil_convert d "RGB"))].
  apply keeps_bind.
  { apply keeps_bind; [apply keeps_deref|]. intros d. apply keeps_ret. }
  intros size. apply keeps_bind.
  { apply keeps_bind; [apply keeps_lift|]. intros d. apply keeps_alloc. }
  intros base. apply keeps_bind.
  { apply (keeps_Image_apply (fun d => pil_convert d "RGB")). }
  intros rgb. apply keeps_bind.
  { apply (keeps_Image_apply (fun d => pil_getchannel d "A")). }
  intros alpha. apply keeps_bind; [|intros _; apply keeps_ret].
  apply keeps_bind; [apply keeps_deref|]. intros b.
  apply keeps_bind; [apply keeps_deref|]. intros d.
  apply keeps_bind; [apply keeps_deref|]. intros k.
  apply keeps_bind; [apply keeps_lift|]. intros b'. apply keeps_assign.
Qed.

Lemma keeps_guarantee (im : ref) ext : keeps Inv (guarantee_rgb_for_jpeg im ext).
Proof.
  unfold guarantee_rgb_for_jpeg. destruct (bool_decide (ext ∈ _)); [|apply keeps_ret].
  apply keeps_bind; [apply keeps_Image_mode|]. intros mode.
  destruct (negb _); [apply (keeps_Image_apply (fun d => pil_convert d "RGB"))
                     |apply keeps_ret].
Qed.

Lemma keeps_save_image (im : ref) ext :
  (forall d o, accepts Inv (mkEvent (ImageSave d (save_format ext)
                                             (save_options (save_format ext))) o)) ->
  keeps Inv (save_image im ext).
Proof.
  intros Hev. apply keeps_bind; [apply keeps_deref|]. intros d.
  destruct (pil_save d _ _) as [data|e].
  - apply keeps_bind; [by apply keeps_emit|]. intros _. apply keeps_ret.
  - apply keeps_bind; [by apply keeps_emit|]. intros _. apply keeps_lift.
Qed.

Variable env : Env.

Lemma keeps_print m : accepts_msg Inv m -> keeps Inv (print env m).
Proof.
  intros H s Hs. unfold print.
  destruct (os_print env (trace s) (stdout s) m); [done|by apply H].
Qed.

Lemma keeps_mkdir p a b :
  (forall o, accepts Inv (mkEvent (Mkdir p a b) o)) -> keeps Inv (Path_mkdir env p a b).
Proof.
  intros Hev. apply keeps_bind; [apply keeps_get|]. intros tr.
  apply keeps_bind; [by apply keeps_emit|]. intros _. apply keeps_outcome.
Qed.

Lemma keeps_copy2 src dst :
  (forall o, accepts Inv (mkEvent (Copy2 src dst) o)) -> keeps Inv (shutil_copy2 env src dst).
Proof.
  intros Hev. apply keeps_bind; [apply keeps_get|]. intros tr.
  apply keeps_bind; [by apply keeps_emit|]. intros _. apply keeps_outcome.
Qed.

Lemma keeps_write_bytes p data :
  (forall o, accepts Inv (mkEvent (WriteBytes p data) o)) ->
  keeps Inv (Path_write_bytes env p data).
Proof.
  intros Hev. apply keeps_bind; [apply keeps_get|]. intros tr.
  apply keeps_bind; [by apply keeps_emit|]. intros _. apply keeps_outcome.
Qed.

Lemma keeps_open src :
  (forall o, accepts Inv (mkEvent (ImageOpen src) o)) -> keeps Inv (Image_open env src).
Proof.
  intros Hev. apply keeps_bind; [apply keeps_get|]. intros tr.
  destruct (os_open_image env tr src) as [d|e].
  - apply keeps_bind; [by apply keeps_emit|]. intros _. apply keeps_alloc.
  - apply keeps_bind; [by apply keeps_emit|]. intros _. apply keeps_lift.
Qed.

Lemma keeps_load (im : ref) :
  (forall o, accepts Inv (mkEvent (ImageLoad im) o)) -> keeps Inv (Image_load env im).
Proof.
  intros Hev. apply keeps_bind; [apply keeps_get|]. intros tr.
  apply keeps_bind; [by apply keeps_emit|]. intros _. apply keeps_outcome.
Qed.

(** The body of the [with] block: loading, normalizing and the loop over
    the variants. *)
Lemma keeps_variants src dest_dir (im : ref) :
  let ext := Str.lower (PurePath.suffix src) in
  (forall o, accepts Inv (mkEvent (ImageLoad im) o)) ->
  (forall d o, accepts Inv (mkEvent (ImageSave d (save_format ext)
                                             (save_options (save_format ext))) o)) ->
  (forall tag data o, tag ∈ variant_tags ->
     accepts Inv (mkEvent (WriteBytes (dest_dir /: out_name src tag ext) data) o)) ->
  keeps Inv (Image_load env im >>
           let* base := convert_rgb im white in
           for_gen (augmentations base) (write_variant env src dest_dir ext)).
Proof.
  intros ext Hld Hsv Hwr. apply keeps_bind; [by apply keeps_load|]. intros _.
  apply keeps_bind; [apply keeps_convert_rgb|]. intros base.
  apply keeps_for_gen. intros step (name & f & Hin & ->)%spec_variants_steps.
  assert (Htag : name ∈ variant_tags).
  { change variant_tags with (map fst spec_variants).
    apply list_elem_of_fmap. by exists (name, f). }
  apply keeps_yield; [apply keeps_Image_apply|]. intros v.
  unfold write_variant. simpl fst. simpl snd.
  apply keeps_bind; [apply keeps_guarantee|]. intros aug.
  apply keeps_bind; [by apply keeps_save_image|]. intros data.
  apply keeps_bind; [|intros _; apply keeps_incr_augmented].
  apply keeps_write_bytes. intros o. by apply Hwr.
Qed.

End Keeps.

(** ** The calls and the lines of a file and of a run *)

Section Emits.
Context {P : Pillow}.
Variables (ok : Event -> Prop) (said : Msg -> Prop).

Lemma emits_refl s : emits ok said s s.
Proof. exists [], []. by rewrite !app_nil_r. Qed.

Lemma emits_blind s0 : heap_blind (emits ok said s0).
Proof.
  intros s s' Ht Ho (new & out & Hn & Hok & Hout & Hsaid).
  exists new, out. by rewrite <- Ht, <- Ho.
Qed.

Lemma emits_accepts s0 ev : ok ev -> accepts (emits ok said s0) ev.
Proof.
  intros Hev s (new & out & Hn & Hok & Hout & Hsaid).
  exists (new ++ [ev]), out. simpl. rewrite Hn, <- app_assoc.
  repeat split; [|done|done]. apply Forall_app. by split; [|constructor].
Qed.

Lemma emits_accepts_msg s0 m : said m -> accepts_msg (emits ok said s0) m.
Proof.
  intros Hm s (new & out & Hn & Hok & Hout & Hsaid).
  exists new, (out ++ [m]). simpl. rewrite Hout, <- app_assoc.
  repeat split; [done|done|]. apply Forall_app. by split; [|constructor].
Qed.

Lemma emits_trans s0 s1 s2 :
  emits ok said s0 s1 -> emits ok said s1 s2 -> emits ok said s0 s2.
Proof.
  intros (n1 & o1 & Hn1 & Hok1 & Ho1 & Hs1) (n2 & o2 & Hn2 & Hok2 & Ho2 & Hs2).
  exists (n1 ++ n2), (o1 ++ o2). rewrite Hn2, Hn1, Ho2, Ho1, <- !app_assoc.
  repeat split; try done; by apply Forall_app.
Qed.

End Emits.

Lemma emits_mono `{P : Pillow} (ok ok' : Event -> Prop) (said said' : Msg -> Prop) s0 s :
  (forall ev, ok ev -> ok' ev) -> (forall m, said m -> said' m) ->
  emits ok said s0 s -> emits ok' said' s0 s.
Proof.
  intros Hok Hsaid (new & out & Hn & Hnew & Ho & Hout). exists new, out.
  repeat split; [done| |done|]; eapply Forall_impl; eauto.
Qed.

Section FileKeeps.
Context {P : Pillow}.
Variable env : Env.
Variable Inv : State -> Prop.
Hypothesis Hblind : heap_blind Inv.

(** [process_file] keeps whatever the calls and the lines of its file
    keep. *)
Lemma keeps_augment_file copy_originals src dest_dir :
  (forall ev, may_emit copy_originals src dest_dir ev -> accepts Inv ev) ->
  keeps Inv (augment_file env src dest_dir).
Proof.
  intros Hev. unfold augment_file. apply keeps_with_as.
  - apply keeps_open; [done|]. intros o. apply Hev. constructor.
  - intros im. apply keeps_emit, Hev. constructor.
  - intros im. apply keeps_variants; [done| | |].
    + intros o. apply Hev. constructor.
    + intros d o. apply Hev. constructor.
    + intros tag data o Htag. apply Hev. by constructor.
Qed.

Lemma keeps_copy_original src dest_dir :
  (forall o, accepts Inv (mkEvent (Copy2 src (dest_dir /: PurePath.name src)) o)) ->
  (forall e, accepts_msg Inv (MsgCopyFailed src e)) ->
  keeps Inv (copy_original env src dest_dir).
Proof.
  intros Hev Hmsg. unfold copy_original. apply keeps_try.
  - apply keeps_bind; [|intros _; by apply keeps_incr_originals].
    by apply keeps_copy2.
  - intros e. by apply keeps_print.
Qed.

Lemma keeps_process_file input_dir output_dir copy_originals src :
  (forall rel ev,
     PurePath.relative_to src input_dir = Ok rel ->
     may_emit copy_originals src (PurePath.parent (output_dir // rel)) ev ->
     accepts Inv ev) ->
  (forall m, may_say copy_originals src m -> accepts_msg Inv m) ->
  keeps Inv (process_file env input_dir output_dir copy_originals src).
Proof.
  intros Hev Hmsg. unfold process_file.
  destruct (PurePath.relative_to src input_dir) as [rel|e] eqn:Hrel;
    [|by intros s Hs].
  change (bind (lift (Ok rel)) ?k) with (k rel). cbv beta zeta.
  specialize (Hev rel). set (dest_dir := PurePath.parent (output_dir // rel)) in *.
  assert (Hev' : forall ev, may_emit copy_originals src dest_dir ev -> accepts Inv ev)
    by (intros ev; by apply Hev).
  apply keeps_bind.
  { apply keeps_mkdir; [done|]. intros o. apply Hev'. constructor. }
  intros _. apply keeps_bind.
  { destruct copy_originals eqn:Hc; [|apply keeps_ret].
    apply keeps_copy_original.
    - intros o. apply Hev'. by constructor.
    - intros e. apply Hmsg. by constructor. }
  intros _. apply keeps_try; [by eapply keeps_augment_file|].
  intros e. apply keeps_print, Hmsg. constructor.
Qed.

Lemma keeps_files input_dir output_dir copy_originals :
  (forall ev, run_may_emit env input_dir output_dir copy_originals ev ->
              accepts Inv ev) ->
  (forall m, run_may_say env input_dir copy_originals m -> accepts_msg Inv m) ->
  keeps Inv (for_each (discover env input_dir)
               (process_file env input_dir output_dir copy_originals)).
Proof.
  intros Hev Hmsg. apply keeps_for_each. intros src Hsrc.
  apply keeps_process_file.
  - intros rel ev Hrel Hme. apply Hev. by exists src, rel.
  - intros m Hm. apply Hmsg. by exists src.
Qed.

End FileKeeps.

Section RunEmits.
Context {P : Pillow}.
Variable env : Env.

(** The calls [process_file] makes are those of its file. *)
Lemma process_file_emits input_dir output_dir copy_originals src rel s :
  PurePath.relative_to src input_dir = Ok rel ->
  emits (may_emit copy_originals src (PurePath.parent (output_dir // rel)))
        (may_say copy_originals src) s
        (process_file env input_dir output_dir copy_originals src s).2.
Proof.
  intros Hrel.
  apply (keeps_process_file env _ (emits_blind _ _ s)); [| |apply emits_refl].
  - intros rel' ev Hrel' Hev. rewrite Hrel in Hrel'. injection Hrel' as <-.
    by apply emits_accepts.
  - intros m Hm. by apply emits_accepts_msg.
Qed.

Lemma files_emit input_dir output_dir copy_originals s :
  emits (run_may_emit env input_dir output_dir copy_originals)
        (run_may_say env input_dir copy_originals) s
        (for_each (discover env input_dir)
           (process_file env input_dir output_dir copy_originals) s).2.
Proof.
  apply (keeps_files env _ (emits_blind _ _ s)); [| |apply emits_refl].
  - intros ev Hev. by apply emits_accepts.
  - intros m Hm. by apply emits_accepts_msg.
Qed.

End RunEmits.

(** ** More on strings and paths *)

Module StrMore.
Import Str StrFacts.

Lemma append_nil_r s : s +:+ "" = s.
Proof. induction s as [|a s IH]; [done|]. by rewrite append_cons, IH. Qed.

Lemma append_inv_head s t u : s +:+ t = s +:+ u -> t = u.
Proof.
  induction s as [|a s IH]; [done|]. rewrite !append_cons. intros [= H]. by apply IH.
Qed.

Lemma append_inv_tail s t u : t +:+ s = u +:+ s -> t = u.
Proof.
  intros H. assert (Hlen : String.length t = String.length u).
  { apply (f_equal String.length) in H. rewrite !length_append in H. lia. }
  rewrite <- (take_append t s), <- (take_append u s), H. by rewrite Hlen.
Qed.

Lemma take_drop i s : take i s +:+ drop i s = s.
Proof.
  revert s. induction i as [|i IH]; intros [|a s]; simpl; try done.
  by rewrite append_cons, IH.
Qed.

Lemma rindex_none c s : rindex c s = None -> mem c s = false.
Proof.
  induction s as [|a s IH]; simpl; [done|].
  destruct (rindex c s); [done|]. rewrite IH by done.
  by destruct (bool_decide (a = c)).
Qed.

(** The last occurrence of a character splits a string. *)
Lemma rindex_split c s i :
  rindex c s = Some i ->
  s = take i s +:+ String c (drop (S i) s)
  /\ mem c (drop (S i) s) = false
  /\ String.length (take i s) = i.
Proof.
  revert i. induction s as [|a s IH]; intros i; simpl; [done|].
  destruct (rindex c s) as [j|] eqn:Hj.
  - intros [= <-]. destruct (IH j eq_refl) as (Hs & Hm & Hl).
    change (drop (S (S j)) (String a s)) with (drop (S j) s).
    change (take (S j) (String a s)) with (String a (take j s)).
    rewrite append_cons. simpl String.length. rewrite Hl. by rewrite <- Hs.
  - destruct (bool_decide (a = c)) eqn:Ha; [|done]. intros [= <-].
    apply bool_decide_eq_true_1 in Ha as ->. simpl.
    split; [done|]. split; [|done]. destruct s; [done|]. by apply rindex_none.
Qed.

(** Two strings that end in a separator and a part free of it agree part
    by part. *)
Lemma append_sep_inj c s1 e1 s2 e2 :
  mem c e1 = false -> mem c e2 = false ->
  s1 +:+ String c e1 = s2 +:+ String c e2 -> s1 = s2 /\ e1 = e2.
Proof.
  intros H1 H2 H. pose proof (rindex_append c s1 e1 H1) as R1.
  pose proof (rindex_append c s2 e2 H2) as R2. rewrite H in R1.
  rewrite R2 in R1. injection R1 as Hlen.
  assert (s1 = s2) as ->.
  { rewrite <- (take_append s1 (String c e1)), <- (take_append s2 (String c e2)).
    by rewrite H, Hlen. }
  split; [done|]. by apply append_inv_head in H as [= ->].
Qed.

Lemma lower_ascii_dot c : lower_ascii c = "."%char -> c = "."%char.
Proof. by destruct c as [[] [] [] [] [] [] [] []]. Qed.

Lemma mem_dot_lower s : mem "." (lower s) = mem "." s.
Proof.
  induction s as [|a s IH]; [done|]. simpl. rewrite IH. f_equal.
  apply bool_decide_ext. split; [apply lower_ascii_dot|by intros ->].
Qed.

Lemma lower_nonempty s : lower s <> "" -> s <> "".
Proof. by destruct s. Qed.

Lemma length_lower s : String.length (lower s) = String.length s.
Proof. induction s as [|a s IH]; [done|]. simpl. by rewrite IH. Qed.

End StrMore.

Module PathMore.
Import PurePath StrFacts StrMore PathFacts.

(** A name with a suffix is a non-empty stem, a dot and a non-empty
    dot-free extension. *)
Lemma name_split n :
  name_suffix n <> "" ->
  exists st e, n = st +:+ String "." e /\ st <> "" /\ e <> ""
               /\ Str.mem "." e = false.
Proof.
  unfold name_suffix, Str.rfind, Str.len.
  destruct (Str.rindex "." n) as [i|] eqn:Hi; [|done].
  destruct ((0 <? Z.of_nat i) && (Z.of_nat i <? Z.of_nat (String.length n) - 1))%Z
    eqn:Hc; [|done].
  intros _. apply andb_true_iff in Hc as [H0%Z.ltb_lt Hn%Z.ltb_lt].
  destruct (rindex_split _ _ _ Hi) as (Hs & Hm & Hl).
  exists (Str.take i n), (Str.drop (S i) n). repeat split; [done| |  |done].
  - intros E. rewrite E in Hl. simpl in Hl. lia.
  - intros E. rewrite E in Hs. apply (f_equal String.length) in Hs.
    rewrite length_append, Hl in Hs. simpl in Hs. lia.
Qed.

Lemma stem_suffix n : name_stem n +:+ name_suffix n = n.
Proof.
  unfold name_stem, name_suffix. destruct (_ && _); [apply take_drop|apply append_nil_r].
Qed.

(** A suffix is empty or starts with a dot. *)
Lemma suffix_dot n : name_suffix n = "" \/ exists e, name_suffix n = String "." e.
Proof.
  destruct (decide (name_suffix n = "")) as [|Hne]; [by left|right].
  destruct (name_split n Hne) as (st & e & -> & Hst & He & Hm).
  exists e. by apply dot_split.
Qed.

Lemma join_name_inj d n1 n2 : n1 <> "" -> n2 <> "" -> d /: n1 = d /: n2 -> n1 = n2.
Proof.
  intros H1 H2. unfold join_name. rewrite !bool_decide_eq_false_2 by done.
  intros [= H%app_inv_head]. by injection H.
Qed.

Lemma join_name_fresh d n : n <> "" -> d /: n <> d.
Proof.
  intros Hn. unfold join_name. rewrite bool_decide_eq_false_2 by done.
  destruct d as [a l]. simpl. intros [= H]. apply (f_equal length) in H.
  rewrite length_app in H. simpl in H. lia.
Qed.

Lemma joined_to_join_name root p n : joined_to root p -> joined_to root (p /: n).
Proof.
  intros (q & Hq & ->). exists (q /: n).
  unfold join_name, join. destruct (bool_decide (n = "")); simpl; rewrite Hq; simpl;
    [done|]. by rewrite app_assoc.
Qed.

End PathMore.

(** ** Which files are accepted, and the names of the files written *)

Lemma tag_no_underscore tag : tag ∈ variant_tags -> Str.mem "_" tag = false.
Proof.
  unfold variant_tags. rewrite !elem_of_cons, elem_of_nil.
  intros H. repeat (destruct H as [->|H]; [done|]). done.
Qed.

Lemma out_name_nonempty src tag ext : out_name src tag ext <> "".
Proof.
  unfold out_name. apply StrFacts.append_nonempty_r.
  by rewrite StrFacts.append_cons.
Qed.

Lemma out_name_split src tag e :
  out_name src tag (String "." e)
  = ((PurePath.stem src +:+ "_") +:+ String "_" tag) +:+ String "." e.
Proof. unfold out_name. by rewrite !StrFacts.append_assoc. Qed.

Lemma lower_dot_ext e : Str.lower ("." +:+ e) = String "." (Str.lower e).
Proof. reflexivity. Qed.

(** X1. [true_image] accepts a path exactly when it is a file whose last
    component is a non-empty stem, a dot and an extension that, in lower
    case, is one of the recognised ones; the stem and the suffix the
    pipeline uses are then these two parts.  So the letter case of the
    extension does not matter, a name may hold other dots before the last
    one, and a name that starts with its only dot (as [.png]) or has no
    extension is not accepted. *)
Theorem true_image_accepts `{P : Pillow} (env : Env) (p : Path) :
  true_image env p = true
  <-> is_file env p = true
      /\ exists st e,
           PurePath.name p = st +:+ "." +:+ e
           /\ st <> ""
           /\ Str.lower ("." +:+ e) ∈ recognize_formats
           /\ PurePath.stem p = st
           /\ PurePath.suffix p = "." +:+ e.
Proof.
  unfold true_image. rewrite andb_true_iff, bool_decide_eq_true.
  split; intros [Hfile H]; (split; [done|]).
  - assert (Hne : PurePath.name_suffix (PurePath.name p) <> "").
    { apply StrMore.lower_nonempty.
      destruct (recognized_ext _ H) as (e' & He' & _). unfold PurePath.suffix in He'.
      by rewrite He'. }
    destruct (PathMore.name_split _ Hne) as (st & e & Hn & Hst & He & Hm).
    destruct (PathFacts.dot_split st e Hst He Hm) as [Hsuf Hstem].
    exists st, e. unfold PurePath.stem, PurePath.suffix in *.
    rewrite Hn, Hsuf, Hstem in *. by repeat split.
  - destruct H as (st & e & Hn & Hst & Hin & _).
    pose proof Hin as Hin'. rewrite lower_dot_ext in Hin'.
    destruct (recognized_ext _ Hin') as (e' & [= <-] & He & Hm).
    rewrite StrMore.mem_dot_lower in Hm. apply StrMore.lower_nonempty in He.
    destruct (PathFacts.dot_split st e Hst He Hm) as [Hsuf _].
    unfold PurePath.suffix. rewrite Hn.
    change (st +:+ "." +:+ e) with (st +:+ String "." e). by rewrite Hsuf.
Qed.

Lemma true_image_accepts_witness :
  let env := Toy.env [] Toy.opaque Toy.allow in
  let p := mkPath "" ["in"; "scan.v2.JPeG"] in
  true_image env p = true
  /\ PurePath.stem p = "scan.v2"
  /\ PurePath.suffix p = ".JPeG"
  /\ true_image env (mkPath "" ["in"; ".png"]) = false.
Proof.
  intros env p.
  assert (Hacc : true_image env p = true) by reflexivity.
  destruct (proj1 (true_image_accepts env p) Hacc)
    as (_ & st & e & Hname & _ & _ & Hstem & Hsuf).
  assert (Hst : st = "scan.v2") by (rewrite <- Hstem; reflexivity).
  assert (He : "." +:+ e = ".JPeG") by (rewrite <- Hsuf; reflexivity).
  split; [exact Hacc|]. split; [by rewrite Hstem|]. split; [by rewrite Hsuf|].
  reflexivity.
Defined.

(** X2. For one source file and one destination directory, the nine
    paths the pipeline may write (the copy of the original and the eight
    variants) are pairwise distinct, whatever the name of the source: no
    variant overwrites another variant or the copy of its own original. *)
Theorem file_targets_distinct (src dest_dir : Path) (ext : string) :
  NoDup (file_targets src dest_dir ext).
Proof.
  unfold file_targets. apply NoDup_cons. split.
  - intros (tag & Heq & _)%list_elem_of_fmap.
    destruct (decide (PurePath.name src = "")) as [Hn|Hn].
    + rewrite Hn in Heq. unfold PurePath.join_name at 1 in Heq.
      rewrite bool_decide_eq_true_2 in Heq by done.
      by eapply PathMore.join_name_fresh, eq_sym, Heq; apply out_name_nonempty.
    + apply PathMore.join_name_inj in Heq; [|done|apply out_name_nonempty].
      unfold out_name, PurePath.stem in Heq.
      rewrite <- (PathMore.stem_suffix (PurePath.name src)) in Heq at 1.
      apply StrMore.append_inv_head in Heq.
      destruct (PathMore.suffix_dot (PurePath.name src)) as [E|[e E]];
        rewrite E in Heq; by rewrite StrFacts.append_cons in Heq.
  - apply (NoDup_fmap_2_strong _).
    + intros t1 t2 _ _ Heq.
      apply PathMore.join_name_inj in Heq; [|apply out_name_nonempty..].
      unfold out_name in Heq.
      do 2 apply StrMore.append_inv_head in Heq.
      by apply StrMore.append_inv_tail in Heq.
    + unfold variant_tags. apply (bool_decide_unpack _). by vm_compute.
Qed.

Lemma file_targets_distinct_witness :
  let targets := file_targets Toy.car (mkPath "" ["out"; "photos"]) ".png" in
  length targets = 9%nat
  /\ targets !! 0%nat = Some (mkPath "" ["out"; "photos"; "car.png"])
  /\ targets !! 8%nat = Some (mkPath "" ["out"; "photos"; "car__blur.png"])
  /\ NoDup targets.
Proof.
  intros targets. split; [reflexivity|]. split; [reflexivity|].
  split; [reflexivity|].
  exact (file_targets_distinct Toy.car (mkPath "" ["out"; "photos"]) ".png").
Defined.

(** X3. Across source files: two variant files in the same directory are
    the same path exactly when their sources have the same stem and the
    same extension up to letter case, and the tag is the same.  So two
    accepted files of one directory whose names differ only in the case
    of the extension are written to the same eight variant files, and no
    other pair of sources shares a variant file. *)
Theorem variant_names_collide (src1 src2 dest_dir : Path) (tag1 tag2 : string) :
  let ext1 := Str.lower (PurePath.suffix src1) in
  let ext2 := Str.lower (PurePath.suffix src2) in
  tag1 ∈ variant_tags -> tag2 ∈ variant_tags ->
  ext1 ∈ recognize_formats -> ext2 ∈ recognize_formats ->
  dest_dir /: out_name src1 tag1 ext1 = dest_dir /: out_name src2 tag2 ext2
  <-> PurePath.stem src1 = PurePath.stem src2 /\ tag1 = tag2 /\ ext1 = ext2.
Proof.
  intros ext1 ext2 Ht1 Ht2 He1 He2. split.
  - intros Heq. apply PathMore.join_name_inj in Heq; [|apply out_name_nonempty..].
    destruct (recognized_ext _ He1) as (e1 & E1 & _ & Hm1).
    destruct (recognized_ext _ He2) as (e2 & E2 & _ & Hm2).
    rewrite E1, E2 in *. rewrite !out_name_split in Heq.
    apply StrMore.append_sep_inj in Heq as [Heq ->]; [|done..].
    apply StrMore.append_sep_inj in Heq as [Heq ->]; [|by apply tag_no_underscore..].
    by apply StrMore.append_inv_tail in Heq as ->.
  - intros (Hs & -> & He). unfold out_name. by rewrite Hs, He.
Qed.

Lemma variant_names_collide_witness :
  let lower_case := mkPath "" ["in"; "a.png"] in
  let upper_case := mkPath "" ["in"; "a.PNG"] in
  "blur" ∈ variant_tags
  /\ Str.lower (PurePath.suffix lower_case) ∈ recognize_formats
  /\ Str.lower (PurePath.suffix upper_case) ∈ recognize_formats
  /\ Toy.output /: out_name lower_case "blur" (Str.lower (PurePath.suffix lower_case))
     = Toy.output /: out_name upper_case "blur" (Str.lower (PurePath.suffix upper_case)).
Proof.
  intros lower_case upper_case.
  assert (Htag : "blur" ∈ variant_tags) by (apply (bool_decide_unpack _); vm_compute; exact I).
  assert (He1 : Str.lower (PurePath.suffix lower_case) ∈ recognize_formats)
    by (apply (bool_decide_unpack _); vm_compute; exact I).
  assert (He2 : Str.lower (PurePath.suffix upper_case) ∈ recognize_formats)
    by (apply (bool_decide_unpack _); vm_compute; exact I).
  split; [exact Htag|]. split; [exact He1|]. split; [exact He2|].
  apply (variant_names_collide lower_case upper_case Toy.output "blur" "blur"
           Htag Htag He1 He2).
  repeat split; reflexivity.
Defined.

(** ** The encoder table *)

Lemma fmt_table_lookup k v :
  fmt_table !! k = Some v
  <-> (k, v) ∈ [(".jpg", "JPEG"); (".jpeg", "JPEG"); (".png", "PNG"); (".bmp", "BMP");
                (".tif", "TIFF"); (".tiff", "TIFF"); (".webp", "WEBP")].
Proof.
  unfold fmt_table. symmetry. apply elem_of_list_to_map.
  apply (bool_decide_unpack _). by vm_compute.
Qed.

Lemma save_format_jpeg ext :
  save_format ext = "JPEG" <-> Str.lower ext ∈ [".jpg"; ".jpeg"].
Proof.
  unfold save_format. rewrite !elem_of_cons, elem_of_nil.
  destruct (fmt_table !! Str.lower ext) as [v|] eqn:Hv.
  - apply fmt_table_lookup in Hv. rewrite !elem_of_cons, elem_of_nil in Hv. simpl.
    repeat (destruct Hv as [[= -> ->]|Hv];
            [first [by split; [tauto|intros _]|by split; [|intros [|[|]]]]|]).
    done.
  - simpl. split; [done|].
    intros [E|[E|[]]]; rewrite E in Hv; by vm_compute in Hv.
Qed.

(** X4. The encoder table and the JPEG guard agree.  [save_image] encodes
    as JPEG exactly for the two extensions, in lower case, for which
    [guarantee_rgb_for_jpeg] checks the mode; for every other extension the
    guard returns its argument unchanged and the encoder is given no
    options, and for a JPEG it is given quality 95 and optimize.  Every
    recognised extension has its own entry in the table, so the PNG
    fallback is not used for an accepted file. *)
Theorem jpeg_guard_matches_encoder `{P : Pillow} (suffix : string) (im : ref) :
  let ext := Str.lower suffix in
  (save_format ext = "JPEG" <-> ext ∈ [".jpg"; ".jpeg"])
  /\ (save_format ext <> "JPEG" ->
        guarantee_rgb_for_jpeg im ext = ret im
        /\ save_options (save_format ext) = [])
  /\ (save_format ext = "JPEG" ->
        save_options (save_format ext)
        = [("quality", OInt 95); ("optimize", OBool true)])
  /\ (ext ∈ recognize_formats -> fmt_table !! ext = Some (save_format ext)).
Proof.
  intros ext.
  assert (Hj : save_format ext = "JPEG" <-> ext ∈ [".jpg"; ".jpeg"]).
  { rewrite save_format_jpeg. unfold ext. by rewrite StrFacts.lower_idem. }
  split; [done|]. split; [|split].
  - intros Hn. split.
    + unfold guarantee_rgb_for_jpeg. rewrite bool_decide_eq_false_2; [done|].
      by rewrite <- Hj.
    + unfold save_options. by rewrite bool_decide_eq_false_2.
  - intros ->. reflexivity.
  - unfold save_format, ext. rewrite StrFacts.lower_idem. fold ext.
    unfold recognize_formats. rewrite !elem_of_cons, elem_of_nil.
    intros H. repeat (destruct H as [->|H]; [reflexivity|]). done.
Qed.

Lemma jpeg_guard_matches_encoder_witness :
  save_format (Str.lower ".WebP") <> "JPEG"
  /\ Str.lower ".WebP" ∈ recognize_formats
  /\ guarantee_rgb_for_jpeg (P := Toy.pillow) 0 (Str.lower ".WebP") = ret 0%nat
  /\ save_options (save_format (Str.lower ".WebP")) = []
  /\ fmt_table !! Str.lower ".WebP" = Some "WEBP".
Proof.
  assert (Hn : save_format (Str.lower ".WebP") <> "JPEG") by (vm_compute; discriminate).
  assert (Hr : Str.lower ".WebP" ∈ recognize_formats)
    by (apply (bool_decide_unpack _); vm_compute; exact I).
  destruct (jpeg_guard_matches_encoder (P := Toy.pillow) ".WebP" 0)
    as (_ & Hguard & _ & Htable).
  destruct (Hguard Hn) as [Hg Ho].
  split; [exact Hn|]. split; [exact Hr|]. split; [exact Hg|]. split; [exact Ho|].
  exact (Htable Hr).
Defined.

(** ** A whole run *)

Section RunShape.
Context {P : Pillow}.
Variable env : Env.

Lemma process_dataset_found input_dir output_dir copy_originals s :
  discover env input_dir <> [] ->
  process_dataset env input_dir output_dir copy_originals s
  = match for_each (discover env input_dir)
            (process_file env input_dir output_dir copy_originals)
            (set_counters 0 0 s) with
    | (Ok _, sL) =>
        let sC := say (MsgCompleted output_dir) sL in
        let counts := MsgData (num_originals sL) (num_augmented sL) in
        match os_print env (trace sL) (stdout sL) (MsgCompleted output_dir) with
        | Some e => (Raise e, sL)
        | None =>
            match os_print env (trace sC) (stdout sC) counts with
            | Some e => (Raise e, sC)
            | None => (Ok 0%Z, say counts sC)
            end
        end
    | (Raise e, sL) => (Raise e, sL)
    end.
Proof.
  intros Hsome. unfold process_dataset.
  destruct (discover env input_dir) as [|x l] eqn:Himg; [done|].
  unfold bind at 1, init_counters at 1. unfold bind at 1.
  destruct (for_each _ _ _) as [[[]|e] sL]; [|done].
  unfold bind at 1. rewrite print_run.
  destruct (os_print env (trace sL) (stdout sL) (MsgCompleted output_dir)); [done|].
  unfold bind, get, ret. cbv beta iota. rewrite print_run. cbv zeta.
  by destruct (os_print env _ _ _).
Qed.

(** What a run does, in one statement: nothing but a line when no image is
    found; otherwise the calls and the lines of the discovered files, the
    counters counting the copies and the writes, and the two closing lines
    if no directory and no [print] fails. *)
Lemma process_dataset_run input_dir output_dir copy_originals s :
  let res := process_dataset env input_dir output_dir copy_originals s in
  (discover env input_dir = []
   /\ res = match os_print env (trace s) (stdout s)
                   (MsgNoImages input_dir recognize_formats) with
            | None => (Ok 1%Z, say (MsgNoImages input_dir recognize_formats) s)
            | Some e => (Raise e, s)
            end)
  \/ (discover env input_dir <> []
      /\ exists sL,
           emits (run_may_emit env input_dir output_dir copy_originals)
                 (run_may_say env input_dir copy_originals) s sL
           /\ run_progress (set_counters 0 0 s) sL
           /\ (res = (Ok 0%Z, say (MsgData (num_originals sL) (num_augmented sL))
                                  (say (MsgCompleted output_dir) sL))
               \/ (exists e, res = (Raise e, sL))
               \/ (exists e,
                     res = (Raise e, say (MsgCompleted output_dir) sL)
                     /\ os_print env (trace sL)
                          (stdout sL ++ [MsgCompleted output_dir])
                          (MsgData (num_originals sL) (num_augmented sL))
                        = Some e))).
Proof.
  intros res. unfold res. clear res.
  destruct (decide (discover env input_dir = [])) as [Hnone|Hsome].
  { left. split; [done|]. unfold process_dataset. rewrite Hnone.
    unfold bind. rewrite print_run. by destruct (os_print env _ _ _). }
  right. split; [done|]. rewrite process_dataset_found by done.
  pose proof (files_emit env input_dir output_dir copy_originals (set_counters 0 0 s))
    as Hem.
  pose proof (wp_files env input_dir output_dir copy_originals
                (discover env input_dir) (set_counters 0 0 s) (set_counters 0 0 s)
                (run_progress_refl _)) as Hwp.
  unfold wp in Hwp.
  destruct (for_each _ _ _) as [[[]|e] sL]; exists sL.
  - split; [exact Hem|]. split; [exact Hwp|]. cbv zeta.
    destruct (os_print env (trace sL) (stdout sL) (MsgCompleted output_dir)) as [e|];
      [right; left; by exists e|].
    destruct (os_print env _ _ (MsgData _ _)) as [e|] eqn:Hd;
      [right; right; by exists e|by left].
  - split; [exact Hem|]. split; [exact (proj1 Hwp)|]. right. left. by exists e.
Qed.

(** The calls of a run, whether it returns or raises. *)
Lemma process_dataset_trace input_dir output_dir copy_originals s :
  exists new,
    trace (process_dataset env input_dir output_dir copy_originals s).2
    = trace s ++ new
    /\ Forall (run_may_emit env input_dir output_dir copy_originals) new.
Proof.
  destruct (process_dataset_run input_dir output_dir copy_originals s)
    as [[_ Hres]|(_ & sL & (new & out & Ht & Hnew & _) & _ & Hres)].
  - exists []. rewrite app_nil_r. split; [|done]. cbv zeta in Hres. rewrite Hres.
    by destruct (os_print env _ _ _).
  - exists new. split; [|done].
    by destruct Hres as [->|[[e ->]|(e & -> & _)]].
Qed.

(** With the listing below the input root, the paths given for a
    discovered file are built on the output root. *)
Lemma run_may_emit_joined input_dir output_dir copy_originals ev p :
  (forall src, src ∈ rglob env input_dir -> below input_dir src) ->
  run_may_emit env input_dir output_dir copy_originals ev ->
  path_given (ev_call ev) = Some p ->
  joined_to output_dir p.
Proof.
  intros Hbelow (src & rel & Hsrc & Hrel & Hev) Hp.
  destruct (Hbelow src (discover_listed _ _ _ Hsrc)) as (q & Hq & Hparts & ->).
  rewrite PathFacts.relative_to_join in Hrel by done. injection Hrel as <-.
  rewrite PathFacts.parent_join in Hev by done.
  assert (Hdest : joined_to output_dir (output_dir // PurePath.parent q))
    by (by exists (PurePath.parent q)).
  destruct Hev; simpl in Hp; try done; injection Hp as <-;
    [done|by apply PathMore.joined_to_join_name..].
Qed.

Lemma run_may_emit_read input_dir output_dir copy_originals ev p :
  run_may_emit env input_dir output_dir copy_originals ev ->
  read_from (ev_call ev) = Some p ->
  p ∈ discover env input_dir.
Proof.
  intros (src & rel & Hsrc & _ & Hev) Hp.
  destruct Hev; simpl in Hp; try done; by injection Hp as <-.
Qed.

End RunShape.

Lemma photos_below decode deny src :
  src ∈ rglob (Toy.env Toy.photos decode deny) Toy.input -> below Toy.input src.
Proof.
  change (rglob _ Toy.input) with Toy.photos.
  unfold Toy.photos. rewrite !elem_of_cons, elem_of_nil.
  intros [->|[->|[->|[->|[]]]]];
    [exists (mkPath "" ["photos"; "car.png"])
    |exists (mkPath "" ["photos"; "boat.jpg"])
    |exists (mkPath "" ["photos"; "room.jpg"])
    |exists (mkPath "" ["notes.txt"])]; by repeat split.
Qed.

(** X5. The paths a run asks to create or to write are built on the
    output directory: when the listing of the input directory yields paths
    below it, the argument of every [mkdir] call and the destination of
    every [copy2] and [write_bytes] call of [process_dataset], whether the
    run returns or raises, is [output_dir / q] for a relative path [q], as
    [pathlib] joins pure paths. *)
Theorem run_stays_in_output `{P : Pillow} (env : Env)
    (input_dir output_dir : Path) (copy_originals : bool) (s : State) :
  (forall src, src ∈ rglob env input_dir -> below input_dir src) ->
  exists new,
    trace (process_dataset env input_dir output_dir copy_originals s).2
    = trace s ++ new
    /\ forall ev p, ev ∈ new -> path_given (ev_call ev) = Some p ->
         joined_to output_dir p.
Proof.
  intros Hbelow.
  destruct (process_dataset_trace env input_dir output_dir copy_originals s)
    as (new & Ht & Hnew).
  exists new. split; [done|]. intros ev p Hev Hp.
  rewrite Forall_forall in Hnew. by eapply run_may_emit_joined; [|apply Hnew|].
Qed.

Lemma run_stays_in_output_witness :
  let env := Toy.env Toy.photos Toy.corrupt Toy.no_copy in
  let res := process_dataset env Toy.input Toy.output true Toy.start in
  (forall src, src ∈ rglob env Toy.input -> below Toy.input src)
  /\ length (trace res.2) = 45%nat
  /\ forall ev p, ev ∈ trace res.2 -> path_given (ev_call ev) = Some p ->
       joined_to Toy.output p.
Proof.
  intros env res. split; [apply photos_below|]. split; [vm_compute; reflexivity|].
  destruct (run_stays_in_output env Toy.input Toy.output true Toy.start
              (photos_below _ _)) as (new & Ht & Hnew).
  fold res in Ht. simpl in Ht. rewrite Ht. exact Hnew.
Defined.

(** X7. A run reads only the files it discovered: every file it opens as
    an image or copies from is one of the paths [true_image] accepted in
    the listing of the input directory. *)
Theorem run_reads_discovered `{P : Pillow} (env : Env)
    (input_dir output_dir : Path) (copy_originals : bool) (s : State) :
  exists new,
    trace (process_dataset env input_dir output_dir copy_originals s).2
    = trace s ++ new
    /\ forall ev p, ev ∈ new -> read_from (ev_call ev) = Some p ->
         p ∈ rglob env input_dir /\ true_image env p = true.
Proof.
  destruct (process_dataset_trace env input_dir output_dir copy_originals s)
    as (new & Ht & Hnew).
  exists new. split; [done|]. intros ev p Hev Hp.
  rewrite Forall_forall in Hnew.
  pose proof (run_may_emit_read env _ _ _ _ _ (Hnew ev Hev) Hp) as Hd.
  unfold discover in Hd. rewrite list_elem_of_In in Hd.
  apply List.filter_In in Hd as [Hl Ht']. by rewrite list_elem_of_In.
Qed.

Lemma run_reads_discovered_witness :
  let env := Toy.env Toy.photos Toy.corrupt Toy.allow in
  let res := process_dataset env Toy.input Toy.output true Toy.start in
  length (trace res.2) = 45%nat
  /\ forall ev p, ev ∈ trace res.2 -> read_from (ev_call ev) = Some p ->
       p ∈ Toy.photos /\ true_image env p = true.
Proof.
  intros env res. split; [vm_compute; reflexivity|].
  destruct (run_reads_discovered env Toy.input Toy.output true Toy.start)
    as (new & Ht & Hnew).
  fold res in Ht. simpl in Ht. rewrite Ht. exact Hnew.
Defined.

Lemma copies_ok_none `{P : Pillow} (tr : list Event) :
  (forall ev, ev ∈ tr -> is_copy ev = false) -> copies_ok tr = 0%nat.
Proof.
  induction tr as [|ev tr IH]; intros H; [done|].
  change (ev :: tr) with ([ev] ++ tr). rewrite copies_ok_app, IH.
  - unfold copies_ok. simpl. rewrite (H ev); [done|]. by left.
  - intros ev' Hin. apply H. by right.
Qed.

(** X8. With [copy_originals] off, a run copies nothing: its trace holds no
    [copy2] call, it prints no copy failure, and the count of originals in
    the closing line is 0. *)
Theorem run_without_originals `{P : Pillow} (env : Env)
    (input_dir output_dir : Path) (s : State) :
  let res := process_dataset env input_dir output_dir false s in
  exists new out,
    trace res.2 = trace s ++ new
    /\ stdout res.2 = stdout s ++ out
    /\ (forall ev, ev ∈ new -> is_copy ev = false)
    /\ (forall src e, MsgCopyFailed src e ∉ out)
    /\ (forall n k, MsgData n k ∈ out -> n = 0%nat).
Proof.
  intros res. unfold res. clear res.
  assert (Hev : forall ev, run_may_emit env input_dir output_dir false ev ->
                  is_copy ev = false).
  { intros ev (src & rel & _ & _ & Hme). by destruct Hme. }
  assert (Hmsg : forall m, run_may_say env input_dir false m ->
                   (forall src e, m <> MsgCopyFailed src e)
                   /\ (forall n k, m <> MsgData n k)).
  { intros m (src & Hsrc & Hm). by destruct Hm. }
  destruct (process_dataset_run env input_dir output_dir false s)
    as [[_ Hres]|(_ & sL & (new & out & Ht & Hnew & Ho & Hout) & Hprog & Hres)].
  { cbv zeta in Hres. rewrite Hres.
    destruct (os_print env _ _ _) as [exn|].
    - exists [], []. simpl. rewrite !app_nil_r. repeat split; try done.
      + intros ev Hin. by apply elem_of_nil in Hin.
      + intros src e Hin. by apply elem_of_nil in Hin.
      + intros n k Hin. by apply elem_of_nil in Hin.
    - exists [], [MsgNoImages input_dir recognize_formats]. simpl.
      rewrite app_nil_r. repeat split; try done.
      + intros ev Hin. by apply elem_of_nil in Hin.
      + intros src e Hin. apply list_elem_of_singleton in Hin. discriminate.
      + intros n k Hin. apply list_elem_of_singleton in Hin. discriminate. }
  rewrite Forall_forall in Hnew. rewrite Forall_forall in Hout.
  assert (Hcopies : copies_ok new = 0%nat).
  { apply copies_ok_none. intros ev Hin. by apply Hev, Hnew. }
  assert (H0 : num_originals sL = 0%nat).
  { destruct Hprog as (new' & Ht' & _ & Hn). simpl in Ht', Hn. rewrite Ht in Ht'.
    apply app_inv_head in Ht' as <-. by rewrite Hn, Hcopies. }
  destruct Hres as [->|[[exn ->]|(exn & -> & _)]].
  - exists new, (out ++ [MsgCompleted output_dir;
                         MsgData (num_originals sL) (num_augmented sL)]).
    simpl. rewrite Ho, <- !app_assoc. repeat split; try done.
    + intros ev Hin. by apply Hev, Hnew.
    + intros src e [Hin|Hin]%elem_of_app.
      * by apply (proj1 (Hmsg _ (Hout _ Hin)) src e).
      * rewrite !elem_of_cons, elem_of_nil in Hin. by destruct Hin as [|[|]].
    + intros n k [Hin|Hin]%elem_of_app.
      * by destruct (proj2 (Hmsg _ (Hout _ Hin)) n k).
      * rewrite !elem_of_cons, elem_of_nil in Hin.
        destruct Hin as [|[[= -> _]|[]]]; done.
  - exists new, out. simpl. repeat split; try done.
    + intros ev Hin. by apply Hev, Hnew.
    + intros src e Hin. by apply (proj1 (Hmsg _ (Hout _ Hin)) src e).
    + intros n k Hin. by destruct (proj2 (Hmsg _ (Hout _ Hin)) n k).
  - exists new, (out ++ [MsgCompleted output_dir]).
    simpl. rewrite Ho, <- !app_assoc. repeat split; try done.
    + intros ev Hin. by apply Hev, Hnew.
    + intros src e [Hin|Hin]%elem_of_app.
      * by apply (proj1 (Hmsg _ (Hout _ Hin)) src e).
      * apply list_elem_of_singleton in Hin. discriminate.
    + intros n k [Hin|Hin]%elem_of_app.
      * by destruct (proj2 (Hmsg _ (Hout _ Hin)) n k).
      * apply list_elem_of_singleton in Hin. discriminate.
Qed.

Lemma run_without_originals_witness :
  let env := Toy.env Toy.photos Toy.opaque Toy.no_copy in
  let res := process_dataset env Toy.input Toy.output false Toy.start in
  stdout res.2 = [MsgCompleted Toy.output; MsgData 0 24]
  /\ forall ev, ev ∈ trace res.2 -> is_copy ev = false.
Proof.
  intros env res. split; [vm_compute; reflexivity|].
  destruct (run_without_originals env Toy.input Toy.output Toy.start)
    as (new & out & Ht & _ & Hnew & _).
  fold res in Ht. simpl in Ht. rewrite Ht. exact Hnew.
Defined.

(** X9. What a run prints.  When it returns 1 it has printed the one line
    that no image was found; when it returns 0, its last two lines are the
    completion line and the counts.  When it raises it has printed neither
    of the two, unless the exception is that of printing the counts line,
    in which case the completion line is the last one.  Every line before
    them reports a failure for a discovered file: a skipped augmentation,
    or a failed copy, which occurs only with [copy_originals] on. *)
Theorem run_prints `{P : Pillow} (env : Env)
    (input_dir output_dir : Path) (copy_originals : bool) (s : State) :
  let res := process_dataset env input_dir output_dir copy_originals s in
  exists diags,
    (forall m, m ∈ diags ->
       exists src e, src ∈ discover env input_dir
         /\ (m = MsgSkipping src e
             \/ (copy_originals = true /\ m = MsgCopyFailed src e)))
    /\ match res.1 with
       | Ok v =>
           (v = 1%Z /\ diags = []
            /\ stdout res.2 = stdout s ++ [MsgNoImages input_dir recognize_formats])
           \/ (v = 0%Z
               /\ stdout res.2
                  = stdout s ++ diags
                    ++ [MsgCompleted output_dir;
                        MsgData (num_originals res.2) (num_augmented res.2)])
       | Raise e =>
           stdout res.2 = stdout s ++ diags
           \/ (stdout res.2 = stdout s ++ diags ++ [MsgCompleted output_dir]
               /\ os_print env (trace res.2) (stdout res.2)
                    (MsgData (num_originals res.2) (num_augmented res.2)) = Some e)
       end.
Proof.
  intros res. unfold res. clear res.
  destruct (process_dataset_run env input_dir output_dir copy_originals s)
    as [[_ Hres]|(_ & sL & (new & out & Ht & Hnew & Ho & Hout) & _ & Hres)].
  { exists []. split; [by intros m Hm%elem_of_nil|]. cbv zeta in Hres. rewrite Hres.
    destruct (os_print env _ _ _) as [e|]; simpl.
    - left. by rewrite app_nil_r.
    - left. by repeat split. }
  exists out. split.
  - rewrite Forall_forall in Hout. intros m Hm.
    destruct (Hout m Hm) as (src & Hsrc & Hsay). destruct Hsay as [e Hc|e].
    + exists src, e. split; [done|]. by right.
    + exists src, e. split; [done|]. by left.
  - destruct Hres as [->|[[e ->]|(e & -> & Hpr)]]; simpl.
    + right. split; [done|]. by rewrite Ho, <- !app_assoc.
    + by left.
    + right. split; [by rewrite Ho, <- app_assoc|done].
Qed.

Lemma run_prints_witness :
  let env := Toy.env Toy.photos Toy.corrupt Toy.no_copy in
  let res := process_dataset env Toy.input Toy.output true Toy.start in
  res.1 = Ok 0%Z
  /\ exists diags,
       stdout res.2 = diags ++ [MsgCompleted Toy.output; MsgData 0 16]
       /\ length diags = 4%nat
       /\ forall m, m ∈ diags ->
            exists src e, src ∈ discover env Toy.input
              /\ (m = MsgSkipping src e \/ m = MsgCopyFailed src e).
Proof.
  intros env res.
  assert (Hres : res.1 = Ok 0%Z) by (vm_compute; reflexivity).
  split; [exact Hres|].
  destruct (run_prints env Toy.input Toy.output true Toy.start)
    as (diags & Hdiags & Hout).
  fold res in Hout. rewrite Hres in Hout.
  destruct Hout as [(Hv & _)|(_ & Hout)]; [discriminate Hv|].
  simpl in Hout. exists diags. split; [exact Hout|]. split.
  - assert (Hlen : length (stdout res.2) = 6%nat) by (vm_compute; reflexivity).
    rewrite Hout, length_app in Hlen. simpl in Hlen. lia.
  - intros m Hm. destruct (Hdiags m Hm) as (src & e & Hsrc & [->|[_ ->]]);
      exists src, e; (split; [exact Hsrc|]); [by left|by right].
Defined.

(** ** The [with] block *)

Section Brackets.
Context {P : Pillow}.

Lemma bracketed_neutral o mid rest :
  Forall (fun ev => opens_or_closes (ev_call ev) = false) mid ->
  bracketed o (mid ++ rest) = bracketed o rest.
Proof.
  induction 1 as [|ev mid Hev _ IH]; [done|]. simpl.
  destruct ev as [[] ?]; try done.
Qed.

Lemma bracketed_app o a b :
  bracketed o a = true -> bracketed false b = true -> bracketed o (a ++ b) = true.
Proof.
  revert o. induction a as [|ev a IH]; intros o; simpl.
  - by intros ->%negb_true_iff.
  - destruct (is_open_ok ev); [|destruct (is_close ev)].
    + intros [-> Ha]%andb_true_iff Hb. simpl. by apply IH.
    + intros [-> Ha]%andb_true_iff Hb. simpl. by apply IH.
    + intros Ha Hb. by apply IH.
Qed.

Variable env : Env.

(** The calls of the body of the [with] block. *)
Lemma body_neutral src dest_dir (im : ref) s :
  exists mid,
    trace ((Image_load env im >>
            let* base := convert_rgb im white in
            for_gen (augmentations base)
              (write_variant env src dest_dir (Str.lower (PurePath.suffix src)))) s).2
    = trace s ++ mid
    /\ Forall (fun ev => opens_or_closes (ev_call ev) = false) mid.
Proof.
  pose proof (keeps_variants _ (emits_blind
                (fun ev => opens_or_closes (ev_call ev) = false) (fun _ => True) s)
                env src dest_dir im) as Hk.
  cbv zeta in Hk. destruct (Hk) with (s := s) as (mid & out & Ht & Hmid & _).
  - intros o. by apply emits_accepts.
  - intros d o. by apply emits_accepts.
  - intros tag data o _. by apply emits_accepts.
  - apply emits_refl.
  - by exists mid.
Qed.

Lemma augment_file_trace src dest_dir s :
  match os_open_image env (trace s) src with
  | Raise e =>
      augment_file env src dest_dir s
      = (Raise e, log (mkEvent (ImageOpen src) (Some e)) s)
  | Ok d =>
      exists mid,
        trace (augment_file env src dest_dir s).2
        = trace s ++ mkEvent (ImageOpen src) None
                  :: mid ++ [mkEvent (ImageClose (length (heap s))) None]
        /\ Forall (fun ev => opens_or_closes (ev_call ev) = false) mid
  end.
Proof.
  unfold augment_file. rewrite with_as_run, Image_open_unfold.
  destruct (os_open_image env (trace s) src) as [d|e]; [|done].
  unfold bind at 1, emit at 1, alloc at 1. cbv beta iota.
  set (s1 := set_heap _ _). change (length (heap (log _ s))) with (length (heap s)).
  destruct (body_neutral src dest_dir (length (heap s)) s1) as (mid & Ht & Hmid).
  exists mid. split; [|done]. unfold Image_exit, emit. cbv beta iota.
  cbn [snd log trace]. rewrite Ht. unfold s1. simpl. by rewrite <- !app_assoc.
Qed.

Lemma augment_file_bracketed src dest_dir s :
  exists new,
    trace (augment_file env src dest_dir s).2 = trace s ++ new
    /\ bracketed false new = true.
Proof.
  pose proof (augment_file_trace src dest_dir s) as H.
  destruct (os_open_image env (trace s) src) as [d|e].
  - destruct H as (mid & Ht & Hmid). eexists. split; [exact Ht|].
    simpl. by rewrite bracketed_neutral.
  - rewrite H. by exists [mkEvent (ImageOpen src) (Some e)].
Qed.

(** The invariant of a run: the calls made since [s0] open and close the
    image files in turn. *)
Lemma bracketed_blind s0 :
  heap_blind (fun s => exists new, trace s = trace s0 ++ new
                                   /\ bracketed false new = true).
Proof. intros s s' Ht _ (new & Hn & Hb). exists new. by rewrite <- Ht. Qed.

Lemma bracketed_accepts s0 ev :
  opens_or_closes (ev_call ev) = false ->
  accepts (fun s => exists new, trace s = trace s0 ++ new
                                /\ bracketed false new = true) ev.
Proof.
  intros Hev s (new & Hn & Hb). exists (new ++ [ev]). simpl.
  rewrite Hn, <- app_assoc. split; [done|]. apply bracketed_app; [done|].
  by destruct ev as [[] ?].
Qed.

Lemma bracketed_accepts_msg s0 m :
  accepts_msg (fun s => exists new, trace s = trace s0 ++ new
                                    /\ bracketed false new = true) m.
Proof. by intros s (new & Hn & Hb); exists new. Qed.

Lemma keeps_bracketed_file s0 input_dir output_dir copy_originals src :
  keeps (fun s => exists new, trace s = trace s0 ++ new
                              /\ bracketed false new = true)
        (process_file env input_dir output_dir copy_originals src).
Proof.
  unfold process_file.
  destruct (PurePath.relative_to src input_dir) as [rel|e]; [|by intros s Hs].
  change (bind (lift (Ok rel)) ?k) with (k rel). cbv beta zeta.
  apply keeps_bind.
  { apply keeps_mkdir; [apply bracketed_blind|]. intros o. by apply bracketed_accepts. }
  intros _. apply keeps_bind.
  { destruct copy_originals; [|apply keeps_ret].
    apply keeps_copy_original; [apply bracketed_blind| |].
    - intros o. by apply bracketed_accepts.
    - intros e. apply bracketed_accepts_msg. }
  intros _. apply keeps_try.
  - intros s (new & Hn & Hb).
    destruct (augment_file_bracketed src (PurePath.parent (output_dir // rel)) s)
      as (new' & Hn' & Hb').
    exists (new ++ new'). rewrite Hn', Hn, <- app_assoc. split; [done|].
    by apply bracketed_app.
  - intros e. apply keeps_print, bracketed_accepts_msg.
Qed.

Lemma process_dataset_bracketed input_dir output_dir copy_originals s :
  exists new,
    trace (process_dataset env input_dir output_dir copy_originals s).2
    = trace s ++ new
    /\ bracketed false new = true.
Proof.
  assert (Hk : keeps (fun s' => exists new, trace s' = trace s ++ new
                                           /\ bracketed false new = true)
                 (process_dataset env input_dir output_dir copy_originals)).
  { unfold process_dataset. destruct (discover env input_dir) as [|x l].
    { apply keeps_bind; [apply keeps_print, bracketed_accepts_msg|].
      intros _. apply keeps_ret. }
    apply keeps_bind; [apply keeps_init_counters, bracketed_blind|]. intros _.
    apply keeps_bind.
    { apply keeps_for_each. intros src _. apply keeps_bracketed_file. }
    intros _. apply keeps_bind; [apply keeps_print, bracketed_accepts_msg|].
    intros _. apply keeps_bind; [apply keeps_get, bracketed_blind|]. intros n.
    apply keeps_bind; [apply keeps_get, bracketed_blind|]. intros k.
    apply keeps_bind; [apply keeps_print, bracketed_accepts_msg|].
    intros _. apply keeps_ret. }
  apply Hk. exists []. by rewrite app_nil_r.
Qed.

End Brackets.

(** X10. Every image file that is opened is closed.  For one file: if
    [Image.open] raises, that is the only call [augment_file] makes;
    if it returns, the calls are the open, calls that neither open nor
    close an image, and last the close of the object the open created,
    whether the body of the [with] block returns or raises.  For a run,
    whether it returns or raises: an image is opened only when none is
    open, closed only when one is, and none is left open. *)
Theorem images_are_closed `{P : Pillow} (env : Env)
    (input_dir output_dir : Path) (copy_originals : bool) (s : State) :
  (forall src dest_dir s1,
     match os_open_image env (trace s1) src with
     | Raise e =>
         augment_file env src dest_dir s1
         = (Raise e, log (mkEvent (ImageOpen src) (Some e)) s1)
     | Ok d =>
         exists mid,
           trace (augment_file env src dest_dir s1).2
           = trace s1 ++ mkEvent (ImageOpen src) None
                      :: mid ++ [mkEvent (ImageClose (length (heap s1))) None]
           /\ forall ev, ev ∈ mid -> opens_or_closes (ev_call ev) = false
     end)
  /\ exists new,
       trace (process_dataset env input_dir output_dir copy_originals s).2
       = trace s ++ new
       /\ bracketed false new = true.
Proof.
  split; [|apply process_dataset_bracketed].
  intros src dest_dir s1. pose proof (augment_file_trace env src dest_dir s1) as H.
  destruct (os_open_image env (trace s1) src) as [d|e]; [|done].
  destruct H as (mid & Ht & Hmid). exists mid. split; [done|].
  by rewrite Forall_forall in Hmid.
Qed.

Lemma images_are_closed_witness :
  let env := Toy.env Toy.photos Toy.corrupt Toy.no_rotate270 in
  let res := process_dataset env Toy.input Toy.output true Toy.start in
  length (List.filter is_open_ok (trace res.2)) = 2%nat
  /\ length (List.filter is_close (trace res.2)) = 2%nat
  /\ bracketed false (trace res.2) = true.
Proof.
  intros env res. split; [vm_compute; reflexivity|].
  split; [vm_compute; reflexivity|].
  destruct (images_are_closed env Toy.input Toy.output true Toy.start)
    as (_ & new & Ht & Hb).
  fold res in Ht. simpl in Ht. by rewrite Ht.
Defined.

(** ** The command line *)

Section MainFacts.
Context {P : Pillow}.
Variables (sh : Shell) (env : Env).

Lemma bind_ret_r {A} (m : M A) s : bind m ret s = m s.
Proof. unfold bind, ret. by destruct (m s) as [[a|e] s']. Qed.


Lemma main_run args s input_dir output_dir :
  expanduser sh (Path_of sh (arg_input args)) = Ok input_dir ->
  path_exists sh input_dir = true ->
  output_dir_of sh args input_dir = Ok output_dir ->
  main sh env args s
  = match os_mkdir env (trace s) output_dir with
    | Some e => (Raise e, log (mkEvent (Mkdir output_dir true true) (Some e)) s)
    | None =>
        process_dataset env input_dir output_dir (negb (arg_no_copy_originals args))
          (log (mkEvent (Mkdir output_dir true true) None) s)
    end.
Proof.
  intros Hin Hex Hout. unfold main. rewrite Hin.
  change (bind (lift (Ok input_dir)) ?k) with (k input_dir). cbv beta.
  rewrite Hex. change (negb true) with false. cbv iota. rewrite Hout.
  change (bind (lift (Ok output_dir)) ?k) with (k output_dir). cbv beta.
  destruct (os_mkdir env (trace s) output_dir) as [e|] eqn:Hmk.
  - apply bind_raise. by rewrite Path_mkdir_run, Hmk.
  - rewrite (bind_ok _ _ s tt (log (mkEvent (Mkdir output_dir true true) None) s))
      by (by rewrite Path_mkdir_run, Hmk).
    apply bind_ret_r.
Qed.

End MainFacts.




(** X12. Once the input directory exists, the first thing [main] does is
    to create the output directory, before any file is looked at: if
    that [mkdir] raises, the exception leaves [main] with no other call
    made and nothing printed; otherwise the rest of the run is
    [process_dataset] on the two directories, with [copy_originals] the
    negation of [--no_copy_originals]. *)
Theorem main_prepares_output `{P : Pillow} (sh : Shell) (env : Env) (args : Args)
    (s : State) (input_dir output_dir : Path) :
  expanduser sh (Path_of sh (arg_input args)) = Ok input_dir ->
  path_exists sh input_dir = true ->
  output_dir_of sh args input_dir = Ok output_dir ->
  let res := main sh env args s in
  let mk := mkEvent (Mkdir output_dir true true) (os_mkdir env (trace s) output_dir) in
  exists rest,
    trace res.2 = trace s ++ mk :: rest
    /\ match os_mkdir env (trace s) output_dir with
       | Some e => res.1 = Raise e /\ rest = [] /\ stdout res.2 = stdout s
       | None =>
           res = process_dataset env input_dir output_dir
                   (negb (arg_no_copy_originals args)) (log mk s)
       end.
Proof.
  intros Hin Hex Hout res mk. unfold res, mk. clear res mk.
  rewrite (main_run sh env args s input_dir output_dir Hin Hex Hout).
  destruct (os_mkdir env (trace s) output_dir) as [e|]; [by exists []|].
  destruct (process_dataset_trace env input_dir output_dir
              (negb (arg_no_copy_originals args))
              (log (mkEvent (Mkdir output_dir true true) None) s))
    as (new & Ht & _).
  exists new. split; [|done]. rewrite Ht. simpl. by rewrite <- app_assoc.
Qed.

Lemma main_prepares_output_witness :
  let env := Toy.env Toy.photos Toy.opaque Toy.no_mkdir in
  let args := ToyShell.args "in" true in
  let res := main ToyShell.shell env args Toy.start in
  expanduser ToyShell.shell (Path_of ToyShell.shell (arg_input args)) = Ok Toy.input
  /\ path_exists ToyShell.shell Toy.input = true
  /\ output_dir_of ToyShell.shell args Toy.input = Ok (mkPath "" ["in_out"])
  /\ res.1 = Raise "PermissionError"
  /\ trace res.2
     = [mkEvent (Mkdir (mkPath "" ["in_out"]) true true) (Some "PermissionError")].
Proof.
  intros env args res.
  split; [reflexivity|]. split; [reflexivity|]. split; [reflexivity|].
  destruct (main_prepares_output ToyShell.shell env args Toy.start Toy.input
              (mkPath "" ["in_out"]) eq_refl eq_refl eq_refl)
    as (rest & Ht & Hr & -> & _).
  split; [exact Hr|exact Ht].
Defined.

(** ** How many files a run writes *)

Section AtMost.
Context {P : Pillow}.
Variable c : Event -> bool.

Lemma atmost_mono {A} (m : M A) n n' :
  atmost c n m -> (n <= n')%nat -> atmost c n' m.
Proof. intros Hm Hn s. destruct (Hm s) as (new & Ht & Hl). exists new. split; [done|lia]. Qed.

Lemma atmost_quiet {A} (m : M A) :
  (forall s, trace (m s).2 = trace s) -> atmost c 0 m.
Proof. intros Hm s. exists []. by rewrite app_nil_r, Hm. Qed.

Lemma atmost_bind {A B} (m : M A) (k : A -> M B) n1 n2 :
  atmost c n1 m -> (forall a, atmost c n2 (k a)) -> atmost c (n1 + n2) (bind m k).
Proof.
  intros Hm Hk s. destruct (Hm s) as (new1 & Ht1 & Hl1). unfold bind.
  destruct (m s) as [[a|e] s1]; simpl in *.
  - destruct (Hk a s1) as (new2 & Ht2 & Hl2). exists (new1 ++ new2).
    rewrite Ht2, Ht1, <- app_assoc, List.filter_app, length_app. split; [done|lia].
  - exists new1. split; [done|lia].
Qed.

Lemma atmost_try {A} (m : M A) h n1 n2 :
  atmost c n1 m -> (forall e, atmost c n2 (h e)) ->
  atmost c (n1 + n2) (try_except m h).
Proof.
  intros Hm Hh s. destruct (Hm s) as (new1 & Ht1 & Hl1). unfold try_except.
  destruct (m s) as [[a|e] s1]; simpl in *.
  - exists new1. split; [done|lia].
  - destruct (Hh e s1) as (new2 & Ht2 & Hl2). exists (new1 ++ new2).
    rewrite Ht2, Ht1, <- app_assoc, List.filter_app, length_app. split; [done|lia].
Qed.

Lemma atmost_for_each {A} (l : list A) (body : A -> M unit) n :
  (forall x, x ∈ l -> atmost c n (body x)) ->
  atmost c (length l * n) (for_each l body).
Proof.
  induction l as [|x l IH]; intros Hb; [by apply atmost_quiet|].
  simpl. apply atmost_bind; [apply Hb; by left|].
  intros _. apply IH. intros y Hy. apply Hb. by right.
Qed.

Lemma atmost_for_gen {A} (g : list (M A)) (body : A -> M unit) n :
  (forall step, step ∈ g -> atmost c n (bind step body)) ->
  atmost c (length g * n) (for_gen g body).
Proof.
  induction g as [|x g IH]; intros Hb; [by apply atmost_quiet|].
  simpl. apply atmost_bind; [apply Hb; by left|].
  intros _. apply IH. intros y Hy. apply Hb. by right.
Qed.

Lemma atmost_emit ev n : (c ev = true -> (1 <= n)%nat) -> atmost c n (emit ev).
Proof.
  intros Hn s. exists [ev]. split; [done|]. simpl. destruct (c ev); simpl; [auto|lia].
Qed.

Lemma atmost_outcome r : atmost c 0 (outcome r).
Proof. apply atmost_quiet. by destruct r. Qed.

Lemma atmost_Image_apply f (im : ref) : atmost c 0 (Image_apply f im).
Proof.
  apply atmost_quiet. intros s. unfold Image_apply, bind, deref, lift, alloc.
  destruct (heap s !! im); [|done]. by destruct (f _).
Qed.

Lemma atmost_Image_mode (im : ref) : atmost c 0 (Image_mode im).
Proof.
  apply atmost_quiet. intros s. unfold Image_mode, bind, deref, ret.
  by destruct (heap s !! im).
Qed.

(** Store operations make no call. *)
Lemma quiet_trace {A} (m : M A) s :
  keeps (fun s' => trace s' = trace s /\ stdout s' = stdout s) m ->
  trace (m s).2 = trace s.
Proof. intros Hk. by destruct (Hk s). Qed.

Lemma quiet_blind s :
  heap_blind (fun s' => trace s' = trace s /\ stdout s' = stdout s).
Proof. intros s1 s2 Ht Ho [H1 H2]. by rewrite <- Ht, <- Ho. Qed.

Lemma atmost_convert_rgb (im : ref) bg : atmost c 0 (convert_rgb im bg).
Proof.
  apply atmost_quiet. intros s. apply quiet_trace, keeps_convert_rgb, quiet_blind.
Qed.

Lemma atmost_guarantee (im : ref) ext : atmost c 0 (guarantee_rgb_for_jpeg im ext).
Proof.
  apply atmost_quiet. intros s. apply quiet_trace, keeps_guarantee, quiet_blind.
Qed.

Variable env : Env.
Variables (kc kw : nat).
Hypothesis Hcopy : forall ev, is_copy ev = true -> c ev = true -> (1 <= kc)%nat.
Hypothesis Hwrite : forall ev, is_write ev = true -> c ev = true -> (1 <= kw)%nat.
Hypothesis Hother :
  forall ev, is_copy ev = false -> is_write ev = false -> c ev = false.

Lemma atmost_print m : atmost c 0 (print env m).
Proof.
  apply atmost_quiet. intros s. unfold print.
  by destruct (os_print env (trace s) (stdout s) m).
Qed.

Lemma atmost_other ev :
  is_copy ev = false -> is_write ev = false -> atmost c 0 (emit ev).
Proof. intros H1 H2. apply atmost_emit. by rewrite Hother. Qed.

Lemma atmost_variant src dest_dir ext name f (base : ref) :
  atmost c kw (bind (yield name (Image_apply f base))
                    (write_variant env src dest_dir ext)).
Proof.
  apply (atmost_bind _ _ 0 kw).
  { unfold yield. apply (atmost_bind _ _ 0 0); [apply atmost_Image_apply|].
    intros v. by apply (atmost_quiet (ret (name, v))). }
  intros v. unfold write_variant.
  apply (atmost_bind _ _ 0 kw); [apply atmost_guarantee|].
  intros aug. apply (atmost_bind _ _ 0 kw).
  { unfold save_image, Image_save. apply (atmost_bind _ _ 0 0).
    { apply atmost_quiet. intros s. unfold deref. by destruct (heap s !! aug). }
    intros d. destruct (pil_save d _ _) as [data|e].
    - apply (atmost_bind _ _ 0 0); [by apply atmost_other|]. intros _.
      by apply (atmost_quiet (ret data)).
    - apply (atmost_bind _ _ 0 0); [by apply atmost_other|]. intros _.
      by apply (atmost_quiet (lift (Raise e))). }
  intros data. apply (atmost_mono _ (0 + (kw + 0) + 0)); [|lia].
  apply atmost_bind; [|intros _; by apply atmost_quiet].
  unfold Path_write_bytes. apply atmost_bind; [by apply atmost_quiet|].
  intros tr. apply atmost_bind; [|intros _; apply atmost_outcome].
  apply atmost_emit. by apply Hwrite.
Qed.

Lemma atmost_body src dest_dir (im : ref) :
  atmost c (8 * kw)
    (Image_load env im >>
     let* base := convert_rgb im white in
     for_gen (augmentations base)
       (write_variant env src dest_dir (Str.lower (PurePath.suffix src)))).
Proof.
  apply (atmost_bind _ _ 0 (8 * kw)).
  { unfold Image_load. apply (atmost_bind _ _ 0 0); [by apply atmost_quiet|].
    intros tr. apply (atmost_bind _ _ 0 0); [by apply atmost_other|].
    intros _. apply atmost_outcome. }
  intros _. apply (atmost_bind _ _ 0 (8 * kw)); [apply atmost_convert_rgb|].
  intros base. change 8%nat with (length (augmentations base)).
  apply atmost_for_gen.
  intros step (name & f & _ & ->)%spec_variants_steps. apply atmost_variant.
Qed.

Lemma atmost_augment_file src dest_dir :
  atmost c (8 * kw) (augment_file env src dest_dir).
Proof.
  unfold augment_file, with_as. apply (atmost_bind _ _ 0 (8 * kw)).
  { unfold Image_open. apply (atmost_bind _ _ 0 0); [by apply atmost_quiet|].
    intros tr. destruct (os_open_image env tr src) as [d|e].
    - apply (atmost_bind _ _ 0 0); [by apply atmost_other|]. intros _.
      by apply (atmost_quiet (alloc d)).
    - apply (atmost_bind _ _ 0 0); [by apply atmost_other|]. intros _.
      by apply (atmost_quiet (lift (Raise e))). }
  intros im. apply (atmost_mono _ (8 * kw + 0 + 0)); [|lia].
  apply atmost_bind.
  { apply atmost_try; [apply atmost_body|].
    intros e. apply (atmost_bind _ _ 0 0); [by apply atmost_other|]. intros _.
    by apply (atmost_quiet (lift (Raise e))). }
  intros b. apply (atmost_bind _ _ 0 0); [by apply atmost_other|]. intros _.
  by apply (atmost_quiet (ret b)).
Qed.

Lemma atmost_copy_original src dest_dir :
  atmost c kc (copy_original env src dest_dir).
Proof.
  unfold copy_original. apply (atmost_mono _ (kc + 0 + 0)); [|lia].
  apply atmost_try.
  - apply atmost_bind; [|intros _; by apply atmost_quiet].
    unfold shutil_copy2. apply (atmost_bind _ _ 0 kc); [by apply atmost_quiet|].
    intros tr. apply (atmost_mono _ (kc + 0)); [|lia].
    apply atmost_bind; [|intros _; apply atmost_outcome].
    apply atmost_emit. by apply Hcopy.
  - intros e. apply atmost_print.
Qed.

Lemma atmost_process_file input_dir output_dir copy_originals src :
  atmost c (kc + 8 * kw) (process_file env input_dir output_dir copy_originals src).
Proof.
  unfold process_file. apply (atmost_bind _ _ 0 (kc + 8 * kw));
    [by apply (atmost_quiet (lift _))|].
  intros rel. cbv zeta. apply (atmost_bind _ _ 0 (kc + 8 * kw)).
  { unfold Path_mkdir. apply (atmost_bind _ _ 0 0); [by apply atmost_quiet|].
    intros tr. apply (atmost_bind _ _ 0 0); [by apply atmost_other|].
    intros _. apply atmost_outcome. }
  intros _. apply atmost_bind.
  { destruct copy_originals; [apply atmost_copy_original|].
    apply (atmost_mono _ 0); [by apply (atmost_quiet (ret tt))|lia]. }
  intros _. apply (atmost_mono _ (8 * kw + 0)); [|lia].
  apply atmost_try; [apply atmost_augment_file|].
  intros e. apply atmost_print.
Qed.

Lemma atmost_files input_dir output_dir copy_originals :
  atmost c (length (discover env input_dir) * (kc + 8 * kw))
    (for_each (discover env input_dir)
       (process_file env input_dir output_dir copy_originals)).
Proof. apply atmost_for_each. intros src _. apply atmost_process_file. Qed.

End AtMost.

(** X15. At most eight variants and one copy per discovered image: after
    a run that found [N] images, whether it returned or raised, the
    count of augmented files is at most [8 * N] and the count of
    originals at most [N]. *)
Theorem counts_bounded `{P : Pillow} (env : Env)
    (input_dir output_dir : Path) (copy_originals : bool) (s : State) :
  discover env input_dir <> [] ->
  let res := process_dataset env input_dir output_dir copy_originals s in
  (num_augmented res.2 <= 8 * length (discover env input_dir))%nat
  /\ (num_originals res.2 <= length (discover env input_dir))%nat.
Proof.
  intros Hsome res. unfold res. clear res.
  rewrite process_dataset_found by done.
  pose proof (wp_files env input_dir output_dir copy_originals
                (discover env input_dir) (set_counters 0 0 s) (set_counters 0 0 s)
                (run_progress_refl _)) as Hwp.
  destruct (atmost_files (fun ev => is_write ev && succeeded ev) env 0 1)
    with (input_dir := input_dir) (output_dir := output_dir)
         (copy_originals := copy_originals) (s := set_counters 0 0 s)
    as (new1 & Ht1 & Hl1).
  { intros ev Hc Hw. destruct ev as [[] ?]; done. }
  { intros; lia. }
  { intros ev Hc Hw. by rewrite Hw. }
  destruct (atmost_files (fun ev => is_copy ev && succeeded ev) env 1 0)
    with (input_dir := input_dir) (output_dir := output_dir)
         (copy_originals := copy_originals) (s := set_counters 0 0 s)
    as (new2 & Ht2 & Hl2).
  { intros; lia. }
  { intros ev Hw Hc. destruct ev as [[] ?]; done. }
  { intros ev Hc Hw. by rewrite Hc. }
  unfold wp in Hwp.
  assert (Hcount : forall sL, run_progress (set_counters 0 0 s) sL ->
            trace sL = trace (set_counters 0 0 s) ++ new1 ->
            trace sL = trace (set_counters 0 0 s) ++ new2 ->
            (num_augmented sL <= 8 * length (discover env input_dir))%nat
            /\ (num_originals sL <= length (discover env input_dir))%nat).
  { intros sL (new & Ht & Hk & Hn) H1 H2. simpl in Hk, Hn.
    rewrite Ht in H1, H2. apply app_inv_head in H1, H2. subst new1 new2.
    unfold writes_ok, copies_ok in *. lia. }
  destruct (for_each _ _ _) as [[[]|e] sL]; cbn [snd] in *.
  - destruct (Hcount sL Hwp Ht1 Ht2) as [Ha Ho]. cbv zeta.
    destruct (os_print env (trace sL) (stdout sL) (MsgCompleted output_dir));
      [done|].
    by destruct (os_print env _ _ (MsgData _ _)).
  - by apply Hcount; [apply Hwp| |].
Qed.

Lemma counts_bounded_witness :
  let env := Toy.env Toy.photos Toy.opaque Toy.allow in
  let res := process_dataset env Toy.input Toy.output true Toy.start in
  discover env Toy.input <> []
  /\ length (discover env Toy.input) = 3%nat
  /\ num_augmented res.2 = 24%nat
  /\ num_originals res.2 = 3%nat
  /\ (num_augmented res.2 <= 8 * 3)%nat.
Proof.
  intros env res.
  assert (Hsome : discover env Toy.input <> []) by done.
  split; [exact Hsome|]. split; [reflexivity|].
  split; [vm_compute; reflexivity|]. split; [vm_compute; reflexivity|].
  exact (proj1 (counts_bounded env Toy.input Toy.output true Toy.start Hsome)).
Defined.

(** ** Normalizing twice *)

(** X16. [convert_rgb] is idempotent, and the JPEG guard leaves its result
    alone: when [convert_rgb] returns an image, calling it again on that
    image returns the same object and changes nothing, and so does
    [guarantee_rgb_for_jpeg] on it for every extension.  The modes are
    those Pillow documents for [new], [convert] and [paste]. *)
Theorem convert_rgb_idempotent `{P : Pillow} (HP : PillowSpec P)
    (im : ref) (d : img) (s : State) (out : ref) (s' : State) :
  heap s !! im = Some d ->
  convert_rgb im white s = (Ok out, s') ->
  convert_rgb out white s' = (Ok out, s')
  /\ forall ext, guarantee_rgb_for_jpeg out ext s' = (Ok out, s').
Proof.
  intros Hd Hrun.
  destruct (convert_rgb_run im d s _ _ Hd Hrun) as (h & Hs' & Hres).
  destruct (spec_normalize_base d) as [d'|e] eqn:Hnorm; [|done].
  destruct Hres as (out' & [= <-] & Hout & _).
  pose proof (spec_normalize_base_mode HP d d' Hnorm) as Hmode.
  assert (Hlook : heap s' !! out = Some d') by (by rewrite Hs').
  split.
  - destruct (convert_rgb out white s') as [r2 s2] eqn:Hrun2.
    destruct (convert_rgb_run out d' s' _ _ Hlook Hrun2) as (h2 & Hs2 & Hres2).
    unfold spec_normalize_base in Hres2.
    rewrite bool_decide_eq_true_2 in Hres2 by done.
    destruct Hres2 as (out2 & -> & _ & Hsame). destruct (Hsame Hmode) as [-> ->].
    by rewrite Hs2, set_heap_id.
  - intros ext. rewrite (guarantee_rgb_for_jpeg_run out d' ext s' Hlook).
    rewrite bool_decide_eq_false_2; [done|]. tauto.
Qed.

Lemma convert_rgb_idempotent_witness :
  let s := mkState (P := Toy.pillow) [Toy.rgba] [] [] 0 0 in
  let first := convert_rgb 0%nat white s in
  heap s !! 0%nat = Some Toy.rgba
  /\ first.1 = Ok 1%nat
  /\ convert_rgb 1%nat white first.2 = (Ok 1%nat, first.2)
  /\ guarantee_rgb_for_jpeg 1%nat ".jpg" first.2 = (Ok 1%nat, first.2).
Proof.
  intros s first. split; [reflexivity|]. split; [reflexivity|].
  destruct (convert_rgb_idempotent Examples.toy_spec 0%nat Toy.rgba s 1%nat first.2
              eq_refl eq_refl) as [Hagain Hguard].
  split; [exact Hagain|exact (Hguard ".jpg")].
Defined.
